(** * A shallow embedding of [bayes.py]

    The inference core of the Bayes-net utility: [BayesNode], the
    d-separation test of [IndependenceChecker] and the sampling loop of
    [Sampler] with the Gibbs strategy.

    Conventions of the embedding.
    - A reference to a node object is represented by the node's [name];
      names are unique among live nodes ([Network.getName]).  The store of
      node objects is a finite map from names to nodes, which is also the
      dictionary [IndependenceChecker.nodes] (keyed by [n.name]).
    - Python numbers (ints and floats) are exact rationals [Qc].
    - A Python exception is a value of [exn]; a computation that may raise
      returns a [result].  Loops and recursions that Python does not bound
      take a [fuel] and answer [OutOfFuel] when it is used up.
    - The random module is an explicit oracle threaded through the sampler.
    - Canvas and widget attributes ([item], [textItem], [x], [y]) and the
      diagnostic [print]s are left out. *)

From Stdlib Require Import ZArith QArith Qcanon Lia.
From stdpp Require Import base option numbers gmap list.

Open Scope Z_scope.

(** ** Exceptions and results *)

Inductive exn : Type :=
  | KeyError
  | IndexError
  | AttributeError
  | NameError
  | ZeroDivisionError.

Inductive result (A : Type) : Type :=
  | Ok (a : A)
  | Raise (e : exn)
  | OutOfFuel.

Arguments Ok {A} a.
Arguments Raise {A} e.
Arguments OutOfFuel {A}.

#[global] Instance result_ret : MRet result := fun A a => Ok a.

#[global] Instance result_bind : MBind result := fun A B f m =>
  match m with
  | Ok a => f a
  | Raise e => Raise e
  | OutOfFuel => OutOfFuel
  end.

(** [for x in l: if f(x): return True] followed by [return False]. *)
Fixpoint any_m {A : Type} (f : A → result bool) (l : list A) : result bool :=
  match l with
  | [] => Ok false
  | x :: l => r ← f x; if (r : bool) then Ok true else any_m f l
  end.

(** ** BayesNode *)

Record BayesNode : Type := mkNode {
  name : Z;
  parents : list (Z * Z);     (* (parent node, line) in insertion order *)
  children : list (Z * Z);    (* (child node, line) in insertion order *)
  prob : gmap Z Qc;
}.

Definition set_children (self : BayesNode) (cs : list (Z * Z)) : BayesNode :=
  {| name := name self; parents := parents self; children := cs;
     prob := prob self |}.

Definition set_parents (self : BayesNode) (ps : list (Z * Z)) : BayesNode :=
  {| name := name self; parents := ps; children := children self;
     prob := prob self |}.

(** [for (n, l) in self.children: if n == node: return ...] *)
Fixpoint recorded (node : Z) (links : list (Z * Z)) : bool :=
  match links with
  | [] => false
  | (n, l) :: links => if bool_decide (n = node) then true else recorded node links
  end.

Definition addChild (self : BayesNode) (node line : Z) : bool * BayesNode :=
  if bool_decide (node = name self) then (false, self)
  else if recorded node (children self) then (false, self)
  else (true, set_children self (children self ++ [(node, line)])).

Definition addParent (self : BayesNode) (node line : Z) : BayesNode :=
  set_parents self (parents self ++ [(node, line)]).

Definition removeChild (self : BayesNode) (node : Z) : BayesNode :=
  set_children self (filter (λ cl : Z * Z, cl.1 ≠ node) (children self)).

Definition removeParent (self : BayesNode) (node : Z) : BayesNode :=
  set_parents self (filter (λ pl : Z * Z, pl.1 ≠ node) (parents self)).

Definition isChild (self : BayesNode) (node : Z) : bool :=
  bool_decide (node ∈ (children self).*1).

Definition isParent (self : BayesNode) (node : Z) : bool :=
  bool_decide (node ∈ (parents self).*1).

(** The loop of [getProbability]: the pair is ([evalue], [index]). *)
Definition parentIndex (self : BayesNode) (evidence : list Z) : Z * Z :=
  foldl (λ (acc : Z * Z) (pl : Z * Z),
           ((if bool_decide (pl.1 ∈ evidence) then acc.1 + acc.2 else acc.1),
            acc.2 * 2))
        (0, 1) (parents self).

Definition getProbability (self : BayesNode) (evidence : list Z) : Qc :=
  let evalue := (parentIndex self evidence).1 in
  match prob self !! evalue with
  | Some p => p
  | None => (1 / 2)%Qc
  end.

(** ** The store of node objects *)

(** [self.nodes[n]]; also the dereference of a node reference. *)
Definition node_at (nodes : gmap Z BayesNode) (n : Z) : result BayesNode :=
  match nodes !! n with
  | Some nd => Ok nd
  | None => Raise KeyError
  end.

Definition computeProbability (nodes : gmap Z BayesNode) (self : BayesNode)
    (values : list Z) : result Qc :=
  let pTrue := getProbability self values in
  let result0 :=
    if bool_decide (name self ∈ values) then (1 - pTrue)%Qc else pTrue in
  foldl (λ (acc : result Qc) (cl : Z * Z),
           result ← acc;
           c ← node_at nodes cl.1;
           let pTrue := getProbability c values in
           if bool_decide (name c ∈ values)
           then Ok (result * (1 - pTrue))%Qc
           else Ok (result * pTrue)%Qc)
        (Ok result0) (children self).

(** ** IndependenceChecker *)

Module IndependenceChecker.

(** The inner [for] of [getPaths]: one step per neighbour. *)
Definition enqueue (visited : gset Z) (path : list Z)
    (queue : list (Z * list Z)) (nl : Z * Z) : list (Z * list Z) :=
  if bool_decide (nl.1 ∉ visited) then queue ++ [(nl.1, path ++ [nl.1])]
  else queue.

Fixpoint getPaths_loop (fuel : nat) (nodes : gmap Z BayesNode) (b : Z)
    (queue : list (Z * list Z)) (visited : gset Z) (paths : list (list Z))
    : result (list (list Z)) :=
  match queue with
  | [] => Ok paths
  | (node, path) :: queue =>
      match fuel with
      | O => OutOfFuel
      | S fuel =>
          let paths := if bool_decide (node = b) then paths ++ [path] else paths in
          let visited := {[node]} ∪ visited in
          nd ← node_at nodes node;
          let queue := foldl (enqueue visited path) queue (children nd ++ parents nd) in
          getPaths_loop fuel nodes b queue visited paths
      end
  end.

Definition getPaths (fuel : nat) (nodes : gmap Z BayesNode) (a b : Z)
    : result (list (list Z)) :=
  getPaths_loop fuel nodes b [(a, [a])] ∅ [].

Definition isCausalChain (nodes : gmap Z BayesNode) (a b c : Z) : result bool :=
  na ← node_at nodes a;
  nb ← node_at nodes b;
  down ← (if isChild na (name nb)
          then nc ← node_at nodes c; Ok (isChild nb (name nc))
          else Ok false);
  if (down : bool) then Ok true
  else if isParent na (name nb)
       then nc ← node_at nodes c; Ok (isParent nb (name nc))
       else Ok false.

Definition isCommonCause (nodes : gmap Z BayesNode) (a b c : Z) : result bool :=
  na ← node_at nodes a;
  nb ← node_at nodes b;
  if isParent na (name nb)
  then nc ← node_at nodes c; nb' ← node_at nodes b; Ok (isParent nc (name nb'))
  else Ok false.

Fixpoint hasEvidence (fuel : nat) (nodes : gmap Z BayesNode) (n : Z)
    (evidence : list Z) : result bool :=
  match fuel with
  | O => OutOfFuel
  | S fuel =>
      if bool_decide (n ∈ evidence) then Ok true
      else
        nd ← node_at nodes n;
        any_m (λ cl : Z * Z, hasEvidence fuel nodes cl.1 evidence) (children nd)
  end.

Definition isActive (fuel : nat) (nodes : gmap Z BayesNode) (a b c : Z)
    (evidence : list Z) : result bool :=
  if bool_decide (b ∈ evidence) then
    chain ← isCausalChain nodes a b c;
    if (chain : bool) then Ok false
    else
      fork ← isCommonCause nodes a b c;
      if (fork : bool) then Ok false else hasEvidence fuel nodes b evidence
  else
    chain ← isCausalChain nodes a b c;
    if (chain : bool) then Ok true
    else
      fork ← isCommonCause nodes a b c;
      if (fork : bool) then Ok true else hasEvidence fuel nodes b evidence.

Fixpoint checkPath (fuel : nat) (nodes : gmap Z BayesNode) (path : list Z)
    (evidence : list Z) : result bool :=
  match path with
  | x :: ((y :: z :: _) as rest) =>
      active ← isActive fuel nodes x y z evidence;
      if (active : bool) then checkPath fuel nodes rest evidence else Ok true
  | _ => Ok false
  end.

(** [for path in paths: if not checkPath(path): return False] *)
Fixpoint checkPaths (fuel : nat) (nodes : gmap Z BayesNode)
    (paths : list (list Z)) (evidence : list Z) : result bool :=
  match paths with
  | [] => Ok true
  | path :: paths =>
      blocked ← checkPath fuel nodes path evidence;
      if (blocked : bool) then checkPaths fuel nodes paths evidence else Ok false
  end.

Definition checkIndependence (fuel : nat) (nodes : gmap Z BayesNode) (a b : Z)
    (evidence : list Z) : result bool :=
  paths ← getPaths fuel nodes a b;
  checkPaths fuel nodes paths evidence.

(** *** The constructor, which validates and then runs the check *)

Inductive checker_report : Type :=
  | InvalidQuery             (* the warning box "Invalid query." *)
  | InvalidEvidence          (* the warning box "Invalid evidence." *)
  | Independent              (* the information box "... are independent" *)
  | Dependent.               (* the information box "... are dependent" *)

(** [self.nodes = dict(); for n in nodes.values(): self.nodes[n.name] = n] *)
Definition index_by_name (nodes : list BayesNode) : gmap Z BayesNode :=
  foldl (λ (d : gmap Z BayesNode) (n : BayesNode), <[name n := n]> d) ∅ nodes.

(** [l.pop()]: the last element and the rest. *)
Definition pop (l : list Z) : result (Z * list Z) :=
  match reverse l with
  | [] => Raise IndexError
  | x :: r => Ok (x, reverse r)
  end.

Section constructor.
(** The constructor makes two calls whose meaning depends on the
    interpreter: the membership test [self.nodes.has_key(n)] and the
    first warning [tkMessageBox.showwarning(...)].  The body is written
    once over both. *)
Variable has_key : gmap Z BayesNode → Z → result bool.
Variable warn_query : result checker_report.

(** [for n in l: if not self.nodes.has_key(n): valid = False] *)
Fixpoint all_live (d : gmap Z BayesNode) (l : list Z) (valid : bool)
    : result bool :=
  match l with
  | [] => Ok valid
  | n :: l =>
      live ← has_key d n;
      all_live d l (if negb live then false else valid)
  end.

(** [query] and [evidence] arrive as the sets built by [parseNodes],
    given here in iteration order. *)
Definition init_with (fuel : nat) (nodes : list BayesNode)
    (query evidence : list Z) : result checker_report :=
  let self_nodes := index_by_name nodes in
  let evidence := Z.abs <$> evidence in
  let query := Z.abs <$> query in
  let valid := bool_decide (length query = 2%nat) in
  valid ← all_live self_nodes query valid;
  if negb valid then warn_query
  else
    valid ← all_live self_nodes evidence valid;
    if negb valid then Ok InvalidEvidence
    else
      '(a, query) ← pop query;
      '(b, query) ← pop query;
      result ← checkIndependence fuel self_nodes a b evidence;
      Ok (if (result : bool) then Independent else Dependent).
End constructor.

(** The program is a Python 3 program (f-strings, [import tkinter]).
    Python 3 dictionaries have no attribute [has_key], so evaluating
    [self.nodes.has_key(n)] raises [AttributeError]. *)
Definition has_key (d : gmap Z BayesNode) (n : Z) : result bool :=
  Raise AttributeError.

(** [tkMessageBox] is bound nowhere in the program (its only import of the
    toolkit is [import tkinter as tk]; the second warning is sent through
    [tk.messagebox]), so evaluating [tkMessageBox.showwarning(...)] raises
    [NameError]. *)
Definition tkMessageBox_showwarning : result checker_report := Raise NameError.

(** [IndependenceChecker(nodes, query, evidence)] as the program runs. *)
Definition init (fuel : nat) (nodes : list BayesNode) (query evidence : list Z)
    : result checker_report :=
  init_with has_key tkMessageBox_showwarning fuel nodes query evidence.

(** The reading under which both calls work: [has_key] tests membership
    and the first warning is shown. *)
Definition has_key_legacy (d : gmap Z BayesNode) (n : Z) : result bool :=
  Ok (bool_decide (is_Some (d !! n))).

Definition init_legacy (fuel : nat) (nodes : list BayesNode)
    (query evidence : list Z) : result checker_report :=
  init_with has_key_legacy (Ok InvalidQuery) fuel nodes query evidence.

End IndependenceChecker.

(** ** Sampler *)

(** The random module: [choice_index] is the position drawn by the [k]-th
    use of the generator, [uniform] the number in [[0,1)] drawn by it. *)
Record random : Type := mkRandom {
  choice_index : nat → nat;
  uniform : nat → Qc;
  used : nat;
}.

Definition advance (r : random) : random :=
  {| choice_index := choice_index r; uniform := uniform r; used := S (used r) |}.

(** [random.choice(seq)] raises [IndexError] on an empty sequence. *)
Definition random_choice {A : Type} (seq : list A) (r : random)
    : result (A * random) :=
  match seq !! (choice_index r (used r) `mod` length seq)%nat with
  | Some x => Ok (x, advance r)
  | None => Raise IndexError
  end.

(** [random.random()] *)
Definition random_random (r : random) : Qc * random :=
  (uniform r (used r), advance r).

(** The text of the label [self.message]. *)
Inductive message : Type :=
  | Working
  | NoSamplesMatched
  | Estimate (q : Qc).

Module Sampler.

Fixpoint matches (sample : list Z) (values : list Z) : bool :=
  match values with
  | [] => true
  | v :: values =>
      if bool_decide (v > 0) then
        if bool_decide (v ∉ sample) then false else matches sample values
      else
        if bool_decide (- v ∈ sample) then false else matches sample values
  end.

Section run.
(** The state [St] is whatever the sample function reads and updates
    (the generator, and for Gibbs sampling [self.state]). *)
Context {St : Type}.
Variable sampleFunction : St → result ((Qc * list Z) * St).
Variables query evidence : list Z.

(** One turn of the [for] loop on ([numerator], [denominator],
    [sampleValues]). *)
Definition tally (acc : Qc * Qc * list Qc) (ws : Qc * list Z)
    : Qc * Qc * list Qc :=
  let '(numerator, denominator, sampleValues) := acc in
  let '(weight, sample) := ws in
  if matches sample evidence then
    let numerator :=
      if matches sample query then (numerator + weight)%Qc else numerator in
    let denominator := (denominator + weight)%Qc in
    let sampleValues :=
      if bool_decide (0 < denominator)%Qc
      then sampleValues ++ [(numerator / denominator)%Qc]
      else sampleValues in
    (numerator, denominator, sampleValues)
  else acc.

Fixpoint run_loop (iterations : nat) (st : St) (acc : Qc * Qc * list Qc)
    : result ((Qc * Qc * list Qc) * St) :=
  match iterations with
  | O => Ok (acc, st)
  | S iterations =>
      '(ws, st) ← sampleFunction st;
      run_loop iterations st (tally acc ws)
  end.

(** The samples the loop is fed, without the tally. *)
Fixpoint draws (iterations : nat) (st : St) : result (list (Qc * list Z) * St) :=
  match iterations with
  | O => Ok ([], st)
  | S iterations =>
      '(ws, st) ← sampleFunction st;
      '(rest, st) ← draws iterations st;
      Ok (ws :: rest, st)
  end.

(** [run]: the final text of the label, and the outcome of the call:
    the plotted values, or the exception that ended it.  The plot scale
    [float(self.width - 32) / float(sampleCount)] raises
    [ZeroDivisionError] when no value was recorded. *)
Definition run (iterations : nat) (st : St) : message * result (list Qc) :=
  match run_loop iterations st (0%Qc, 0%Qc, []) with
  | Ok ((numerator, denominator, sampleValues), _) =>
      let msg :=
        if bool_decide (denominator = 0%Qc) then NoSamplesMatched
        else Estimate (numerator / denominator)%Qc in
      (msg,
       if bool_decide (length sampleValues = 0%nat)
       then Raise ZeroDivisionError
       else Ok sampleValues)
  | Raise e => (Working, Raise e)
  | OutOfFuel => (Working, OutOfFuel)
  end.
End run.

End Sampler.

(** ** GibbsSampler *)

Module GibbsSampler.

Record gibbs : Type := mkGibbs {
  state : list Z;
  variables : list BayesNode;
  rng : random;
}.

(** The constructor up to the call of [sample]. *)
Definition init (evidence : list Z) (nodes : list BayesNode) (r : random) : gibbs :=
  let state := filter (λ e : Z, e > 0) evidence in
  let evars := Z.abs <$> evidence in
  {| state := state;
     variables := filter (λ n : BayesNode, name n ∉ evars) nodes;
     rng := r |}.

(** [list.remove(x)]: drops the first occurrence. *)
Fixpoint list_remove (x : Z) (l : list Z) : list Z :=
  match l with
  | [] => []
  | y :: l => if bool_decide (y = x) then l else y :: list_remove x l
  end.

Definition gibbsSample (store : gmap Z BayesNode) (self : gibbs)
    : result ((Qc * list Z) * gibbs) :=
  '(node, r) ← random_choice (variables self) (rng self);
  let '(u, r) := random_random r in
  p ← computeProbability store node (state self);
  let state :=
    if bool_decide (u < p)%Qc then
      if bool_decide (name node ∉ state self) then state self ++ [name node]
      else list_remove (name node) (state self)
    else state self in
  Ok ((1%Qc, state), {| state := state; variables := variables self; rng := r |}).

(** [GibbsSampler(parent, query, evidence, iterations, nodes)], which ends
    by calling [sample], that is [run(gibbsSample)]. *)
Definition GibbsSampler (store : gmap Z BayesNode) (query evidence : list Z)
    (iterations : nat) (nodes : list BayesNode) (r : random)
    : message * result (list Qc) :=
  Sampler.run (gibbsSample store) query evidence iterations (init evidence nodes r).

End GibbsSampler.

(** * Specification-level notions *)

(** The product of a list of numbers. *)
Definition product (l : list Qc) : Qc := foldr Qcmult 1%Qc l.

(** The turn-to-opposite component of a node under [values]: [1 - p] when
    the node is in [values], [p] otherwise. *)
Definition flip_factor (n : BayesNode) (values : list Z) : Qc :=
  if bool_decide (name n ∈ values)
  then (1 - getProbability n values)%Qc
  else getProbability n values.

(** The probability the table of [n] gives to the value [n] has in
    [values]: [p] when the node is in [values], [1 - p] otherwise. *)
Definition consistent_factor (n : BayesNode) (values : list Z) : Qc :=
  if bool_decide (name n ∈ values)
  then getProbability n values
  else (1 - getProbability n values)%Qc.

(** The child objects of a node, when every reference resolves. *)
Definition child_nodes (nodes : gmap Z BayesNode) (self : BayesNode)
    : option (list BayesNode) :=
  mapM (λ cl : Z * Z, nodes !! cl.1) (children self).

(** [computeFlipProbability] as the specification words it: the node's
    own flip component times, for every child, the probability of the value
    the child has in [currentState]. *)
Definition computeFlipProbability_spec (cs : list BayesNode) (n : BayesNode)
    (currentState : list Z) : Qc :=
  (flip_factor n currentState
   * product ((λ c, consistent_factor c currentState) <$> cs))%Qc.

(** What the code multiplies: the flip component of the node and of every
    child. *)
Definition computeProbability_flips (cs : list BayesNode) (n : BayesNode)
    (values : list Z) : Qc :=
  (flip_factor n values * product ((λ c, flip_factor c values) <$> cs))%Qc.

(** A sample is consistent with a set of signed literals when every
    positive literal is present in it and the magnitude of every negative
    literal is absent from it. *)
Definition consistent (sample : list Z) (values : list Z) : Prop :=
  ∀ v, v ∈ values → (v > 0 → v ∈ sample) ∧ (v < 0 → - v ∉ sample).

#[global] Instance consistent_dec sample values :
  Decision (consistent sample values).
Proof.
  unfold consistent.
  refine (cast_if (decide (Forall (λ v, (v > 0 → v ∈ sample) ∧ (v < 0 → - v ∉ sample)) values)));
    by rewrite <- list.Forall_forall.
Defined.

Definition evidence_ok (evidence : list Z) (s : list Z) : bool :=
  bool_decide (consistent s evidence).

Definition both_ok (query evidence : list Z) (s : list Z) : bool :=
  bool_decide (consistent s evidence ∧ consistent s query).

(** The sum of the weights of the samples that satisfy [P]. *)
Fixpoint weight_of (P : list Z → bool) (samples : list (Qc * list Z)) : Qc :=
  match samples with
  | [] => 0%Qc
  | (weight, sample) :: samples =>
      if P sample then (weight + weight_of P samples)%Qc
      else weight_of P samples
  end.

(** One Gibbs step leaves the state as it is, or toggles the membership of
    one node of the working variable set. *)
Definition toggled (vars : list BayesNode) (s s' : list Z) : Prop :=
  s' = s
  ∨ ∃ node, node ∈ vars
      ∧ (((name node ∉ s) ∧ s' = s ++ [name node])
         ∨ ((name node ∈ s) ∧ s' = GibbsSampler.list_remove (name node) s)).

(** The clamp of Gibbs sampling: the state agrees with the evidence and no
    node of the working variable set is an evidence variable. *)
Definition clamped (evidence : list Z) (g : GibbsSampler.gibbs) : Prop :=
  consistent (GibbsSampler.state g) evidence
  ∧ ∀ n, n ∈ GibbsSampler.variables g → name n ∉ Z.abs <$> evidence.

(** ** Networks and paths *)

(** A link recorded on one side is recorded on the other side too
    ([Network.stopLine] calls [addChild] and [addParent] together;
    [Network.remove] unlinks both sides). *)
Definition child_linked (nodes : gmap Z BayesNode) (n c : Z) : bool :=
  match nodes !! c with
  | Some ndc => bool_decide (n ∈ (parents ndc).*1)
  | None => false
  end.

Definition parent_linked (nodes : gmap Z BayesNode) (n p : Z) : bool :=
  match nodes !! p with
  | Some ndp => bool_decide (n ∈ (children ndp).*1)
  | None => false
  end.

Definition wf_node (nodes : gmap Z BayesNode) (n : Z) (nd : BayesNode) : bool :=
  bool_decide (name nd = n)
  && forallb (child_linked nodes n) (children nd).*1
  && forallb (parent_linked nodes n) (parents nd).*1.

(** A well-formed store: every node is filed under its name, and every
    link leads to a live node that records the link from its side. *)
Definition wf_network (nodes : gmap Z BayesNode) : Prop :=
  map_Forall (λ n nd, wf_node nodes n nd = true) nodes.

(** [rank] decreases along every edge, so the directed graph has no cycle. *)
Definition ranked (rank : Z → nat) (nodes : gmap Z BayesNode) : Prop :=
  map_Forall (λ _ nd, Forall (λ c, (rank c < rank (name nd))%nat) (children nd).*1)
    nodes.

Definition acyclic (nodes : gmap Z BayesNode) : Prop := ∃ rank, ranked rank nodes.

(** The directed edge [x → y]. *)
Definition edge (nodes : gmap Z BayesNode) (x y : Z) : Prop :=
  ∃ nd, nodes !! x = Some nd ∧ y ∈ (children nd).*1.

(** [y] is an undirected neighbour of [x]: a child or a parent. *)
Definition adjacent (nodes : gmap Z BayesNode) (x y : Z) : Prop :=
  ∃ nd, nodes !! x = Some nd ∧ y ∈ (children nd ++ parents nd).*1.

(** Consecutive nodes of [p] are neighbours. *)
Fixpoint walk (nodes : gmap Z BayesNode) (p : list Z) : Prop :=
  match p with
  | x :: ((y :: _) as rest) => adjacent nodes x y ∧ walk nodes rest
  | _ => True
  end.

(** A simple undirected path from [a] to [b]: it starts at [a], ends at
    [b], steps between neighbours and repeats no node. *)
Definition simple_path (nodes : gmap Z BayesNode) (a b : Z) (p : list Z) : Prop :=
  head p = Some a ∧ list.last p = Some b ∧ walk nodes p ∧ NoDup p.

(** [d] is a descendant of [y]: reached by following children, at least
    one step. *)
Inductive descendant (nodes : gmap Z BayesNode) : Z → Z → Prop :=
  | descendant_child y c : edge nodes y c → descendant nodes y c
  | descendant_step y c d :
      edge nodes y c → descendant nodes c d → descendant nodes y d.

Definition causal_chain (nodes : gmap Z BayesNode) (x y z : Z) : Prop :=
  (edge nodes x y ∧ edge nodes y z) ∨ (edge nodes z y ∧ edge nodes y x).

Definition common_cause (nodes : gmap Z BayesNode) (x y z : Z) : Prop :=
  edge nodes y x ∧ edge nodes y z.

(** The active-path rule for a middle triple. *)
Definition triple_active (nodes : gmap Z BayesNode) (E : list Z) (x y z : Z) : Prop :=
  ((causal_chain nodes x y z ∨ common_cause nodes x y z) ∧ y ∉ E)
  ∨ (¬ (causal_chain nodes x y z ∨ common_cause nodes x y z)
     ∧ (y ∈ E ∨ ∃ d, descendant nodes y d ∧ d ∈ E)).

(** A path is blocked when one of its middle triples is not active. *)
Definition blocked (nodes : gmap Z BayesNode) (E : list Z) (p : list Z) : Prop :=
  ∃ pre x y z post, p = pre ++ x :: y :: z :: post ∧ ¬ triple_active nodes E x y z.

(** ** The queue of [getPaths] *)

(** What holds of a queue entry [(node, path)]: the path ends in the node,
    every earlier node of it is already visited, and it is a simple walk
    from [a] through live nodes. *)
Definition entry_ok (nodes : gmap Z BayesNode) (a : Z) (visited : gset Z)
    (e : Z * list Z) : Prop :=
  (∃ p0, e.2 = p0 ++ [e.1] ∧ ∀ x, x ∈ p0 → x ∈ visited)
  ∧ NoDup e.2 ∧ walk nodes e.2 ∧ head e.2 = Some a
  ∧ ∀ x, x ∈ e.2 → is_Some (nodes !! x).

(** A returned path. *)
Definition path_ok (nodes : gmap Z BayesNode) (a b : Z) (p : list Z) : Prop :=
  simple_path nodes a b p ∧ ∀ x, x ∈ p → is_Some (nodes !! x).

(** The work still caused by an entry whose path may grow by [k] nodes,
    when no node has more than [d] neighbours. *)
Fixpoint cost (d k : nat) : nat :=
  match k with
  | O => 1
  | S k => S (d * cost d k)
  end.

Definition work (d n : nat) (queue : list (Z * list Z)) : nat :=
  sum_list_with (λ e : Z * list Z, cost d (n - length e.2)) queue.

Definition degree (nd : BayesNode) : nat := length (children nd ++ parents nd).

Definition max_degree (nodes : gmap Z BayesNode) : nat :=
  max_list ((λ kv : Z * BayesNode, degree kv.2) <$> map_to_list nodes).

Definition max_rank (rank : Z → nat) (nodes : gmap Z BayesNode) : nat :=
  max_list ((λ kv : Z * BayesNode, rank kv.1) <$> map_to_list nodes).

(** Fuel that is enough for [getPaths] on [nodes]. *)
Definition paths_fuel (nodes : gmap Z BayesNode) : nat :=
  S (cost (max_degree nodes) (size nodes)).

(** * Example networks *)

(** A node with one child; the child's table gives 1/4 to [true] when the
    parent is false. *)
Definition flip_parent : BayesNode := mkNode 1 [] [(2, 0)] ∅.
Definition flip_child : BayesNode := mkNode 2 [(1, 0)] [] {[ 0 := Q2Qc (1 # 4) ]}.
Definition flip_store : gmap Z BayesNode :=
  <[1 := flip_parent]> (<[2 := flip_child]> ∅).

(** A sample function that replays a prepared stream of weighted samples. *)
Definition replay (st : list (Qc * list Z))
    : result ((Qc * list Z) * list (Qc * list Z)) :=
  match st with
  | ws :: st => Ok (ws, st)
  | [] => Raise IndexError
  end.

Definition stream3 : list (Qc * list Z) :=
  [(1%Qc, [1; 2]); (1%Qc, [1]); (1%Qc, [2])].

(** A generator that always draws position 0 and the number 0. *)
Definition zero_random : random :=
  {| choice_index := λ _, 0%nat; uniform := λ _, 0%Qc; used := 0 |}.

(** The two-node network 1 → 2 as the list of its nodes. *)
Definition pair_nodes : list BayesNode := [flip_parent; flip_child].

(** Two Gibbs iterations on [pair_nodes] with node 1 observed true: the
    samples drawn and the sampler afterwards. *)
Definition gibbs_samples : list (Qc * list Z) := [(1%Qc, [1; 2]); (1%Qc, [1])].
Definition gibbs_final : GibbsSampler.gibbs :=
  {| GibbsSampler.state := [1];
     GibbsSampler.variables := [flip_child];
     GibbsSampler.rng := advance (advance (advance (advance zero_random))) |}.

(** The triangle 1 → 2, 1 → 3, 3 → 2; node 1 got the child 2 first. *)
Definition tri1 : BayesNode := mkNode 1 [] [(2, 10); (3, 11)] ∅.
Definition tri2 : BayesNode := mkNode 2 [(1, 10); (3, 12)] [] ∅.
Definition tri3 : BayesNode := mkNode 3 [(1, 11)] [(2, 12)] ∅.
Definition triangle : gmap Z BayesNode :=
  <[1 := tri1]> (<[2 := tri2]> (<[3 := tri3]> ∅)).
Definition triangle_rank (n : Z) : nat :=
  if bool_decide (n = 1) then 2 else if bool_decide (n = 3) then 1 else 0.

(** The network 4 → 1, 3 → 1, 2 → 3, 4 → 3, drawn in this order. *)
Definition kite1 : BayesNode := mkNode 1 [(4, 10); (3, 11)] [] ∅.
Definition kite2 : BayesNode := mkNode 2 [] [(3, 12)] ∅.
Definition kite3 : BayesNode := mkNode 3 [(2, 12); (4, 13)] [(1, 11)] ∅.
Definition kite4 : BayesNode := mkNode 4 [] [(1, 10); (3, 13)] ∅.
Definition kite : gmap Z BayesNode :=
  <[1 := kite1]> (<[2 := kite2]> (<[3 := kite3]> (<[4 := kite4]> ∅))).
Definition kite_rank (n : Z) : nat :=
  if bool_decide (n = 1) then 0
  else if bool_decide (n = 3) then 1 else 2.

(** A single node. *)
Definition lone : BayesNode := mkNode 1 [] [] ∅.
Definition lone_store : gmap Z BayesNode := {[ 1 := lone ]}.

(** Two nodes without any link. *)
Definition apart : gmap Z BayesNode :=
  <[1 := mkNode 1 [] [] ∅]> (<[2 := mkNode 2 [] [] ∅]> ∅).

(** Two nodes linked both ways: 1 → 2 and 2 → 1. *)
Definition loop1 : BayesNode := mkNode 1 [(2, 11)] [(2, 10)] ∅.
Definition loop2 : BayesNode := mkNode 2 [(1, 10)] [(1, 11)] ∅.
Definition loop_store : gmap Z BayesNode := <[1 := loop1]> (<[2 := loop2]> ∅).

(** A rank for [pair_nodes]: node 1 before node 2. *)
Definition pair_rank (n : Z) : nat := if bool_decide (n = 1) then 0 else 1.

(** The nodes of [loop_store], a list with a directed cycle. *)
Definition loop_nodes : list BayesNode := [loop1; loop2].


(** A collider above a directed cycle: 1 → 3, 2 → 3, 3 → 4, 4 → 3. *)
Definition cyc1 : BayesNode := mkNode 1 [] [(3, 10)] ∅.
Definition cyc2 : BayesNode := mkNode 2 [] [(3, 11)] ∅.
Definition cyc3 : BayesNode := mkNode 3 [(1, 10); (2, 11); (4, 13)] [(4, 12)] ∅.
Definition cyc4 : BayesNode := mkNode 4 [(3, 12)] [(3, 13)] ∅.
Definition collider_loop : gmap Z BayesNode :=
  <[1 := cyc1]> (<[2 := cyc2]> (<[3 := cyc3]> (<[4 := cyc4]> ∅))).
(** * Further parts of the program *)

From Stdlib Require Import Ascii.
From Stdlib Require DecimalString.


(** ** BayesNode.draw *)

(** [random.random() < pTrue] *)
Definition draw (self : BayesNode) (evidence : list Z) (r : random)
    : bool * random :=
  let pTrue := getProbability self evidence in
  let '(u, r) := random_random r in
  (bool_decide (u < pTrue)%Qc, r).

(** ** Sampler.getReadyNodes *)

(** The inner loop: [ready] stays true unless a parent is not sampled. *)
Fixpoint parents_sampled (sampled : gset Z) (ps : list (Z * Z)) : bool :=
  match ps with
  | [] => true
  | pl :: ps =>
      if bool_decide (pl.1 ∉ sampled) then false else parents_sampled sampled ps
  end.

Definition getReadyNodes (nodes : list BayesNode) (sampled : gset Z)
    : list BayesNode :=
  foldl (λ (readyNodes : list BayesNode) (n : BayesNode),
           if bool_decide (name n ∉ sampled) then
             if parents_sampled sampled (parents n) then readyNodes ++ [n]
             else readyNodes
           else readyNodes)
        [] nodes.

(** ** RejectionSampler *)

Module RejectionSampler.

(** The [while] loop of [forwardSample]. *)
Fixpoint forward_loop (fuel : nat) (nodes : list BayesNode)
    (queue : list BayesNode) (sampled : gset Z) (values : list Z) (r : random)
    : result (list Z * random) :=
  match queue with
  | [] => Ok (values, r)
  | node :: queue =>
      match fuel with
      | O => OutOfFuel
      | S fuel =>
          let inode := name node in
          if bool_decide (inode ∉ sampled) then
            let '(d, r) := draw node values r in
            let values := if (d : bool) then values ++ [inode] else values in
            let sampled := {[inode]} ∪ sampled in
            forward_loop fuel nodes (queue ++ getReadyNodes nodes sampled)
              sampled values r
          else forward_loop fuel nodes queue sampled values r
      end
  end.

Definition forwardSample (fuel : nat) (nodes : list BayesNode) (r : random)
    : result ((Qc * list Z) * random) :=
  '(values, r) ← forward_loop fuel nodes (getReadyNodes nodes ∅) ∅ [] r;
  Ok ((1%Qc, values), r).

(** [RejectionSampler(parent, query, evidence, iterations, nodes)], which
    ends by calling [sample], that is [run(forwardSample)]. *)
Definition RejectionSampler (fuel : nat) (query evidence : list Z)
    (iterations : nat) (nodes : list BayesNode) (r : random)
    : message * result (list Qc) :=
  Sampler.run (forwardSample fuel nodes) query evidence iterations r.

End RejectionSampler.

(** ** LikelihoodSampler *)

Module LikelihoodSampler.

(** What the loop does with one node not yet sampled; the triple is
    ([values], [weight], generator). *)
Definition visit (evidence : list Z) (node : BayesNode)
    (acc : list Z * Qc * random) : list Z * Qc * random :=
  let '(values, weight, r) := acc in
  if bool_decide (name node ∈ evidence) then
    (values ++ [name node], (weight * getProbability node values)%Qc, r)
  else if bool_decide (- name node ∈ evidence) then
    (values, (weight * (1 - getProbability node values))%Qc, r)
  else
    let '(d, r) := draw node values r in
    ((if (d : bool) then values ++ [name node] else values), weight, r).

(** The [while] loop of [likelihoodSample]. *)
Fixpoint likelihood_loop (fuel : nat) (nodes : list BayesNode)
    (evidence : list Z) (queue : list BayesNode) (sampled : gset Z)
    (acc : list Z * Qc * random) : result (list Z * Qc * random) :=
  match queue with
  | [] => Ok acc
  | node :: queue =>
      match fuel with
      | O => OutOfFuel
      | S fuel =>
          if bool_decide (name node ∉ sampled) then
            let acc := visit evidence node acc in
            let sampled := {[name node]} ∪ sampled in
            likelihood_loop fuel nodes evidence
              (queue ++ getReadyNodes nodes sampled) sampled acc
          else likelihood_loop fuel nodes evidence queue sampled acc
      end
  end.

Definition likelihoodSample (fuel : nat) (nodes : list BayesNode)
    (evidence : list Z) (r : random) : result ((Qc * list Z) * random) :=
  '(values, weight, r) ←
    likelihood_loop fuel nodes evidence (getReadyNodes nodes ∅) ∅ ([], 1%Qc, r);
  Ok ((weight, values), r).

(** [LikelihoodSampler(parent, query, evidence, iterations, nodes)]. *)
Definition LikelihoodSampler (fuel : nat) (query evidence : list Z)
    (iterations : nat) (nodes : list BayesNode) (r : random)
    : message * result (list Qc) :=
  Sampler.run (likelihoodSample fuel nodes evidence) query evidence iterations r.

End LikelihoodSampler.

(** ** Network: names and structural edits *)

Module Network.

(** The part of a [Network] object the inference reads: the live nodes,
    the released names and the next fresh name.  The canvas item that keys
    [self.nodes] is represented by the node's name. *)
Record network : Type := mkNetwork {
  nodes : gmap Z BayesNode;
  freeNames : list Z;
  nextName : Z;
}.

(** [Network.__init__] *)
Definition empty : network :=
  {| nodes := ∅; freeNames := []; nextName := 1 |}.

Definition getName (self : network) : Z * network :=
  match freeNames self with
  | name :: rest =>
      (name, {| nodes := nodes self; freeNames := rest; nextName := nextName self |})
  | [] =>
      (nextName self,
       {| nodes := nodes self; freeNames := []; nextName := nextName self + 1 |})
  end.

(** [list.sort] on integers: the increasing rearrangement, built here by
    insertion. *)
Fixpoint insert_sorted (x : Z) (l : list Z) : list Z :=
  match l with
  | [] => [x]
  | y :: l' => if bool_decide (x ≤ y) then x :: l else y :: insert_sorted x l'
  end.

Definition list_sort (l : list Z) : list Z := foldr insert_sorted [] l.

Definition releaseName (self : network) (name : Z) : network :=
  {| nodes := nodes self;
     freeNames := list_sort (freeNames self ++ [name]);
     nextName := nextName self |}.

(** [createNode] without the drawing; the item it returns is the name. *)
Definition createNode (self : network) : Z * network :=
  let '(name, self) := getName self in
  (name,
   {| nodes := <[name := mkNode name [] [] ∅]> (nodes self);
      freeNames := freeNames self; nextName := nextName self |}).

(** The end of [stopLine], once both end nodes are found:
    [if self.startNode.addChild(node, self.line):
       node.addParent(self.startNode, self.line)]. *)
Definition link (self : network) (startNode node line : Z) : result network :=
  s ← node_at (nodes self) startNode;
  n ← node_at (nodes self) node;
  let '(ok, s') := addChild s (name n) line in
  if (ok : bool) then
    let store := <[startNode := s']> (nodes self) in
    Ok {| nodes := <[node := addParent n (name s) line]> store;
          freeNames := freeNames self; nextName := nextName self |}
  else Ok self.

(** [for (c, l) in node.children: c.removeParent(node)] *)
Definition unlink_children (node : BayesNode) (store : gmap Z BayesNode)
    : gmap Z BayesNode :=
  foldl (λ (st : gmap Z BayesNode) (cl : Z * Z),
           alter (λ c, removeParent c (name node)) cl.1 st)
        store (children node).

(** [for (p, l) in node.parents: p.removeChild(node)] *)
Definition unlink_parents (node : BayesNode) (store : gmap Z BayesNode)
    : gmap Z BayesNode :=
  foldl (λ (st : gmap Z BayesNode) (pl : Z * Z),
           alter (λ p, removeChild p (name node)) pl.1 st)
        store (parents node).

(** [remove], once the item under the pointer is found. *)
Definition remove (self : network) (item : Z) : result network :=
  node ← node_at (nodes self) item;
  let self := releaseName self (name node) in
  let store := unlink_children node (nodes self) in
  let store := unlink_parents node store in
  Ok {| nodes := delete item store;
        freeNames := freeNames self; nextName := nextName self |}.

End Network.

(** ** Notions used to state the further properties *)

(** A number that can be a probability. *)
Definition unit_interval (p : Qc) : Prop := (0 ≤ p)%Qc ∧ (p ≤ 1)%Qc.

(** Every entry of the node's table is a probability. *)
Definition valid_table (nd : BayesNode) : Prop :=
  map_Forall (λ (_ : Z) (p : Qc), unit_interval p) (prob nd).


(** A node is ready: not sampled, all its parents sampled. *)
Definition ready_now (sampled : gset Z) (n : BayesNode) : bool :=
  bool_decide (name n ∉ sampled) && parents_sampled sampled (parents n).

(** ** The order in which a forward pass samples the nodes *)

(** The nodes in the order in which the [while] loop of [forwardSample]
    and of [likelihoodSample] samples them; the loop's use of the queue and
    of [sampled] does not depend on the values drawn. *)
Fixpoint sampling_order (fuel : nat) (nodes queue : list BayesNode)
    (sampled : gset Z) : result (list BayesNode) :=
  match queue with
  | [] => Ok []
  | node :: queue =>
      match fuel with
      | O => OutOfFuel
      | S fuel =>
          if bool_decide (name node ∉ sampled) then
            let sampled := {[name node]} ∪ sampled in
            rest ← sampling_order fuel nodes
                     (queue ++ getReadyNodes nodes sampled) sampled;
            Ok (node :: rest)
          else sampling_order fuel nodes queue sampled
      end
  end.

(** What [forwardSample] does with one node not yet sampled; the pair is
    ([values], generator). *)
Definition forward_visit (acc : list Z * random) (node : BayesNode)
    : list Z * random :=
  let '(values, r) := acc in
  let '(d, r) := draw node values r in
  ((if (d : bool) then values ++ [name node] else values), r).

(** Fuel that is enough for a forward pass over [nodes]. *)
Definition pass_fuel (nodes : list BayesNode) : nat :=
  S (length nodes + length nodes * S (length nodes)).

(** Every parent recorded by a node of the list is a node of the list. *)
Definition parents_listed (nodes : list BayesNode) : Prop :=
  ∀ n p, n ∈ nodes → p ∈ (parents n).*1 → ∃ m, m ∈ nodes ∧ name m = p.

(** [rank] increases from every parent to its child: no directed cycle. *)
Definition parents_ranked (rank : Z → nat) (nodes : list BayesNode) : Prop :=
  ∀ n p, n ∈ nodes → p ∈ (parents n).*1 → (rank p < rank (name n))%nat.

(** Every node of [order] comes after its parents. *)
Definition parents_first (order : list BayesNode) : Prop :=
  ∀ pre node post, order = pre ++ node :: post →
    ∀ p, p ∈ (parents node).*1 → p ∈ name <$> pre.

(** ** Notions used to state the properties of [Network] *)

(** The link [x ← p] as [x] records it: [p] is among the parents of [x]. *)
Definition parent_link (nodes : gmap Z BayesNode) (x p : Z) : Prop :=
  ∃ nd, nodes !! x = Some nd ∧ p ∈ (parents nd).*1.

(** Strictly increasing. *)
Fixpoint increasing (l : list Z) : Prop :=
  match l with
  | [] => True
  | x :: l' => (∀ y, y ∈ l' → x < y) ∧ increasing l'
  end.

(** No node records a child or a parent twice, or itself. *)
Definition links_distinct (nodes : gmap Z BayesNode) : Prop :=
  ∀ x nd, nodes !! x = Some nd →
    NoDup (children nd).*1 ∧ NoDup (parents nd).*1
    ∧ (x ∉ (children nd).*1) ∧ (x ∉ (parents nd).*1).

(** The released names are kept increasing, and the names from 1 up to
    [nextName] are split between the live nodes and the released names. *)
Definition names_ok (self : Network.network) : Prop :=
  increasing (Network.freeNames self)
  ∧ 1 ≤ Network.nextName self
  ∧ (∀ n, n ∈ Network.freeNames self → Network.nodes self !! n = None)
  ∧ (∀ n, 1 ≤ n < Network.nextName self
          ↔ is_Some (Network.nodes self !! n) ∨ n ∈ Network.freeNames self).

Definition network_ok (self : Network.network) : Prop :=
  wf_network (Network.nodes self) ∧ links_distinct (Network.nodes self)
  ∧ names_ok self.

(** What [remove] does to a node that stays: it forgets the removed one. *)
Definition unlink (item : Z) (nd : BayesNode) : BayesNode :=
  removeChild (removeParent nd item) item.

(** What a successful [link] from [s] to [n] does to the node filed under
    [x]. *)
Definition relink (s n line x : Z) (nd : BayesNode) : BayesNode :=
  if bool_decide (x = n) then addParent nd s line
  else if bool_decide (x = s) then set_children nd (children nd ++ [(n, line)])
  else nd.


(** ** ProbabilityDialog *)

Definition set_prob (self : BayesNode) (table : gmap Z Qc) : BayesNode :=
  {| name := name self; parents := parents self; children := children self;
     prob := table |}.

Module ProbabilityDialog.

(** [self.values] holds one field for every row of
    [range(0, 1 << len(node.parents))].  A field is represented by what
    [float] makes of its text: [Some v], or [None] when [float] raises
    [ValueError].  The constructor that makes the fields is not modelled:
    it ends in [NameError] at [state=DISABLED], a name bound nowhere,
    before the first field exists.  [ok] is modelled as the method is
    written, over the fields it is given. *)

(** The loop of [ok] with its handler, [count] rows to go from row [i]: the
    table as the call leaves it, and how the call ends.  A row without a
    field is a [KeyError].  A field that is no float raises [ValueError];
    the handler then calls [tk.messagebox.showwarning], which raises
    [AttributeError], the program importing [tkinter] only and never its
    [messagebox] submodule.  The rows stored before stay stored: the table
    is the node's own. *)
Fixpoint ok_loop (count i : nat) (values : list (option Qc))
    (prob : gmap Z Qc) : gmap Z Qc * result unit :=
  match count with
  | O => (prob, Ok tt)
  | S count =>
      match values !! i with
      | None => (prob, Raise KeyError)
      | Some None => (prob, Raise AttributeError)
      | Some (Some v) => ok_loop count (S i) values (<[Z.of_nat i := v]> prob)
      end
  end.

(** [ok]: the node when the call returns. *)
Definition ok (node : BayesNode) (values : list (option Qc))
    : result BayesNode :=
  let '(prob, outcome) :=
    ok_loop (Z.to_nat (2 ^ Z.of_nat (length (parents node)))) 0 values
      (prob node) in
  _ ← outcome; Ok (set_prob node prob).

End ProbabilityDialog.

(** The number of fields before the first one that is no float. *)
Fixpoint leading_floats (values : list (option Qc)) : nat :=
  match values with
  | Some _ :: values => S (leading_floats values)
  | _ => O
  end.

(** ** The networks the editor can reach *)

(** From the empty network by [createNode], the linking step of
    [stopLine], [remove], and a change of a live node's table
    ([ProbabilityDialog.ok], whatever it stores). *)
Inductive built : Network.network → Prop :=
  | built_empty : built Network.empty
  | built_createNode self :
      built self → built (Network.createNode self).2
  | built_link self startNode node line self' :
      built self → Network.link self startNode node line = Ok self' →
      built self'
  | built_remove self item self' :
      built self → Network.remove self item = Ok self' → built self'
  | built_table self item node table :
      built self → Network.nodes self !! item = Some node →
      built {| Network.nodes := <[item := set_prob node table]> (Network.nodes self);
               Network.freeNames := Network.freeNames self;
               Network.nextName := Network.nextName self |}.

(** ** Lists of node names as text *)

(** Text is a list of characters with code points below 256. *)

(** [str.isspace] on these characters. *)
Definition is_space (c : ascii) : bool :=
  bool_decide (nat_of_ascii c ∈ [9; 10; 11; 12; 13; 28; 29; 30; 31; 32; 133; 160]%nat).

(** The pieces of [s] between the characters that satisfy [p]. *)
Fixpoint split_at (p : ascii → bool) (s : list ascii) : list (list ascii) :=
  match s with
  | [] => [[]]
  | c :: s =>
      if p c then [] :: split_at p s
      else match split_at p s with
           | w :: ws => (c :: w) :: ws
           | [] => [[c]]
           end
  end.

(** [s.split()]: the pieces between runs of white space. *)
Definition str_split (s : list ascii) : list (list ascii) :=
  filter (λ w : list ascii, w ≠ []) (split_at is_space s).

(** [s.split(sep)] for a separator of one character. *)
Definition str_split_on (sep : ascii) (s : list ascii) : list (list ascii) :=
  split_at (λ c, bool_decide (c = sep)) s.

(** [sep.join(l)] *)
Fixpoint str_join (sep : list ascii) (l : list (list ascii)) : list ascii :=
  match l with
  | [] => []
  | w :: l => match l with [] => w | _ :: _ => w ++ sep ++ str_join sep l end
  end.

(** White space or a comma. *)
Definition is_separator (c : ascii) : bool :=
  is_space c || bool_decide (c = ","%char).

Section text.
(** [int(s)], [None] for [ValueError]; and [str(i)]. *)
Variable int : list ascii → option Z.
Variable str : Z → list ascii.

Definition getListString (values : list Z) : list ascii :=
  str_join [","%char] (str <$> values).

Definition parseNodes (nodes : list ascii) : gset Z :=
  foldl (λ (result : gset Z) (n : list ascii),
           foldl (λ (result : gset Z) (s : list ascii),
                    match int s with
                    | Some i => {[i]} ∪ result
                    | None => result
                    end)
                 result (str_split_on ","%char n))
        ∅ (str_split nodes).
End text.
(** ** Example networks for the structural edits *)

(** The network object that holds the two unlinked nodes of [apart]. *)
Definition apart_net : Network.network :=
  {| Network.nodes := apart; Network.freeNames := []; Network.nextName := 3 |}.


(** The fields of the dialog of [flip_child]: one with a bad second row,
    one with a float in both rows. *)
Definition fields_bad : list (option Qc) := [Some (Q2Qc (1 # 4)); None].
Definition fields_good : list (option Qc) :=
  [Some (Q2Qc (1 # 4)); Some (Q2Qc (3 # 4))].

(** Two nodes created in the empty network, then linked 1 → 2. *)
Definition two_nodes : Network.network :=
  (Network.createNode (Network.createNode Network.empty).2).2.
Definition linked_pair : Network.network :=
  match Network.link two_nodes 1 2 7 with
  | Ok net => net
  | _ => two_nodes
  end.

(** Decimal [int] and [str] from the Standard Library, for text that holds
    decimal numerals only. *)
Definition decimal_int (s : list ascii) : option Z :=
  Z.of_int <$> Stdlib.Numbers.DecimalString.NilZero.int_of_string
                 (Stdlib.Strings.String.string_of_list_ascii s).
Definition decimal_str (i : Z) : list ascii :=
  Stdlib.Strings.String.list_ascii_of_string
    (Stdlib.Numbers.DecimalString.NilZero.string_of_int (Z.to_int i)).

(** The text [1, -30 2]. *)
Definition names_text : list ascii :=
  ["1"; ","; " "; "-"; "3"; "0"; " "; "2"]%char.

(** Three nodes created, then node 2 removed: nodes 1 and 3 are live and
    the name 2 is released. *)
Definition three_nodes : Network.network := (Network.createNode two_nodes).2.
Definition released_two : Network.network :=
  match Network.remove three_nodes 2 with
  | Ok net => net
  | _ => three_nodes
  end.
(** * BayesNode: theorems *)

Lemma recorded_elem_of node links :
  recorded node links = true ↔ node ∈ links.*1.
Proof.
  induction links as [|[n l] links IH]; simpl.
  - split; [discriminate | by intros ?%elem_of_nil].
  - case_bool_decide as Hn.
    + subst n. split; [intros _; left | done].
    + rewrite IH, elem_of_cons. split; [by right|].
      intros [Heq|Hin]; [by symmetry in Heq|done].
Qed.

(** C9: [addChild] fails and leaves the node as it was when the candidate
    is the node itself or an already recorded child; in every other case it
    succeeds and the children list is the old one with the candidate
    appended. *)
Theorem addChild_rejects_or_appends (self : BayesNode) (node line : Z) :
  ((node = name self ∨ node ∈ (children self).*1)
     ∧ addChild self node line = (false, self)
     ∧ length (children (addChild self node line).2) = length (children self))
  ∨ (node ≠ name self ∧ (node ∉ (children self).*1)
     ∧ (addChild self node line).1 = true
     ∧ children (addChild self node line).2 = children self ++ [(node, line)]
     ∧ parents (addChild self node line).2 = parents self
     ∧ name (addChild self node line).2 = name self
     ∧ prob (addChild self node line).2 = prob self).
Proof.
  unfold addChild.
  case_bool_decide as Hself.
  - left. auto.
  - destruct (recorded node (children self)) eqn:Hrec.
    + left. apply recorded_elem_of in Hrec. auto.
    + right. split; [done|]. split; [|done].
      intros Hin%recorded_elem_of. congruence.
Qed.

Lemma computeProbability_fold nodes values cs :
  ∀ (links : list (Z * Z)) (acc : Qc),
    mapM (λ cl : Z * Z, nodes !! cl.1) links = Some cs →
    foldl (λ (acc : result Qc) (cl : Z * Z),
             result ← acc;
             c ← node_at nodes cl.1;
             let pTrue := getProbability c values in
             if bool_decide (name c ∈ values)
             then Ok (result * (1 - pTrue))%Qc
             else Ok (result * pTrue)%Qc)
          (Ok acc) links
    = Ok (acc * product ((λ c, flip_factor c values) <$> cs))%Qc.
Proof.
  intros links. revert cs.
  induction links as [|cl links IH]; intros cs acc Hcs.
  - simpl in Hcs. injection Hcs as <-. simpl.
    apply (f_equal (@Ok Qc)). unfold product; simpl. ring.
  - simpl in Hcs.
    destruct (nodes !! cl.1) as [c|] eqn:Hc; [|done]. simpl in Hcs.
    destruct (mapM _ links) as [cs'|] eqn:Hcs'; [|done]. simpl in Hcs.
    injection Hcs as <-. simpl.
    unfold node_at at 2. rewrite Hc. simpl.
    assert (Hstep : (if bool_decide (name c ∈ values)
                     then Ok (acc * (1 - getProbability c values))%Qc
                     else Ok (acc * getProbability c values)%Qc)
                    = Ok (acc * flip_factor c values)%Qc).
    { unfold flip_factor. by case_bool_decide. }
    rewrite Hstep. rewrite (IH cs' _ eq_refl).
    apply (f_equal (@Ok Qc)). unfold product; simpl.
    symmetry. apply Qcmult_assoc.
Qed.

(** C4, as the code has it: when the child references of [n] resolve to
    the nodes [cs], [computeProbability] returns the flip component of [n]
    times the flip component of every child: for a child [c] the factor is
    [1 - c.getProbability(values)] when [c] is in [values] and
    [c.getProbability(values)] otherwise. *)
Theorem computeProbability_multiplies_flips (nodes : gmap Z BayesNode)
    (n : BayesNode) (values : list Z) (cs : list BayesNode) :
  child_nodes nodes n = Some cs →
  computeProbability nodes n values = Ok (computeProbability_flips cs n values).
Proof.
  intros Hcs. unfold computeProbability, computeProbability_flips.
  rewrite (computeProbability_fold nodes values cs _ _ Hcs).
  reflexivity.
Qed.

Lemma computeProbability_multiplies_flips_witness :
  computeProbability flip_store flip_parent []
  = Ok (computeProbability_flips [flip_child] flip_parent []).
Proof. apply computeProbability_multiplies_flips. reflexivity. Defined.

(** C4, as the specification words it, fails: with the child false in the
    current state the code multiplies by the child's [p], the specification
    by [1 - p]. *)
Lemma computeProbability_not_consistent_product :
  child_nodes flip_store flip_parent = Some [flip_child]
  ∧ computeProbability flip_store flip_parent [] = Ok (Q2Qc (1 # 8))
  ∧ computeFlipProbability_spec [flip_child] flip_parent [] = Q2Qc (3 # 8)
  ∧ computeProbability flip_store flip_parent []
    ≠ Ok (computeFlipProbability_spec [flip_child] flip_parent []).
Proof.
  split; [reflexivity|]. split; [by vm_compute|]. split; [by vm_compute|].
  vm_compute. intros [=].
Qed.

(** * Sampler: theorems *)

Section consistency.
Import Sampler.

Lemma matches_consistent sample values :
  0 ∉ sample → matches sample values = true ↔ consistent sample values.
Proof.
  intros H0. unfold consistent.
  induction values as [|v values IH]; simpl.
  - split; [|done]. intros _ v Hv. by apply elem_of_nil in Hv.
  - case_bool_decide as Hpos.
    + case_bool_decide as Hin.
      * split; [done|]. intros Hall.
        destruct (Hall v) as [Hp _]; [left|]. by specialize (Hp Hpos).
      * rewrite IH. split.
        -- intros Hall w [->|Hw]%elem_of_cons; [|by apply Hall].
           split; [done|lia].
        -- intros Hall w Hw. apply Hall. by right.
    + case_bool_decide as Hin.
      * split; [done|]. intros Hall.
        destruct (Hall v) as [_ Hn]; [left|].
        assert (v ≠ 0) by (intros ->; by apply H0).
        exfalso. apply Hn; [lia|done].
      * rewrite IH. split.
        -- intros Hall w [->|Hw]%elem_of_cons; [|by apply Hall].
           split; [lia|done].
        -- intros Hall w Hw. apply Hall. by right.
Qed.

End consistency.

Section run_facts.
Import Sampler.
Context {St : Type}.
Variable sampleFunction : St → result ((Qc * list Z) * St).
Variables query evidence : list Z.

(** The loop is the fold of [tally] over the samples it is fed. *)
Lemma run_loop_draws iterations :
  ∀ st acc samples st',
    draws sampleFunction iterations st = Ok (samples, st') →
    run_loop sampleFunction query evidence iterations st acc
    = Ok (foldl (tally query evidence) acc samples, st').
Proof.
  induction iterations as [|k IH]; intros st acc samples st' Hd; simpl in *.
  - by injection Hd as <- <-.
  - destruct (sampleFunction st) as [[ws st1]| |]; simpl in *; try done.
    destruct (draws sampleFunction k st1) as [[rest st2]| |] eqn:Hk;
      simpl in *; try done.
    injection Hd as <- <-. simpl. by apply IH.
Qed.

Lemma tally_sums samples :
  ∀ numerator denominator sampleValues,
    (∀ ws, ws ∈ samples → 0 ∉ ws.2) →
    ∃ sampleValues',
      foldl (tally query evidence) (numerator, denominator, sampleValues) samples
      = ((numerator + weight_of (both_ok query evidence) samples)%Qc,
         (denominator + weight_of (evidence_ok evidence) samples)%Qc,
         sampleValues').
Proof.
  induction samples as [|[weight sample] samples IH];
    intros numerator denominator sampleValues H0; simpl.
  - exists sampleValues. by rewrite !Qcplus_0_r.
  - assert (Hs : 0 ∉ sample) by (apply (H0 (weight, sample)); left).
    assert (Hrest : ∀ ws, ws ∈ samples → 0 ∉ ws.2)
      by (intros ws Hws; apply H0; by right).
    unfold evidence_ok, both_ok.
    destruct (matches sample evidence) eqn:He.
    + apply matches_consistent in He; [|done].
      rewrite (bool_decide_eq_true_2 _ He).
      destruct (matches sample query) eqn:Hq.
      * apply matches_consistent in Hq; [|done].
        rewrite (bool_decide_eq_true_2 (_ ∧ _)); [|done].
        edestruct IH as [vals Hvals]; [done|]. rewrite Hvals.
        exists vals. by rewrite !Qcplus_assoc.
      * rewrite (bool_decide_eq_false_2 (_ ∧ _)).
        2:{ intros [_ Hq']. apply matches_consistent in Hq'; [|done].
            congruence. }
        edestruct IH as [vals Hvals]; [done|]. rewrite Hvals.
        exists vals. by rewrite !Qcplus_assoc.
    + rewrite (bool_decide_eq_false_2 (consistent sample evidence)).
      2:{ intros He'. apply matches_consistent in He'; [|done]. congruence. }
      rewrite (bool_decide_eq_false_2 (_ ∧ _)).
      2:{ intros [He' _]. apply matches_consistent in He'; [|done].
          congruence. }
      by apply IH.
Qed.
End run_facts.

Lemma weight_of_nonneg P samples :
  (∀ ws, ws ∈ samples → (0 ≤ ws.1)%Qc) → (0 ≤ weight_of P samples)%Qc.
Proof.
  induction samples as [|[weight sample] samples IH]; intros Hw; simpl.
  - done.
  - assert (0 ≤ weight_of P samples)%Qc
      by (apply IH; intros ws Hws; apply Hw; by right).
    destruct (P sample); [|done].
    apply Qcplus_nonneg_nonneg; [|done]. apply (Hw (weight, sample)). left.
Qed.

(** C5: over the samples the loop is fed, the denominator is the sum of the
    weights of the samples consistent with the evidence, the numerator the
    sum of the weights of those also consistent with the query, and the
    label ends as numerator/denominator when the denominator is positive
    and as "No samples matched the evidence." otherwise.  Weights are
    non-negative and samples hold node identifiers (never 0). *)
Theorem run_estimates_ratio {St : Type}
    (sampleFunction : St → result ((Qc * list Z) * St))
    (query evidence : list Z) (iterations : nat) (st st' : St)
    (samples : list (Qc * list Z)) :
  Sampler.draws sampleFunction iterations st = Ok (samples, st') →
  (∀ ws, ws ∈ samples → (0 ≤ ws.1)%Qc ∧ 0 ∉ ws.2) →
  let numerator := weight_of (both_ok query evidence) samples in
  let denominator := weight_of (evidence_ok evidence) samples in
  (∃ sampleValues,
     Sampler.run_loop sampleFunction query evidence iterations st (0%Qc, 0%Qc, [])
     = Ok ((numerator, denominator, sampleValues), st'))
  ∧ (Sampler.run sampleFunction query evidence iterations st).1
    = if bool_decide (0 < denominator)%Qc
      then Estimate (numerator / denominator)%Qc
      else NoSamplesMatched.
Proof.
  intros Hd Hs numerator denominator.
  destruct (tally_sums query evidence samples 0%Qc 0%Qc []) as [vals Hvals].
  { intros ws Hws. by apply Hs. }
  rewrite !Qcplus_0_l in Hvals. fold numerator denominator in Hvals.
  assert (Hloop : Sampler.run_loop sampleFunction query evidence iterations st
                    (0%Qc, 0%Qc, []) = Ok ((numerator, denominator, vals), st')).
  { rewrite (run_loop_draws _ _ _ _ _ _ _ _ Hd). by rewrite Hvals. }
  split; [by exists vals|].
  unfold Sampler.run. rewrite Hloop. simpl.
  assert (Hnn : (0 ≤ denominator)%Qc).
  { apply weight_of_nonneg. intros ws Hws. by apply Hs. }
  case_bool_decide as Hz; case_bool_decide as Hp; try done.
  - rewrite Hz in Hp. by apply Qclt_not_eq in Hp.
  - exfalso. apply Hz. apply Qcle_antisym; [|done]. by apply Qcle_ngt.
Qed.

Lemma run_estimates_ratio_witness :
  (∃ sampleValues,
     Sampler.run_loop replay [2] [1] 3 stream3 (0%Qc, 0%Qc, [])
     = Ok ((weight_of (both_ok [2] [1]) stream3,
            weight_of (evidence_ok [1]) stream3, sampleValues), []))
  ∧ (Sampler.run replay [2] [1] 3 stream3).1
    = if bool_decide (0 < weight_of (evidence_ok [1%Z]) stream3)%Qc
      then Estimate (weight_of (both_ok [2%Z] [1%Z]) stream3
                     / weight_of (evidence_ok [1%Z]) stream3)%Qc
      else NoSamplesMatched.
Proof.
  apply (run_estimates_ratio replay [2] [1] 3 stream3 [] stream3).
  - reflexivity.
  - apply list.Forall_forall.
    apply (bool_decide_unpack _). vm_compute. exact I.
Defined.

(** * GibbsSampler: theorems *)

Section gibbs_facts.
Import Sampler GibbsSampler.

Lemma random_choice_empty {A : Type} (r : random) :
  random_choice (@nil A) r = Raise IndexError.
Proof. unfold random_choice. by rewrite lookup_nil. Qed.

Lemma random_choice_elem_of {A : Type} (seq : list A) r x r' :
  random_choice seq r = Ok (x, r') → x ∈ seq ∧ r' = advance r.
Proof.
  unfold random_choice.
  destruct (seq !! _) as [y|] eqn:Hy; [|done].
  intros [= <- <-]. split; [|done]. by eapply list_elem_of_lookup_2.
Qed.

Lemma list_remove_elem_of x y l : y ∈ list_remove x l → y ∈ l.
Proof.
  induction l as [|z l IH]; simpl; [done|].
  case_bool_decide.
  - intros ?. by right.
  - intros [->|?]%elem_of_cons; [left|right; auto].
Qed.

Lemma list_remove_other x y l : y ≠ x → y ∈ l → y ∈ list_remove x l.
Proof.
  intros Hne. induction l as [|z l IH]; simpl; [done|].
  intros [->|Hin]%elem_of_cons.
  - rewrite bool_decide_eq_false_2; [left|done].
  - case_bool_decide; [done|]. right. auto.
Qed.

Lemma variables_init evidence nodes r n :
  n ∈ variables (init evidence nodes r)
  ↔ n ∈ nodes ∧ name n ∉ Z.abs <$> evidence.
Proof. unfold init; simpl. rewrite list_elem_of_filter. tauto. Qed.

Lemma state_init evidence nodes r e :
  e ∈ state (init evidence nodes r) ↔ e ∈ evidence ∧ e > 0.
Proof. unfold init; simpl. rewrite list_elem_of_filter. tauto. Qed.

(** One call of [gibbsSample]. *)
Lemma gibbsSample_step store g ws g' :
  gibbsSample store g = Ok (ws, g') →
  ws = (1%Qc, state g') ∧ variables g' = variables g
  ∧ toggled (variables g) (state g) (state g').
Proof.
  unfold gibbsSample.
  destruct (random_choice (variables g) (rng g)) as [[node r]| |] eqn:Hc;
    simpl; try done.
  apply random_choice_elem_of in Hc as [Hnode _].
  destruct (computeProbability store node (state g)) as [p| |]; simpl; try done.
  intros Heq. injection Heq as Hws Hg. subst ws g'. simpl. split; [done|]. split; [done|].
  case_bool_decide; [|by left].
  right. exists node. split; [done|].
  case_bool_decide as Hin; [by left|right]. split; [|done].
  exact Hin.
Qed.

Section clamp.
Variable evidence : list Z.

Lemma clamped_init nodes r :
  (∀ e, e ∈ evidence → e > 0 → - e ∉ evidence) →
  clamped evidence (init evidence nodes r).
Proof.
  intros Hsigns. split.
  - intros v Hv. split.
    + intros Hpos. by apply state_init.
    + intros Hneg [Hin Hpos]%state_init.
      apply (Hsigns (- v)); [done|done|]. by rewrite Z.opp_involutive.
  - intros n Hn. by apply variables_init in Hn as [_ ?].
Qed.

Lemma toggled_consistent vars s s' :
  (∀ n, n ∈ vars → name n ∉ Z.abs <$> evidence) →
  toggled vars s s' → consistent s evidence → consistent s' evidence.
Proof.
  intros Hvars [->|(node & Hnode & Hcase)] Hs; [done|].
  specialize (Hvars _ Hnode).
  assert (Hother : ∀ v, v ∈ evidence → Z.abs v ≠ name node).
  { intros v Hv Heq. apply Hvars. rewrite <- Heq.
    by apply list_elem_of_fmap_2. }
  intros v Hv. destruct (Hs v Hv) as [Hp Hn]. specialize (Hother v Hv).
  destruct Hcase as [[_ ->]|[_ ->]]; split.
  - intros Hpos. apply elem_of_app. left. auto.
  - intros Hneg [Hin|Hin%list_elem_of_singleton]%elem_of_app.
    + by apply Hn.
    + lia.
  - intros Hpos. apply list_remove_other; [lia|auto].
  - intros Hneg Hin%list_remove_elem_of. by apply Hn.
Qed.

Lemma clamped_step store g ws g' :
  gibbsSample store g = Ok (ws, g') → clamped evidence g →
  clamped evidence g' ∧ consistent ws.2 evidence.
Proof.
  intros (-> & Hvars & Htog)%gibbsSample_step [Hs Hv].
  assert (consistent (state g') evidence)
    by (eapply toggled_consistent; eauto).
  split; [split|]; [done| |done]. by rewrite Hvars.
Qed.

Lemma clamped_draws store iterations :
  ∀ g samples g',
    draws (gibbsSample store) iterations g = Ok (samples, g') →
    clamped evidence g →
    Forall (λ ws, consistent ws.2 evidence) samples
    ∧ clamped evidence g' ∧ variables g' = variables g.
Proof.
  induction iterations as [|k IH]; intros g samples g' Hd Hg; simpl in Hd.
  - by injection Hd as <- <-.
  - destruct (gibbsSample store g) as [[ws g1]| |] eqn:Hstep;
      simpl in Hd; try done.
    destruct (draws (gibbsSample store) k g1) as [[rest g2]| |] eqn:Hk;
      simpl in Hd; try done.
    injection Hd as <- <-.
    destruct (clamped_step _ _ _ _ Hstep Hg) as [Hg1 Hws].
    destruct (IH _ _ _ Hk Hg1) as (Hrest & Hg2 & Hv).
    split; [by constructor|]. split; [done|].
    rewrite Hv. by apply gibbsSample_step in Hstep as (_ & ? & _).
Qed.
End clamp.
End gibbs_facts.

(** C8: the state starts as exactly the positive evidence identifiers and
    the working set as exactly the nodes whose identifier does not occur
    in the evidence by magnitude; every emitted sample holds every positive
    evidence identifier and no magnitude of a negative one; the working set
    never changes, and a step changes the state by at most the membership
    of one working-set node.  The evidence names no identifier with both
    signs. *)
Theorem gibbs_clamp_invariant (store : gmap Z BayesNode) (evidence : list Z)
    (nodes : list BayesNode) (r : random) (iterations : nat)
    (samples : list (Qc * list Z)) (g' : GibbsSampler.gibbs) :
  let g0 := GibbsSampler.init evidence nodes r in
  (∀ e, e ∈ evidence → e > 0 → - e ∉ evidence) →
  Sampler.draws (GibbsSampler.gibbsSample store) iterations g0 = Ok (samples, g') →
  (∀ e, e ∈ GibbsSampler.state g0 ↔ e ∈ evidence ∧ e > 0)
  ∧ (∀ n, n ∈ GibbsSampler.variables g0
          ↔ n ∈ nodes ∧ name n ∉ Z.abs <$> evidence)
  ∧ Forall (λ ws, consistent ws.2 evidence) samples
  ∧ consistent (GibbsSampler.state g') evidence
  ∧ GibbsSampler.variables g' = GibbsSampler.variables g0
  ∧ (∀ g ws g1,
       GibbsSampler.gibbsSample store g = Ok (ws, g1) →
       ws = (1%Qc, GibbsSampler.state g1)
       ∧ GibbsSampler.variables g1 = GibbsSampler.variables g
       ∧ toggled (GibbsSampler.variables g) (GibbsSampler.state g)
           (GibbsSampler.state g1)).
Proof.
  intros g0 Hsigns Hd.
  split; [apply state_init|]. split; [apply variables_init|].
  destruct (clamped_draws evidence store iterations g0 samples g' Hd)
    as (Hsamples & [Hstate _] & Hvars).
  { by apply clamped_init. }
  split; [done|]. split; [done|]. split; [done|].
  intros g ws g1. apply gibbsSample_step.
Qed.

Lemma gibbs_clamp_invariant_witness :
  Sampler.draws (GibbsSampler.gibbsSample flip_store) 2
    (GibbsSampler.init [1] pair_nodes zero_random) = Ok (gibbs_samples, gibbs_final)
  ∧ Forall (λ ws, consistent ws.2 [1]) gibbs_samples
  ∧ consistent (GibbsSampler.state gibbs_final) [1].
Proof.
  assert (Hd : Sampler.draws (GibbsSampler.gibbsSample flip_store) 2
                 (GibbsSampler.init [1] pair_nodes zero_random)
               = Ok (gibbs_samples, gibbs_final)) by (vm_compute; reflexivity).
  split; [exact Hd|].
  assert (Hsigns : ∀ e : Z, e ∈ [1] → e > 0 → - e ∉ [1]).
  { intros e He _ Hin. apply list_elem_of_singleton in He, Hin. lia. }
  pose proof (gibbs_clamp_invariant flip_store [1] pair_nodes zero_random 2
                gibbs_samples gibbs_final Hsigns Hd) as H.
  exact (conj (proj1 (proj2 (proj2 H))) (proj1 (proj2 (proj2 (proj2 H))))).
Defined.

Lemma filter_none {A : Type} (P : A → Prop) `{!∀ x, Decision (P x)} (l : list A) :
  (∀ x, x ∈ l → ¬ P x) → filter P l = [].
Proof.
  induction l as [|x l IH]; intros Hl; [done|].
  rewrite filter_cons_False; [|apply Hl; left].
  apply IH. intros y Hy. apply Hl. by right.
Qed.

Lemma gibbsSample_empty store g :
  GibbsSampler.variables g = [] →
  GibbsSampler.gibbsSample store g = Raise IndexError.
Proof.
  intros Hvars. unfold GibbsSampler.gibbsSample.
  by rewrite Hvars, random_choice_empty.
Qed.

(** C10: when every node is an evidence variable the working set is empty,
    and a run of at least one iteration ends in the [IndexError] of
    [random.choice]: the label is left at "Working..." and neither an
    estimate nor "No samples matched the evidence." is reported. *)
Theorem gibbs_all_evidence_raises (store : gmap Z BayesNode)
    (query evidence : list Z) (iterations : nat) (nodes : list BayesNode)
    (r : random) :
  (∀ n, n ∈ nodes → name n ∈ Z.abs <$> evidence) →
  (1 ≤ iterations)%nat →
  GibbsSampler.variables (GibbsSampler.init evidence nodes r) = []
  ∧ GibbsSampler.GibbsSampler store query evidence iterations nodes r
    = (Working, Raise IndexError).
Proof.
  intros Hall Hit.
  assert (Hvars : GibbsSampler.variables (GibbsSampler.init evidence nodes r) = []).
  { unfold GibbsSampler.init; simpl. apply filter_none.
    intros n Hn Hnot. apply Hnot. by apply Hall. }
  split; [done|].
  destruct iterations as [|k]; [lia|].
  unfold GibbsSampler.GibbsSampler, Sampler.run.
  cbn [Sampler.run_loop]. by rewrite gibbsSample_empty.
Qed.

Lemma gibbs_all_evidence_raises_witness :
  GibbsSampler.variables (GibbsSampler.init [1; -2] pair_nodes zero_random) = []
  ∧ GibbsSampler.GibbsSampler flip_store [1] [1; -2] 1 pair_nodes zero_random
    = (Working, Raise IndexError).
Proof.
  apply gibbs_all_evidence_raises; [|lia].
  apply list.Forall_forall. apply (bool_decide_unpack _). vm_compute. exact I.
Defined.

(** * IndependenceChecker: the constructor *)

(** C7: the constructor never reaches a report.  With an empty query the
    first warning is sent through the unbound name [tkMessageBox]; with any
    other query the first membership test calls [has_key].  Both raise, so
    neither "Invalid query." nor "Invalid evidence." is ever reported. *)
Theorem IndependenceChecker_validation_raises (fuel : nat)
    (nodes : list BayesNode) (query evidence : list Z) :
  IndependenceChecker.init fuel nodes query evidence
  = Raise (match query with [] => NameError | _ :: _ => AttributeError end).
Proof.
  unfold IndependenceChecker.init, IndependenceChecker.init_with.
  destruct query as [|q query]; reflexivity.
Qed.

(** Even when both calls are read as working, the validation lets the
    query [{1, -1}] through: both literals name node 1, and the check runs
    on a node against itself. *)
Lemma init_legacy_same_node_twice :
  IndependenceChecker.init_legacy 2 [lone] [1; -1] [] = Ok IndependenceChecker.Dependent
  ∧ IndependenceChecker.init_legacy 2 [lone] [] [] = Ok IndependenceChecker.InvalidQuery
  ∧ IndependenceChecker.init_legacy 2 [lone] [1; 2] [] = Ok IndependenceChecker.InvalidQuery.
Proof. repeat split; vm_compute; reflexivity. Qed.

(** * IndependenceChecker: paths that are missed *)

Ltac decide_by_computation := apply (bool_decide_unpack _); vm_compute; exact I.

Lemma triangle_wf : wf_network triangle ∧ ranked triangle_rank triangle.
Proof. split; decide_by_computation. Qed.

Lemma kite_wf : wf_network kite ∧ ranked kite_rank kite.
Proof. split; decide_by_computation. Qed.

Section missed_paths.
Import IndependenceChecker.

Lemma triangle_second_path : simple_path triangle 1 2 [1; 3; 2].
Proof.
  split; [done|]. split; [done|]. split.
  - split; [exists tri1|split; [exists tri3|done]];
      (split; [done|decide_by_computation]).
  - decide_by_computation.
Qed.

Lemma kite_long_path : simple_path kite 1 2 [1; 4; 3; 2].
Proof.
  split; [done|]. split; [done|]. split.
  - split; [exists kite1|split; [exists kite4|split; [exists kite3|done]]];
      (split; [done|decide_by_computation]).
  - decide_by_computation.
Qed.
End missed_paths.

(** C2: on the acyclic triangle 1 → 2, 1 → 3, 3 → 2 the call
    [getPaths(1, 2)] returns the direct path only; the simple undirected
    path 1, 3, 2 is not returned: node 2 is marked visited when the direct
    path is taken from the queue, so the entry for the path 1, 3 is never
    extended to node 2. *)
Theorem getPaths_misses_simple_path :
  wf_network triangle ∧ acyclic triangle
  ∧ simple_path triangle 1 2 [1; 3; 2]
  ∧ ∀ fuel,
      IndependenceChecker.getPaths fuel triangle 1 2 = OutOfFuel
      ∨ IndependenceChecker.getPaths fuel triangle 1 2 = Ok [[1; 2]].
Proof.
  split; [apply triangle_wf|]. split; [exists triangle_rank; apply triangle_wf|].
  split; [apply triangle_second_path|].
  intros fuel. destruct fuel as [|[|[|[|[|fuel]]]]];
    [left; reflexivity ..| right; vm_compute; reflexivity
     | right; vm_compute; reflexivity].
Qed.

(** C6: on the acyclic network 4 → 1, 3 → 1, 2 → 3, 4 → 3 with node 3
    observed, [checkIndependence(1, 2)] answers dependent and
    [checkIndependence(2, 1)] answers independent: only the enumeration
    from node 1 finds the active path 1, 4, 3, 2. *)
Theorem checkIndependence_not_symmetric :
  wf_network kite ∧ acyclic kite
  ∧ IndependenceChecker.getPaths 10 kite 1 2 = Ok [[1; 3; 2]; [1; 4; 3; 2]]
  ∧ IndependenceChecker.getPaths 10 kite 2 1 = Ok [[2; 3; 1]]
  ∧ IndependenceChecker.checkIndependence 10 kite 1 2 [3] = Ok false
  ∧ IndependenceChecker.checkIndependence 10 kite 2 1 [3] = Ok true.
Proof.
  split; [apply kite_wf|]. split; [exists kite_rank; apply kite_wf|].
  repeat split; vm_compute; reflexivity.
Qed.

(** * IndependenceChecker: the enumeration of paths *)

Section getPaths_facts.
Import IndependenceChecker.
Variable nodes : gmap Z BayesNode.
Hypothesis Hwf : wf_network nodes.

Lemma wf_name n nd : nodes !! n = Some nd → name nd = n.
Proof.
  intros Hn. specialize (Hwf n nd Hn). unfold wf_node in Hwf.
  apply andb_prop in Hwf as [Hwf _]. apply andb_prop in Hwf as [Hwf _].
  by apply bool_decide_eq_true in Hwf.
Qed.

Lemma wf_child n nd c :
  nodes !! n = Some nd → c ∈ (children nd).*1 →
  ∃ ndc, nodes !! c = Some ndc ∧ n ∈ (parents ndc).*1.
Proof.
  intros Hn Hc. specialize (Hwf n nd Hn). unfold wf_node in Hwf.
  apply andb_prop in Hwf as [Hwf _]. apply andb_prop in Hwf as [_ Hwf].
  rewrite forallb_forall in Hwf. apply list_elem_of_In in Hc.
  specialize (Hwf c Hc). unfold child_linked in Hwf.
  destruct (nodes !! c) as [ndc|]; [|done].
  exists ndc. split; [done|]. by apply bool_decide_eq_true in Hwf.
Qed.

Lemma wf_parent n nd p :
  nodes !! n = Some nd → p ∈ (parents nd).*1 →
  ∃ ndp, nodes !! p = Some ndp ∧ n ∈ (children ndp).*1.
Proof.
  intros Hn Hp. specialize (Hwf n nd Hn). unfold wf_node in Hwf.
  apply andb_prop in Hwf as [_ Hwf].
  rewrite forallb_forall in Hwf. apply list_elem_of_In in Hp.
  specialize (Hwf p Hp). unfold parent_linked in Hwf.
  destruct (nodes !! p) as [ndp|]; [|done].
  exists ndp. split; [done|]. by apply bool_decide_eq_true in Hwf.
Qed.

Lemma adjacent_live x y : adjacent nodes x y → is_Some (nodes !! y).
Proof.
  intros (nd & Hx & Hy). rewrite fmap_app in Hy.
  apply elem_of_app in Hy as [Hy|Hy].
  - destruct (wf_child _ _ _ Hx Hy) as (ndc & -> & _). by eexists.
  - destruct (wf_parent _ _ _ Hx Hy) as (ndp & -> & _). by eexists.
Qed.

(** The inner loop appends one entry per neighbour not yet visited. *)
Lemma enqueue_fold visited path links :
  ∀ queue,
    foldl (enqueue visited path) queue links
    = queue ++ ((λ n, (n, path ++ [n])) <$> filter (λ n, n ∉ visited) links.*1).
Proof.
  induction links as [|[n l] links IH]; intros queue; simpl.
  - by rewrite app_nil_r.
  - rewrite IH. unfold enqueue; simpl. rewrite filter_cons.
    destruct (decide (n ∉ visited)) as [Hn|Hn].
    + rewrite bool_decide_eq_true_2 by done. by rewrite <- app_assoc.
    + by rewrite bool_decide_eq_false_2 by done.
Qed.

Lemma walk_snoc p n m :
  walk nodes (p ++ [n]) → adjacent nodes n m → walk nodes ((p ++ [n]) ++ [m]).
Proof.
  intros Hw Hadj. induction p as [|x p IH]; simpl in *.
  - done.
  - destruct p as [|y p]; simpl in *.
    + destruct Hw as [Hxy _]. done.
    + destruct Hw as [Hxy Hw]. split; [done|]. by apply IH.
Qed.

Lemma entry_ok_mono a visited visited' e :
  visited ⊆ visited' → entry_ok nodes a visited e → entry_ok nodes a visited' e.
Proof.
  intros Hsub ((p0 & Hp & Hv) & Hrest). split; [|done].
  exists p0. split; [done|]. intros x Hx. apply Hsub. by apply Hv.
Qed.

Lemma entry_ok_extend a visited n p nd m :
  entry_ok nodes a visited (n, p) →
  nodes !! n = Some nd →
  m ∈ (children nd ++ parents nd).*1 →
  m ∉ {[n]} ∪ visited →
  entry_ok nodes a ({[n]} ∪ visited) (m, p ++ [m]).
Proof.
  intros ((p0 & Hp & Hv) & Hnd & Hw & Hh & Hl) Hn Hm Hfresh; simpl in *.
  assert (Hadj : adjacent nodes n m) by (by exists nd).
  assert (Hin : ∀ x, x ∈ p → x ∈ {[n]} ∪ visited).
  { intros x. rewrite Hp. intros [Hx|Hx%list_elem_of_singleton]%elem_of_app.
    - apply elem_of_union_r. by apply Hv.
    - apply elem_of_union_l. by apply elem_of_singleton. }
  split; [by exists p|]. simpl. split; [|split; [|split]].
  - apply NoDup_app. split; [done|]. split; [|apply NoDup_singleton].
    intros x Hx ->%list_elem_of_singleton. apply Hfresh. by apply Hin.
  - rewrite Hp. apply walk_snoc; [by rewrite <- Hp|done].
  - destruct p; [done|done].
  - intros x [Hx| ->%list_elem_of_singleton]%elem_of_app; [by apply Hl|].
    by eapply adjacent_live.
Qed.

Lemma entry_ok_path a visited n p :
  entry_ok nodes a visited (n, p) → path_ok nodes a n p.
Proof.
  intros ((p0 & Hp & Hv) & Hnd & Hw & Hh & Hl); simpl in *.
  split; [|done]. split; [done|]. split; [|done].
  rewrite Hp. apply last_snoc.
Qed.

(** The queue after one turn of the loop. *)
Lemma queue_step a visited n p nd queue :
  Forall (entry_ok nodes a visited) ((n, p) :: queue) →
  nodes !! n = Some nd →
  Forall (entry_ok nodes a ({[n]} ∪ visited))
    (foldl (enqueue ({[n]} ∪ visited) p) queue (children nd ++ parents nd)).
Proof.
  intros Hq Hn. apply Forall_cons in Hq as [He Hq].
  rewrite enqueue_fold. apply Forall_app. split.
  - eapply Forall_impl; [exact Hq|]. intros e. apply entry_ok_mono.
    apply union_subseteq_r.
  - apply list.Forall_forall. intros e (m & -> & Hm)%list_elem_of_fmap.
    apply list_elem_of_filter in Hm as [Hfresh Hm].
    by eapply entry_ok_extend.
Qed.

Lemma entry_ok_live a visited n p :
  entry_ok nodes a visited (n, p) → is_Some (nodes !! n).
Proof.
  intros ((p0 & Hp & _) & _ & _ & _ & Hl); simpl in *.
  apply Hl. rewrite Hp. apply elem_of_app. right. by apply list_elem_of_singleton.
Qed.

(** Every returned path is a simple undirected path from [a] to [b]. *)
Lemma getPaths_loop_sound a b fuel :
  ∀ queue visited paths ps,
    Forall (entry_ok nodes a visited) queue →
    Forall (path_ok nodes a b) paths →
    getPaths_loop fuel nodes b queue visited paths = Ok ps →
    Forall (path_ok nodes a b) ps.
Proof.
  induction fuel as [|fuel IH]; intros queue visited paths ps Hq Hps Hrun.
  - destruct queue as [|[n p] queue]; simpl in Hrun; [|done].
    by injection Hrun as <-.
  - destruct queue as [|[n p] queue]; simpl in Hrun.
    { by injection Hrun as <-. }
    pose proof Hq as Hq'. apply Forall_cons in Hq' as [He _].
    destruct (entry_ok_live _ _ _ _ He) as [nd Hn].
    unfold node_at in Hrun. rewrite Hn in Hrun. simpl in Hrun.
    eapply IH; [by eapply queue_step| |exact Hrun].
    case_bool_decide as Hb; [|done].
    apply Forall_app. split; [done|]. apply Forall_singleton.
    subst n. by eapply entry_ok_path.
Qed.

Lemma max_degree_bound n nd :
  nodes !! n = Some nd → (degree nd ≤ max_degree nodes)%nat.
Proof.
  intros Hn. unfold max_degree. apply max_list_elem_of_le.
  apply (list_elem_of_fmap_2' _ _ (n, nd)); [|done].
  by apply elem_of_map_to_list.
Qed.

Lemma entry_ok_length a visited e :
  entry_ok nodes a visited e → (length e.2 ≤ size nodes)%nat.
Proof.
  intros (_ & Hnd & _ & _ & Hl).
  rewrite <- (size_list_to_set (C := gset Z)) by done.
  rewrite <- (size_dom (D := gset Z)). apply subseteq_size.
  intros x Hx%elem_of_list_to_set. apply elem_of_dom. by apply Hl.
Qed.

Lemma cost_pos d k : (1 ≤ cost d k)%nat.
Proof. destruct k; simpl; lia. Qed.

Lemma work_app d n q1 q2 : work d n (q1 ++ q2) = (work d n q1 + work d n q2)%nat.
Proof. unfold work. by rewrite sum_list_with_app. Qed.

Lemma work_extend d n (p : list Z) (ms : list Z) :
  work d n ((λ m, (m, p ++ [m])) <$> ms)
  = (length ms * cost d (n - S (length p)))%nat.
Proof.
  unfold work. induction ms as [|m ms IH]; csimpl; [done|].
  rewrite IH. rewrite length_app. simpl.
  replace (length p + 1)%nat with (S (length p)) by lia. done.
Qed.

(** One turn of the loop lowers the work left in the queue. *)
Lemma work_step a visited n p nd queue :
  Forall (entry_ok nodes a visited) ((n, p) :: queue) →
  nodes !! n = Some nd →
  (work (max_degree nodes) (size nodes)
     (foldl (enqueue ({[n]} ∪ visited) p) queue (children nd ++ parents nd))
   < work (max_degree nodes) (size nodes) ((n, p) :: queue))%nat.
Proof.
  intros Hq Hn.
  pose proof (queue_step _ _ _ _ _ _ Hq Hn) as Hq'.
  rewrite enqueue_fold in Hq' |- *. rewrite work_app, work_extend.
  apply Forall_app in Hq' as [_ Hnew].
  set (ms := filter (λ m, m ∉ {[n]} ∪ visited) (children nd ++ parents nd).*1) in *.
  change (work (max_degree nodes) (size nodes) ((n, p) :: queue))
    with (cost (max_degree nodes) (size nodes - length p)
          + work (max_degree nodes) (size nodes) queue)%nat.
  assert (Hdeg : (length ms ≤ max_degree nodes)%nat).
  { etrans; [apply length_filter|]. rewrite length_fmap.
    by eapply max_degree_bound. }
  destruct ms as [|m ms'] eqn:Hms.
  - pose proof (cost_pos (max_degree nodes) (size nodes - length p)). simpl. lia.
  - apply Forall_fmap, Forall_cons in Hnew as [Hm _]. simpl in Hm.
    apply entry_ok_length in Hm. simpl in Hm. rewrite length_app in Hm.
    simpl in Hm.
    replace (size nodes - length p)%nat with (S (size nodes - S (length p)))
      by lia.
    simpl cost.
    assert (length (m :: ms') * cost (max_degree nodes) (size nodes - S (length p))
            ≤ max_degree nodes * cost (max_degree nodes) (size nodes - S (length p)))%nat
      by (apply Nat.mul_le_mono_r; exact Hdeg).
    lia.
Qed.

(** With fuel above the work in the queue the loop returns. *)
Lemma getPaths_loop_returns a b fuel :
  ∀ queue visited paths,
    Forall (entry_ok nodes a visited) queue →
    (work (max_degree nodes) (size nodes) queue < fuel)%nat →
    ∃ ps, getPaths_loop fuel nodes b queue visited paths = Ok ps.
Proof.
  induction fuel as [|fuel IH]; intros queue visited paths Hq Hfuel; [lia|].
  destruct queue as [|[n p] queue]; simpl.
  { by eexists. }
  pose proof Hq as Hq'. apply Forall_cons in Hq' as [He _].
  destruct (entry_ok_live _ _ _ _ He) as [nd Hn].
  unfold node_at. rewrite Hn. simpl.
  apply IH; [by eapply queue_step|].
  pose proof (work_step _ _ _ _ _ _ Hq Hn). lia.
Qed.

Lemma entry_ok_start a : is_Some (nodes !! a) → entry_ok nodes a ∅ (a, [a]).
Proof.
  intros Ha. split; [exists []; split; [done|]; by intros x ?%elem_of_nil|].
  simpl. split; [apply NoDup_singleton|]. split; [done|]. split; [done|].
  by intros x ->%list_elem_of_singleton.
Qed.

Lemma cost_mono d k k' : (k ≤ k')%nat → (cost d k ≤ cost d k')%nat.
Proof.
  induction 1 as [|k' _ IH]; [done|]. simpl.
  destruct d as [|d]; [destruct k; simpl; lia|nia].
Qed.

(** [getPaths] returns, and returns simple undirected paths only. *)
Lemma getPaths_returns a b fuel :
  is_Some (nodes !! a) → (paths_fuel nodes ≤ fuel)%nat →
  ∃ ps, getPaths fuel nodes a b = Ok ps ∧ Forall (path_ok nodes a b) ps.
Proof.
  intros Ha Hfuel. unfold getPaths.
  assert (Hq : Forall (entry_ok nodes a ∅) [(a, [a])])
    by (apply Forall_singleton; by apply entry_ok_start).
  destruct (getPaths_loop_returns a b fuel [(a, [a])] ∅ []) as [ps Hps].
  - done.
  - unfold paths_fuel in Hfuel. unfold work; simpl.
    pose proof (cost_mono (max_degree nodes) (size nodes - 1) (size nodes)).
    lia.
  - exists ps. split; [done|].
    by eapply getPaths_loop_sound.
Qed.
End getPaths_facts.

(** * IndependenceChecker: no path, and a node against itself *)

Section no_path.
Import IndependenceChecker.
Variable nodes : gmap Z BayesNode.

(** Once [b] is visited and no entry for [b] waits in the queue, no
    further path is recorded. *)
Lemma getPaths_loop_target_done b fuel :
  ∀ queue visited paths ps,
    b ∈ visited → Forall (λ e : Z * list Z, e.1 ≠ b) queue →
    getPaths_loop fuel nodes b queue visited paths = Ok ps →
    ps = paths.
Proof.
  induction fuel as [|fuel IH]; intros queue visited paths ps Hb Hq Hrun.
  - destruct queue as [|[n p] queue]; simpl in Hrun; [|done].
    by injection Hrun as <-.
  - destruct queue as [|[n p] queue]; simpl in Hrun.
    { by injection Hrun as <-. }
    apply Forall_cons in Hq as [Hn Hq]. simpl in Hn.
    rewrite bool_decide_eq_false_2 in Hrun by done.
    destruct (node_at nodes n) as [nd| |]; simpl in Hrun; try done.
    eapply IH; [| |exact Hrun].
    + by apply elem_of_union_r.
    + rewrite enqueue_fold. apply Forall_app. split; [done|].
      apply list.Forall_forall. intros e (m & -> & Hm)%list_elem_of_fmap.
      apply list_elem_of_filter in Hm as [Hfresh _]. simpl.
      intros ->. apply Hfresh. by apply elem_of_union_r.
Qed.

Hypothesis Hwf : wf_network nodes.

(** [getPaths(a, a)] returns the one-node path only. *)
Lemma getPaths_self a fuel :
  is_Some (nodes !! a) → (paths_fuel nodes ≤ fuel)%nat →
  getPaths fuel nodes a a = Ok [[a]].
Proof.
  intros Ha Hfuel. unfold getPaths.
  destruct fuel as [|fuel]; [unfold paths_fuel in Hfuel; lia|].
  assert (Hq : Forall (entry_ok nodes a ∅) [(a, [a])])
    by (apply Forall_singleton; by apply entry_ok_start).
  destruct Ha as [nd Hnd]. simpl. unfold node_at. rewrite Hnd. simpl.
  rewrite bool_decide_eq_true_2 by done. simpl.
  pose proof (queue_step nodes Hwf _ _ _ _ _ _ Hq Hnd) as Hq'.
  pose proof (work_step nodes Hwf _ _ _ _ _ _ Hq Hnd) as Hwork.
  destruct (getPaths_loop_returns nodes Hwf a a fuel _ _ [[a]] Hq') as [ps Hps].
  { unfold paths_fuel in Hfuel. unfold work in Hwork at 2. simpl in Hwork.
    pose proof (cost_mono (max_degree nodes) (size nodes - 1) (size nodes)).
    lia. }
  rewrite Hps. f_equal.
  eapply getPaths_loop_target_done; [| |exact Hps].
  - apply elem_of_union_l. by apply elem_of_singleton.
  - rewrite enqueue_fold. simpl.
    apply list.Forall_forall. intros e (m & -> & Hm)%list_elem_of_fmap.
    apply list_elem_of_filter in Hm as [Hfresh _]. simpl.
    intros ->. apply Hfresh. apply elem_of_union_l. by apply elem_of_singleton.
Qed.
End no_path.

(** C3, as the code has it: when no simple undirected path joins [a] and
    [b], [checkIndependence] returns true; when [a] and [b] are the same
    live node, [getPaths] returns the one-node path, which has no middle
    triple, and [checkIndependence] returns false (dependent). *)
Theorem checkIndependence_no_path_or_self (nodes : gmap Z BayesNode)
    (a b : Z) (evidence : list Z) (fuel : nat) :
  wf_network nodes → is_Some (nodes !! a) → (paths_fuel nodes ≤ fuel)%nat →
  ((∀ p, ¬ simple_path nodes a b p) →
     IndependenceChecker.getPaths fuel nodes a b = Ok []
     ∧ IndependenceChecker.checkIndependence fuel nodes a b evidence = Ok true)
  ∧ (a = b →
     IndependenceChecker.getPaths fuel nodes a b = Ok [[a]]
     ∧ IndependenceChecker.checkIndependence fuel nodes a b evidence = Ok false).
Proof.
  intros Hwf Ha Hfuel. split.
  - intros Hnone.
    destruct (getPaths_returns nodes Hwf a b fuel Ha Hfuel) as (ps & Hps & Hok).
    destruct ps as [|p ps].
    + split; [done|]. unfold IndependenceChecker.checkIndependence.
      by rewrite Hps.
    + apply Forall_cons in Hok as [[Hp _] _]. by destruct (Hnone p).
  - intros <-.
    pose proof (getPaths_self nodes Hwf a fuel Ha Hfuel) as Hps.
    split; [done|]. unfold IndependenceChecker.checkIndependence.
    by rewrite Hps.
Qed.

Lemma apart_no_path : ∀ p, ¬ simple_path apart 1 2 p.
Proof.
  intros p (Hh & Hl & Hw & _).
  destruct p as [|x [|y p]]; simpl in *; [done| |].
  - congruence.
  - injection Hh as ->. destruct Hw as [(nd & Hnd & Hy) _].
    vm_compute in Hnd. injection Hnd as <-. simpl in Hy.
    by apply elem_of_nil in Hy.
Qed.

Lemma checkIndependence_no_path_or_self_witness :
  IndependenceChecker.checkIndependence (paths_fuel apart) apart 1 2 [] = Ok true
  ∧ IndependenceChecker.checkIndependence (paths_fuel apart) apart 1 1 [] = Ok false.
Proof.
  assert (Hwf : wf_network apart) by decide_by_computation.
  assert (Hlive : is_Some (apart !! 1)) by (by eexists).
  split.
  - apply (checkIndependence_no_path_or_self apart 1 2 [] (paths_fuel apart)
             Hwf Hlive (le_n _)).
    exact apart_no_path.
  - apply (checkIndependence_no_path_or_self apart 1 1 [] (paths_fuel apart)
             Hwf Hlive (le_n _)).
    reflexivity.
Defined.

(** C3, as the specification words it, fails: a live node checked against
    itself is reported dependent. *)
Lemma checkIndependence_self_not_independent :
  wf_network lone_store ∧ is_Some (lone_store !! 1)
  ∧ IndependenceChecker.checkIndependence 1 lone_store 1 1 [] = Ok false
  ∧ ∀ fuel, IndependenceChecker.checkIndependence fuel lone_store 1 1 [] ≠ Ok true.
Proof.
  split; [decide_by_computation|]. split; [by eexists|]. split; [reflexivity|].
  intros [|[|fuel]]; vm_compute; discriminate.
Qed.

(** * IndependenceChecker: the active-path rule *)

Lemma any_m_spec {A : Type} (f : A → result bool) (P : A → Prop) (l : list A) :
  (∀ x, x ∈ l → ∃ r, f x = Ok r ∧ (r = true ↔ P x)) →
  ∃ r, any_m f l = Ok r ∧ (r = true ↔ ∃ x, x ∈ l ∧ P x).
Proof.
  induction l as [|x l IH]; intros Hf; simpl.
  - exists false. split; [done|]. split; [done|].
    by intros (x & ?%elem_of_nil & _).
  - destruct (Hf x) as (r & -> & Hr); [left|]. simpl.
    destruct r.
    + exists true. split; [done|]. split; [|done].
      intros _. exists x. split; [left|by apply Hr].
    + destruct IH as (r' & -> & Hr').
      { intros y Hy. apply Hf. by right. }
      exists r'. split; [done|]. rewrite Hr'. split.
      * intros (y & Hy & HP). exists y. split; [by right|done].
      * intros (y & [->|Hy]%elem_of_cons & HP).
        -- apply Hr in HP. done.
        -- by exists y.
Qed.

Section active_rule.
Import IndependenceChecker.
Variable nodes : gmap Z BayesNode.
Hypothesis Hwf : wf_network nodes.
Variable rank : Z → nat.
Hypothesis Hrank : ranked rank nodes.
Variable E : list Z.

Lemma edge_rank x y : edge nodes x y → (rank y < rank x)%nat.
Proof.
  intros (nd & Hx & Hy). specialize (Hrank x nd Hx). simpl in Hrank.
  rewrite (wf_name nodes Hwf _ _ Hx) in Hrank.
  rewrite list.Forall_forall in Hrank. by apply Hrank.
Qed.

Lemma edge_live x y : edge nodes x y → is_Some (nodes !! y).
Proof.
  intros (nd & Hx & Hy).
  destruct (wf_child nodes Hwf _ _ _ Hx Hy) as (ndc & -> & _). by eexists.
Qed.

Lemma isChild_edge x nd y :
  nodes !! x = Some nd → isChild nd y = true ↔ edge nodes x y.
Proof.
  intros Hx. unfold isChild. rewrite bool_decide_eq_true. split.
  - intros Hy. by exists nd.
  - intros (nd' & Hx' & Hy). congruence.
Qed.

Lemma isParent_edge x nd y :
  nodes !! x = Some nd → isParent nd y = true ↔ edge nodes y x.
Proof.
  intros Hx. unfold isParent. rewrite bool_decide_eq_true. split.
  - intros Hy. destruct (wf_parent nodes Hwf _ _ _ Hx Hy) as (ndp & Hp & Hc).
    by exists ndp.
  - intros (ndy & Hy & Hc).
    destruct (wf_child nodes Hwf _ _ _ Hy Hc) as (nd' & Hx' & Hp). congruence.
Qed.

(** [hasEvidence] answers whether the node or one of its descendants is
    in the evidence. *)
Lemma hasEvidence_spec fuel :
  ∀ n, (rank n < fuel)%nat → is_Some (nodes !! n) →
    ∃ r, hasEvidence fuel nodes n E = Ok r
         ∧ (r = true ↔ n ∈ E ∨ ∃ d, descendant nodes n d ∧ d ∈ E).
Proof.
  induction fuel as [|fuel IH]; intros n Hfuel [nd Hn]; [lia|]. simpl.
  case_bool_decide as HnE.
  { exists true. split; [done|]. split; [by left|done]. }
  unfold node_at. rewrite Hn. simpl.
  destruct (any_m_spec
              (λ cl : Z * Z, hasEvidence fuel nodes cl.1 E)
              (λ cl : Z * Z, cl.1 ∈ E ∨ ∃ d, descendant nodes cl.1 d ∧ d ∈ E)
              (children nd)) as (r & Hr & Hspec).
  { intros cl Hcl.
    assert (Hedge : edge nodes n cl.1).
    { exists nd. split; [done|]. by apply list_elem_of_fmap_2. }
    apply IH; [|by eapply edge_live].
    apply edge_rank in Hedge. lia. }
  exists r. split; [done|]. rewrite Hspec. split.
  - intros (cl & Hcl & Hc). right.
    assert (Hedge : edge nodes n cl.1).
    { exists nd. split; [done|]. by apply list_elem_of_fmap_2. }
    destruct Hc as [Hc|(d & Hd & HdE)].
    + exists cl.1. split; [by apply descendant_child|done].
    + exists d. split; [by eapply descendant_step|done].
  - intros [?|(d & Hd & HdE)]; [done|].
    inversion Hd as [? ? Hedge|? c ? Hedge Hcd]; subst.
    + destruct Hedge as (nd' & Hn' & Hc).
      assert (nd' = nd) as -> by congruence.
      apply list_elem_of_fmap in Hc as (cl & -> & Hcl).
      exists cl. split; [done|]. by left.
    + destruct Hedge as (nd' & Hn' & Hc).
      assert (nd' = nd) as -> by congruence.
      apply list_elem_of_fmap in Hc as (cl & -> & Hcl).
      exists cl. split; [done|]. right. by exists d.
Qed.

Lemma isCausalChain_spec x y z :
  is_Some (nodes !! x) → is_Some (nodes !! y) → is_Some (nodes !! z) →
  ∃ r, isCausalChain nodes x y z = Ok r ∧ (r = true ↔ causal_chain nodes x y z).
Proof.
  intros [nx Hx] [ny Hy] [nz Hz]. unfold isCausalChain, node_at.
  rewrite Hx, Hy, Hz. simpl.
  rewrite (wf_name nodes Hwf _ _ Hy), (wf_name nodes Hwf _ _ Hz).
  pose proof (isChild_edge x nx y Hx) as Hxy.
  pose proof (isChild_edge y ny z Hy) as Hyz.
  pose proof (isParent_edge x nx y Hx) as Hyx.
  pose proof (isParent_edge y ny z Hy) as Hzy.
  unfold causal_chain.
  destruct (isChild nx y), (isChild ny z), (isParent nx y), (isParent ny z);
    simpl; eexists; (split; [reflexivity|]); intuition congruence.
Qed.

Lemma isCommonCause_spec x y z :
  is_Some (nodes !! x) → is_Some (nodes !! y) → is_Some (nodes !! z) →
  ∃ r, isCommonCause nodes x y z = Ok r ∧ (r = true ↔ common_cause nodes x y z).
Proof.
  intros [nx Hx] [ny Hy] [nz Hz]. unfold isCommonCause, node_at.
  rewrite Hx, Hy, Hz. simpl.
  rewrite (wf_name nodes Hwf _ _ Hy).
  pose proof (isParent_edge x nx y Hx) as Hyx.
  pose proof (isParent_edge z nz y Hz) as Hyz.
  unfold common_cause.
  destruct (isParent nx y), (isParent nz y);
    simpl; eexists; (split; [reflexivity|]); intuition congruence.
Qed.

(** [isActive] decides the active-path rule. *)
Lemma isActive_spec fuel x y z :
  (rank y < fuel)%nat →
  is_Some (nodes !! x) → is_Some (nodes !! y) → is_Some (nodes !! z) →
  ∃ r, isActive fuel nodes x y z E = Ok r
       ∧ (r = true ↔ triple_active nodes E x y z).
Proof.
  intros Hfuel Hx Hy Hz. unfold isActive, triple_active.
  destruct (isCausalChain_spec x y z Hx Hy Hz) as (chain & -> & Hchain).
  destruct (isCommonCause_spec x y z Hx Hy Hz) as (fork & -> & Hfork).
  destruct (hasEvidence_spec fuel y Hfuel Hy) as (ev & -> & Hev).
  simpl.
  case_bool_decide as HyE; destruct chain, fork; simpl;
    eexists; (split; [reflexivity|]); intuition congruence.
Qed.

Lemma blocked_short p : (length p < 3)%nat → ¬ blocked nodes E p.
Proof.
  intros Hlen (pre & x & y & z & post & -> & _).
  rewrite length_app in Hlen. simpl in Hlen. lia.
Qed.

Lemma blocked_cons x y z rest :
  blocked nodes E (x :: y :: z :: rest)
  ↔ ¬ triple_active nodes E x y z ∨ blocked nodes E (y :: z :: rest).
Proof.
  split.
  - intros (pre & x' & y' & z' & post & Hp & Hna).
    destruct pre as [|w pre]; simpl in Hp.
    + injection Hp as -> -> -> _. by left.
    + injection Hp as -> Hp. right. by exists pre, x', y', z', post.
  - intros [Hna|(pre & x' & y' & z' & post & Hp & Hna)].
    + by exists [], x, y, z, rest.
    + exists (x :: pre), x', y', z', post. split; [|done].
      simpl. by rewrite Hp.
Qed.

(** [checkPath] answers whether the path is blocked. *)
Lemma checkPath_spec fuel p :
  (∀ x, x ∈ p → is_Some (nodes !! x) ∧ (rank x < fuel)%nat) →
  ∃ r, checkPath fuel nodes p E = Ok r ∧ (r = true ↔ blocked nodes E p).
Proof.
  induction p as [|x p IH]; intros Hp.
  - exists false. split; [done|]. split; [done|].
    intros Hb. by apply blocked_short in Hb; [|simpl; lia].
  - destruct p as [|y [|z rest]].
    + exists false. split; [done|]. split; [done|].
      intros Hb. by apply blocked_short in Hb; [|simpl; lia].
    + exists false. split; [done|]. split; [done|].
      intros Hb. by apply blocked_short in Hb; [|simpl; lia].
    + destruct (isActive_spec fuel x y z) as (act & Hact & Hspec).
      * apply Hp. right; left.
      * apply Hp. left.
      * apply Hp. right; left.
      * apply Hp. right; right; left.
      * change (checkPath fuel nodes (x :: y :: z :: rest) E)
          with (active ← isActive fuel nodes x y z E;
                if (active : bool)
                then checkPath fuel nodes (y :: z :: rest) E else Ok true).
        rewrite Hact. cbn [mbind result_bind]. destruct act.
        -- destruct IH as (r & -> & Hr).
           { intros w Hw. apply Hp. by right. }
           exists r. split; [done|]. rewrite blocked_cons, Hr. intuition.
        -- exists true. split; [done|]. rewrite blocked_cons.
           split; [|done]. intros _. left.
           intros Ha. apply Hspec in Ha. done.
Qed.

Lemma checkPaths_spec fuel ps :
  (∀ p, p ∈ ps → ∀ x, x ∈ p → is_Some (nodes !! x) ∧ (rank x < fuel)%nat) →
  ∃ r, checkPaths fuel nodes ps E = Ok r
       ∧ (r = true ↔ ∀ p, p ∈ ps → blocked nodes E p).
Proof.
  induction ps as [|p ps IH]; intros Hps; simpl.
  - exists true. split; [done|]. split; [|done].
    by intros _ p ?%elem_of_nil.
  - destruct (checkPath_spec fuel p) as (r & -> & Hr); [apply Hps; left|].
    simpl. destruct r.
    + destruct IH as (r' & -> & Hr').
      { intros q Hq. apply Hps. by right. }
      exists r'. split; [done|]. rewrite Hr'. split.
      * intros Hall q [->|Hq]%elem_of_cons; [by apply Hr|by apply Hall].
      * intros Hall q Hq. apply Hall. by right.
    + exists false. split; [done|]. split; [done|].
      intros Hall. apply Hr. apply Hall. left.
Qed.

Lemma max_rank_bound n : is_Some (nodes !! n) → (rank n ≤ max_rank rank nodes)%nat.
Proof.
  intros [nd Hn]. unfold max_rank. apply max_list_elem_of_le.
  apply (list_elem_of_fmap_2' _ _ (n, nd)); [|done].
  by apply elem_of_map_to_list.
Qed.
End active_rule.

Section active_rule_sound.
Import IndependenceChecker.
Variable nodes : gmap Z BayesNode.
Hypothesis Hwf : wf_network nodes.
Variable E : list Z.

(** The same answers without a rank: whatever the calls return is right,
    on every well-formed network. *)
Lemma any_m_sound {A : Type} (f : A → result bool) (P : A → Prop) (l : list A)
    (r : bool) :
  any_m f l = Ok r →
  (∀ x rx, x ∈ l → f x = Ok rx → (rx = true ↔ P x)) →
  (r = true ↔ ∃ x, x ∈ l ∧ P x).
Proof.
  revert r. induction l as [|x l IH]; intros r Hrun Hf; simpl in Hrun.
  - injection Hrun as <-. split; [done|]. by intros (x & ?%elem_of_nil & _).
  - destruct (f x) as [rx| |] eqn:Hx; simpl in Hrun; try done.
    pose proof (Hf x rx (list_elem_of_here _ _) Hx) as Hrx.
    destruct rx.
    + injection Hrun as <-. split; [|done].
      intros _. exists x. split; [left|by apply Hrx].
    + rewrite (IH r Hrun); [|intros y ry Hy; apply Hf; by right]. split.
      * intros (y & Hy & HP). exists y. split; [by right|done].
      * intros (y & [->|Hy]%elem_of_cons & HP); [|by exists y].
        apply Hrx in HP. done.
Qed.

Lemma evidence_below n nd :
  nodes !! n = Some nd →
  (∃ cl : Z * Z, cl ∈ children nd
                 ∧ (cl.1 ∈ E ∨ ∃ d, descendant nodes cl.1 d ∧ d ∈ E))
  ↔ ∃ d, descendant nodes n d ∧ d ∈ E.
Proof.
  intros Hn. split.
  - intros (cl & Hcl & Hc).
    assert (Hedge : edge nodes n cl.1).
    { exists nd. split; [done|]. by apply list_elem_of_fmap_2. }
    destruct Hc as [Hc|(d & Hd & HdE)].
    + exists cl.1. split; [by apply descendant_child|done].
    + exists d. split; [by eapply descendant_step|done].
  - intros (d & Hd & HdE).
    inversion Hd as [? ? Hedge|? c ? Hedge Hcd]; subst.
    + destruct Hedge as (nd' & Hn' & Hc).
      assert (nd' = nd) as -> by congruence.
      apply list_elem_of_fmap in Hc as (cl & -> & Hcl).
      exists cl. split; [done|]. by left.
    + destruct Hedge as (nd' & Hn' & Hc).
      assert (nd' = nd) as -> by congruence.
      apply list_elem_of_fmap in Hc as (cl & -> & Hcl).
      exists cl. split; [done|]. right. by exists d.
Qed.

Lemma hasEvidence_sound fuel :
  ∀ n r, hasEvidence fuel nodes n E = Ok r →
    (r = true ↔ n ∈ E ∨ ∃ d, descendant nodes n d ∧ d ∈ E).
Proof.
  induction fuel as [|fuel IH]; intros n r Hrun; [done|]. simpl in Hrun.
  case_bool_decide as HnE.
  { injection Hrun as <-. split; [by left|done]. }
  unfold node_at in Hrun. destruct (nodes !! n) as [nd|] eqn:Hn; [|done].
  simpl in Hrun.
  rewrite (any_m_sound _
             (λ cl : Z * Z, cl.1 ∈ E ∨ ∃ d, descendant nodes cl.1 d ∧ d ∈ E)
             _ _ Hrun).
  - rewrite (evidence_below n nd Hn). split; [by right|]. by intros [?|?].
  - intros cl rx _ Hcl. by apply IH.
Qed.

Lemma isActive_sound fuel x y z r :
  is_Some (nodes !! x) → is_Some (nodes !! y) → is_Some (nodes !! z) →
  isActive fuel nodes x y z E = Ok r →
  (r = true ↔ triple_active nodes E x y z).
Proof.
  intros Hx Hy Hz. unfold isActive, triple_active.
  destruct (isCausalChain_spec nodes Hwf x y z Hx Hy Hz) as (chain & -> & Hchain).
  destruct (isCommonCause_spec nodes Hwf x y z Hx Hy Hz) as (fork & -> & Hfork).
  simpl.
  case_bool_decide as HyE; destruct chain, fork; simpl; intros Hrun;
    try (injection Hrun as <-; intuition congruence);
    apply hasEvidence_sound in Hrun; intuition congruence.
Qed.

Lemma checkPath_sound fuel p :
  ∀ r, (∀ x, x ∈ p → is_Some (nodes !! x)) →
    checkPath fuel nodes p E = Ok r → (r = true ↔ blocked nodes E p).
Proof.
  induction p as [|x p IH]; intros r Hp Hrun.
  - injection Hrun as <-. split; [done|].
    intros Hb. by apply blocked_short in Hb; [|simpl; lia].
  - destruct p as [|y [|z rest]].
    + injection Hrun as <-. split; [done|].
      intros Hb. by apply blocked_short in Hb; [|simpl; lia].
    + injection Hrun as <-. split; [done|].
      intros Hb. by apply blocked_short in Hb; [|simpl; lia].
    + change (checkPath fuel nodes (x :: y :: z :: rest) E)
        with (active ← isActive fuel nodes x y z E;
              if (active : bool)
              then checkPath fuel nodes (y :: z :: rest) E else Ok true) in Hrun.
      destruct (isActive fuel nodes x y z E) as [act| |] eqn:Hact;
        cbn [mbind result_bind] in Hrun; try done.
      apply isActive_sound in Hact;
        [|apply Hp; set_solver|apply Hp; set_solver|apply Hp; set_solver].
      rewrite blocked_cons. destruct act.
      * rewrite (IH r); [|intros w Hw; apply Hp; by right|done]. intuition.
      * injection Hrun as <-. split; [|done]. intros _. left.
        intros Ha. apply Hact in Ha. done.
Qed.

Lemma checkPaths_sound fuel ps :
  ∀ r, (∀ p, p ∈ ps → ∀ x, x ∈ p → is_Some (nodes !! x)) →
    checkPaths fuel nodes ps E = Ok r →
    (r = true ↔ ∀ p, p ∈ ps → blocked nodes E p).
Proof.
  induction ps as [|p ps IH]; intros r Hps Hrun; simpl in Hrun.
  - injection Hrun as <-. split; [|done]. by intros _ p ?%elem_of_nil.
  - destruct (checkPath fuel nodes p E) as [rp| |] eqn:Hp; simpl in Hrun;
      try done.
    apply checkPath_sound in Hp; [|apply Hps; left].
    destruct rp.
    + rewrite (IH r); [|intros q Hq; apply Hps; by right|done]. split.
      * intros Hall q [->|Hq]%elem_of_cons; [by apply Hp|by apply Hall].
      * intros Hall q Hq. apply Hall. by right.
    + injection Hrun as <-. split; [done|].
      intros Hall. apply Hp. apply Hall. left.
Qed.
End active_rule_sound.

(** C1, amended: on every well-formed network, with or without a directed
    cycle, whenever [checkIndependence(a, b, E)] returns, it returns true
    exactly when every path returned by [getPaths(a, b)] is blocked, that
    is, has a middle triple that is not active under the active-path
    rule; and on a network without a directed cycle it does return, given
    enough fuel. *)
Theorem checkIndependence_iff_all_paths_blocked (nodes : gmap Z BayesNode)
    (a b : Z) (E : list Z) :
  wf_network nodes → is_Some (nodes !! a) →
  (∀ fuel r,
     IndependenceChecker.checkIndependence fuel nodes a b E = Ok r →
     ∃ paths,
       IndependenceChecker.getPaths fuel nodes a b = Ok paths
       ∧ (r = true ↔ ∀ p, p ∈ paths → blocked nodes E p))
  ∧ (acyclic nodes →
     ∃ fuel0, ∀ fuel, (fuel0 ≤ fuel)%nat →
       ∃ paths r,
         IndependenceChecker.getPaths fuel nodes a b = Ok paths
         ∧ IndependenceChecker.checkIndependence fuel nodes a b E = Ok r
         ∧ (r = true ↔ ∀ p, p ∈ paths → blocked nodes E p)).
Proof.
  intros Hwf Ha. split.
  - intros fuel r Hrun. unfold IndependenceChecker.checkIndependence in Hrun.
    destruct (IndependenceChecker.getPaths fuel nodes a b) as [ps| |] eqn:Hps;
      simpl in Hrun; try done.
    exists ps. split; [done|].
    apply (checkPaths_sound nodes Hwf E fuel ps r); [|done].
    intros p Hp x Hx.
    assert (Hok : Forall (path_ok nodes a b) ps).
    { unfold IndependenceChecker.getPaths in Hps.
      eapply (getPaths_loop_sound nodes Hwf a b fuel [(a, [a])] ∅ []);
        [|done|exact Hps].
      apply Forall_singleton. by apply entry_ok_start. }
    rewrite list.Forall_forall in Hok. destruct (Hok p Hp) as [_ Hlive].
    by apply Hlive.
  - intros [rank Hrank].
    exists (paths_fuel nodes + S (max_rank rank nodes))%nat.
    intros fuel Hfuel.
    destruct (getPaths_returns nodes Hwf a b fuel Ha) as (ps & Hps & Hok); [lia|].
    destruct (checkPaths_spec nodes Hwf rank Hrank E fuel ps) as (r & Hr & Hspec).
    { intros p Hp x Hx. rewrite list.Forall_forall in Hok.
      destruct (Hok p Hp) as [_ Hlive]. split; [by apply Hlive|].
      pose proof (max_rank_bound nodes rank x (Hlive x Hx)). lia. }
    exists ps, r. split; [done|]. split; [|done].
    unfold IndependenceChecker.checkIndependence. by rewrite Hps.
Qed.

Lemma checkIndependence_iff_all_paths_blocked_witness :
  (∀ fuel r,
     IndependenceChecker.checkIndependence fuel kite 1 2 [3] = Ok r →
     ∃ paths,
       IndependenceChecker.getPaths fuel kite 1 2 = Ok paths
       ∧ (r = true ↔ ∀ p, p ∈ paths → blocked kite [3] p))
  ∧ ∃ fuel0, ∀ fuel, (fuel0 ≤ fuel)%nat →
      ∃ paths r,
        IndependenceChecker.getPaths fuel kite 1 2 = Ok paths
        ∧ IndependenceChecker.checkIndependence fuel kite 1 2 [3] = Ok r
        ∧ (r = true ↔ ∀ p, p ∈ paths → blocked kite [3] p).
Proof.
  destruct (checkIndependence_iff_all_paths_blocked kite 1 2 [3]) as [Hsound Hreturns].
  - decide_by_computation.
  - by eexists.
  - split; [exact Hsound|]. apply Hreturns.
    exists kite_rank. decide_by_computation.
Defined.

Section collider_loop_facts.
Import IndependenceChecker.

Lemma collider_loop_wf : wf_network collider_loop.
Proof. decide_by_computation. Qed.

Lemma collider_loop_hasEvidence fuel :
  ∀ n, n = 3 ∨ n = 4 → hasEvidence fuel collider_loop n [] = OutOfFuel.
Proof.
  induction fuel as [|fuel IH]; intros n Hn; [done|].
  destruct Hn as [-> | ->].
  - change (hasEvidence (S fuel) collider_loop 3 [])
      with (r ← hasEvidence fuel collider_loop 4 [];
            if (r : bool) then Ok true else Ok false).
    rewrite IH; [done|by right].
  - change (hasEvidence (S fuel) collider_loop 4 [])
      with (r ← hasEvidence fuel collider_loop 3 [];
            if (r : bool) then Ok true else Ok false).
    rewrite IH; [done|by left].
Qed.

Lemma collider_loop_paths fuel :
  getPaths fuel collider_loop 1 2 = OutOfFuel
  ∨ getPaths fuel collider_loop 1 2 = Ok [[1; 3; 2]].
Proof.
  destruct fuel as [|[|[|[|[|[|fuel]]]]]];
    [left; reflexivity ..| right; vm_compute; reflexivity
     | right; vm_compute; reflexivity].
Qed.

Lemma collider_loop_blocked : blocked collider_loop [] [1; 3; 2].
Proof.
  exists [], 1, 3, 2, []. split; [done|].
  intros [[Hcc _]|[_ [Hin|(d & _ & Hin)]]].
  - destruct Hcc
      as [[[_ (nd & Hnd & Hc)]|[_ (nd & Hnd & Hc)]]|[(nd & Hnd & Hc) _]];
      vm_compute in Hnd; injection Hnd as <-; simpl in Hc;
      apply list_elem_of_singleton in Hc; done.
  - by apply elem_of_nil in Hin.
  - by apply elem_of_nil in Hin.
Qed.
End collider_loop_facts.

(** C1, the claim as written fails on a network with a directed cycle: on
    the well-formed network 1 → 3, 2 → 3, 3 → 4, 4 → 3 the only path that
    [getPaths(1, 2)] returns is 1, 3, 2, and with no evidence it is
    blocked (3 is a collider and nothing is observed); yet
    [checkIndependence(1, 2, [])] does not return true: it never returns,
    [hasEvidence] following the cycle 3 → 4 → 3 without end. *)
Theorem checkIndependence_cycle_no_answer :
  wf_network collider_loop
  ∧ IndependenceChecker.getPaths 10 collider_loop 1 2 = Ok [[1; 3; 2]]
  ∧ blocked collider_loop [] [1; 3; 2]
  ∧ ∀ fuel,
      IndependenceChecker.checkIndependence fuel collider_loop 1 2 [] = OutOfFuel.
Proof.
  split; [apply collider_loop_wf|]. split; [vm_compute; reflexivity|].
  split; [apply collider_loop_blocked|].
  intros fuel. unfold IndependenceChecker.checkIndependence.
  destruct (collider_loop_paths fuel) as [-> | ->]; [done|].
  cbn [mbind result_bind].
  change (IndependenceChecker.checkPaths fuel collider_loop [[1; 3; 2]] [])
    with (blocked ← (active ← IndependenceChecker.hasEvidence fuel collider_loop 3 [];
                     if (active : bool) then Ok false else Ok true);
          if (blocked : bool) then Ok true else Ok false).
  rewrite collider_loop_hasEvidence; [done|by left].
Qed.

(** On a graph with a directed cycle [hasEvidence] has no answer when no
    node of the cycle is observed: the recursion never ends. *)
Lemma hasEvidence_cycle_no_answer fuel :
  ∀ n, n = 1 ∨ n = 2 →
    IndependenceChecker.hasEvidence fuel loop_store n [] = OutOfFuel.
Proof.
  induction fuel as [|fuel IH]; intros n Hn; [done|].
  destruct Hn as [-> | ->].
  - change (IndependenceChecker.hasEvidence (S fuel) loop_store 1 [])
      with (r ← IndependenceChecker.hasEvidence fuel loop_store 2 [];
            if (r : bool) then Ok true else Ok false).
    rewrite IH; [done|by right].
  - change (IndependenceChecker.hasEvidence (S fuel) loop_store 2 [])
      with (r ← IndependenceChecker.hasEvidence fuel loop_store 1 [];
            if (r : bool) then Ok true else Ok false).
    rewrite IH; [done|by left].
Qed.

(** * BayesNode: links *)

Lemma filter_fst_ne_elem_of (node m : Z) (links : list (Z * Z)) :
  m ∈ (filter (λ cl : Z * Z, cl.1 ≠ node) links).*1 ↔ m ∈ links.*1 ∧ m ≠ node.
Proof.
  rewrite !list_elem_of_fmap. split.
  - intros (cl & -> & [Hne Hcl]%list_elem_of_filter). split; [by exists cl|done].
  - intros [(cl & -> & Hcl) Hne]. exists cl. split; [done|].
    by apply list_elem_of_filter.
Qed.

Lemma filter_fst_ne_id (node : Z) (links : list (Z * Z)) :
  node ∉ links.*1 → filter (λ cl : Z * Z, cl.1 ≠ node) links = links.
Proof.
  induction links as [|cl links IH]; [done|]. intros Hnot.
  rewrite fmap_cons, not_elem_of_cons in Hnot. destruct Hnot as [Hne Hnot].
  rewrite filter_cons_True by (simpl; congruence). by rewrite IH.
Qed.

Lemma filter_fst_ne_idemp (node : Z) (links : list (Z * Z)) :
  filter (λ cl : Z * Z, cl.1 ≠ node) (filter (λ cl : Z * Z, cl.1 ≠ node) links)
  = filter (λ cl : Z * Z, cl.1 ≠ node) links.
Proof.
  apply filter_fst_ne_id. rewrite filter_fst_ne_elem_of. by intros [_ ?].
Qed.

(** X1: [removeChild] takes away every record of the given child and nothing
    else: the other children stay, in their order; doing it twice is doing
    it once; and removing a node that is no child changes nothing. *)
Theorem removeChild_removes_only_that_child (self : BayesNode) (node : Z) :
  (∀ m, isChild (removeChild self node) m = isChild self m && bool_decide (m ≠ node))
  ∧ children (removeChild self node) `sublist_of` children self
  ∧ removeChild (removeChild self node) node = removeChild self node
  ∧ (isChild self node = false → removeChild self node = self)
  ∧ parents (removeChild self node) = parents self
  ∧ name (removeChild self node) = name self
  ∧ prob (removeChild self node) = prob self.
Proof.
  repeat split.
  - intros m. unfold isChild, removeChild; simpl.
    rewrite <- bool_decide_and. apply bool_decide_ext, filter_fst_ne_elem_of.
  - apply sublist_filter.
  - unfold removeChild, set_children; simpl. by rewrite filter_fst_ne_idemp.
  - intros Hnot. apply bool_decide_eq_false in Hnot.
    unfold removeChild, set_children. rewrite filter_fst_ne_id by done.
    by destruct self.
Qed.

(** X2: [removeParent] takes away every record of the given parent and
    nothing else: [isParent] afterwards is the old answer except for that
    node, the other parents keep their order, the rest of the node is
    untouched, and a second removal changes nothing. *)
Theorem removeParent_removes_only_that_parent (self : BayesNode) (node : Z) :
  (∀ m, isParent (removeParent self node) m = isParent self m && bool_decide (m ≠ node))
  ∧ parents (removeParent self node) `sublist_of` parents self
  ∧ removeParent (removeParent self node) node = removeParent self node
  ∧ (isParent self node = false → removeParent self node = self)
  ∧ children (removeParent self node) = children self
  ∧ name (removeParent self node) = name self
  ∧ prob (removeParent self node) = prob self.
Proof.
  repeat split.
  - intros m. unfold isParent, removeParent; simpl.
    rewrite <- bool_decide_and. apply bool_decide_ext, filter_fst_ne_elem_of.
  - apply sublist_filter.
  - unfold removeParent, set_parents; simpl. by rewrite filter_fst_ne_idemp.
  - intros Hnot. apply bool_decide_eq_false in Hnot.
    unfold removeParent, set_parents. rewrite filter_fst_ne_id by done.
    by destruct self.
Qed.

Lemma addChild_true (self : BayesNode) (node line : Z) :
  (addChild self node line).1 = true →
  node ≠ name self ∧ (node ∉ (children self).*1)
  ∧ (addChild self node line).2
    = set_children self (children self ++ [(node, line)]).
Proof.
  unfold addChild. case_bool_decide as Hself; [done|].
  destruct (recorded node (children self)) eqn:Hrec; [done|].
  intros _. split; [done|]. split; [|done].
  intros Hin%recorded_elem_of. congruence.
Qed.

(** X3: A child that [addChild] accepted is reported by [isChild], a second
    [addChild] of it is refused, and [removeChild] brings the node back to
    what it was before. *)
Theorem addChild_then_removeChild (self : BayesNode) (node line line' : Z) :
  (addChild self node line).1 = true →
  isChild (addChild self node line).2 node = true
  ∧ addChild (addChild self node line).2 node line'
    = (false, (addChild self node line).2)
  ∧ removeChild (addChild self node line).2 node = self.
Proof.
  intros (Hself & Hnew & ->)%addChild_true.
  assert (Hin : node ∈ (children self ++ [(node, line)]).*1).
  { rewrite fmap_app. apply elem_of_app. right. by apply list_elem_of_singleton. }
  split; [by apply bool_decide_eq_true|]. split.
  - unfold addChild; simpl. rewrite bool_decide_eq_false_2 by done.
    by rewrite (proj2 (recorded_elem_of _ _) Hin).
  - unfold removeChild, set_children; simpl.
    rewrite filter_app, filter_fst_ne_id by done.
    rewrite filter_cons_False by (simpl; intros ?; congruence).
    rewrite filter_nil, app_nil_r. by destruct self.
Qed.

Lemma addChild_then_removeChild_witness :
  isChild (addChild lone 2 7).2 2 = true
  ∧ addChild (addChild lone 2 7).2 2 8 = (false, (addChild lone 2 7).2)
  ∧ removeChild (addChild lone 2 7).2 2 = lone.
Proof. apply addChild_then_removeChild. reflexivity. Defined.

(** X4: [addChild] keeps the children list free of repeated children and of
    the node itself, whatever the candidate is. *)
Theorem addChild_keeps_children_distinct (self : BayesNode) (node line : Z) :
  NoDup (children self).*1 → name self ∉ (children self).*1 →
  NoDup (children (addChild self node line).2).*1
  ∧ name (addChild self node line).2 ∉ (children (addChild self node line).2).*1.
Proof.
  intros Hnd Hself.
  destruct (addChild self node line).1 eqn:Hok.
  - apply addChild_true in Hok as (Hne & Hnew & ->). simpl.
    rewrite fmap_app. simpl. split.
    + apply NoDup_app. split; [done|]. split; [|apply NoDup_singleton].
      by intros x Hx ->%list_elem_of_singleton.
    + intros [?|?%list_elem_of_singleton]%elem_of_app; [done|congruence].
  - unfold addChild in *. case_bool_decide; [done|].
    by destruct (recorded node (children self)).
Qed.

Lemma addChild_keeps_children_distinct_witness :
  NoDup (children (addChild flip_parent 3 9).2).*1
  ∧ name (addChild flip_parent 3 9).2 ∉ (children (addChild flip_parent 3 9).2).*1.
Proof.
  apply addChild_keeps_children_distinct;
    apply (bool_decide_unpack _); vm_compute; exact I.
Defined.

(** * BayesNode: the probability table *)

Lemma testbit_add_pow2_low (e : Z) (b : bool) (k i : nat) :
  (i < k)%nat →
  Z.testbit (e + Z.b2z b * 2 ^ Z.of_nat k) (Z.of_nat i) = Z.testbit e (Z.of_nat i).
Proof.
  intros Hi.
  rewrite <- (Z.mod_pow2_bits_low (e + _) (Z.of_nat k)) by lia.
  rewrite Z.mod_add by (apply Z.pow_nonzero; lia).
  by rewrite Z.mod_pow2_bits_low by lia.
Qed.

Lemma testbit_add_pow2_top (e : Z) (b : bool) (k : nat) :
  0 ≤ e < 2 ^ Z.of_nat k →
  Z.testbit (e + Z.b2z b * 2 ^ Z.of_nat k) (Z.of_nat k) = b.
Proof.
  intros He.
  replace (Z.of_nat k) with (0 + Z.of_nat k) at 2 by lia.
  rewrite <- Z.div_pow2_bits by lia.
  rewrite Z.div_add by (apply Z.pow_nonzero; lia).
  rewrite Z.div_small by done. by destruct b.
Qed.

(** The loop of [getProbability], started after [k] parents. *)
Lemma parentIndex_fold (evidence : list Z) (ps : list (Z * Z)) :
  ∀ (evalue : Z) (k : nat),
    0 ≤ evalue < 2 ^ Z.of_nat k →
    let acc :=
      foldl (λ (acc : Z * Z) (pl : Z * Z),
               ((if bool_decide (pl.1 ∈ evidence) then acc.1 + acc.2 else acc.1),
                acc.2 * 2))
            (evalue, 2 ^ Z.of_nat k) ps in
    acc.2 = 2 ^ Z.of_nat (k + length ps)
    ∧ 0 ≤ acc.1 < acc.2
    ∧ (∀ i, (i < k)%nat → Z.testbit acc.1 (Z.of_nat i) = Z.testbit evalue (Z.of_nat i))
    ∧ (∀ i p, ps.*1 !! i = Some p →
         Z.testbit acc.1 (Z.of_nat (k + i)) = bool_decide (p ∈ evidence)).
Proof.
  induction ps as [|pl ps IH]; intros evalue k Hev; simpl.
  - rewrite Nat.add_0_r. split; [done|]. split; [done|]. split; [done|].
    intros i p Hp. done.
  - assert (Hpow : 2 ^ Z.of_nat k * 2 = 2 ^ Z.of_nat (S k)).
    { rewrite Nat2Z.inj_succ, Z.pow_succ_r by lia. lia. }
    rewrite Hpow.
    assert (Hstep : (if bool_decide (pl.1 ∈ evidence)
                     then evalue + 2 ^ Z.of_nat k else evalue)
                    = evalue + Z.b2z (bool_decide (pl.1 ∈ evidence)) * 2 ^ Z.of_nat k).
    { destruct (bool_decide (pl.1 ∈ evidence)); simpl; lia. }
    rewrite Hstep.
    set (b := bool_decide (pl.1 ∈ evidence)).
    assert (Hev' : 0 ≤ evalue + Z.b2z b * 2 ^ Z.of_nat k < 2 ^ Z.of_nat (S k)).
    { rewrite <- Hpow. destruct b; simpl; lia. }
    destruct (IH _ (S k) Hev') as (Hidx & Hbound & Hlow & Hbits).
    split; [by rewrite Hidx, Nat.add_succ_comm|].
    split; [done|]. split.
    + intros i Hi. rewrite Hlow by lia. by apply testbit_add_pow2_low.
    + intros [|i] p Hp; simpl in Hp.
      * injection Hp as <-. rewrite Nat.add_0_r, Hlow by lia.
        by apply testbit_add_pow2_top.
      * rewrite <- Nat.add_succ_comm. by apply Hbits.
Qed.

(** X5: [getProbability] reads the table at the bitmask of the parents: the
    index lies in [[0, 2^|parents|)], and its bit [i] is set exactly when
    the [i]-th parent, in insertion order, is in the evidence. *)
Theorem parentIndex_is_parent_bitmask (self : BayesNode) (evidence : list Z) :
  0 ≤ (parentIndex self evidence).1 < 2 ^ Z.of_nat (length (parents self))
  ∧ (parentIndex self evidence).2 = 2 ^ Z.of_nat (length (parents self))
  ∧ ∀ i p, (parents self).*1 !! i = Some p →
      Z.testbit (parentIndex self evidence).1 (Z.of_nat i)
      = bool_decide (p ∈ evidence).
Proof.
  destruct (parentIndex_fold evidence (parents self) 0 0) as (Hidx & Hb & _ & Hbits);
    [simpl; lia|].
  change (foldl _ (0, 2 ^ Z.of_nat 0) (parents self))
    with (parentIndex self evidence) in *.
  simpl in Hidx. rewrite Hidx in Hb. split; [done|]. split; [done|].
  intros i p Hp. by apply (Hbits i p).
Qed.

(** X6: [getProbability] depends on the evidence only through which parents
    are in it. *)
Theorem getProbability_reads_parents_only (self : BayesNode) (ev1 ev2 : list Z) :
  (∀ p, p ∈ (parents self).*1 → p ∈ ev1 ↔ p ∈ ev2) →
  getProbability self ev1 = getProbability self ev2.
Proof.
  intros Hsame. unfold getProbability, parentIndex.
  assert (Hfold : ∀ ps acc,
            (∀ p, p ∈ ps.*1 → p ∈ ev1 ↔ p ∈ ev2) →
            foldl (λ (acc : Z * Z) (pl : Z * Z),
                     ((if bool_decide (pl.1 ∈ ev1) then acc.1 + acc.2 else acc.1),
                      acc.2 * 2)) acc ps
            = foldl (λ (acc : Z * Z) (pl : Z * Z),
                       ((if bool_decide (pl.1 ∈ ev2) then acc.1 + acc.2 else acc.1),
                        acc.2 * 2)) acc ps).
  { induction ps as [|pl ps IH]; intros acc Hps; [done|]. simpl.
    rewrite (bool_decide_ext (pl.1 ∈ ev1) (pl.1 ∈ ev2)) by (apply Hps; left).
    apply IH. intros p Hp. apply Hps. by right. }
  by rewrite (Hfold _ _ Hsame).
Qed.

Lemma getProbability_reads_parents_only_witness :
  getProbability flip_child [1] = getProbability flip_child [1; 2; 5].
Proof.
  apply getProbability_reads_parents_only.
  intros p Hp. apply list_elem_of_singleton in Hp as ->.
  split; intros _; [left|left].
Defined.

Lemma unit_interval_half : unit_interval (1 / 2)%Qc.
Proof. split; by vm_compute. Qed.

Lemma unit_interval_complement p : unit_interval p → unit_interval (1 - p)%Qc.
Proof.
  intros [H0 H1]. split.
  - by apply Qcle_minus_iff in H1.
  - apply Qcle_minus_iff. by replace (1 + - (1 - p))%Qc with p by ring.
Qed.

Lemma unit_interval_mult p q :
  unit_interval p → unit_interval q → unit_interval (p * q)%Qc.
Proof.
  intros [Hp0 Hp1] [Hq0 Hq1]. split.
  - by apply Qcmult_nonneg_nonneg.
  - etrans; [apply Qcmult_le_mono_nonneg_r; [done|exact Hp1]|].
    by rewrite Qcmult_1_l.
Qed.

Lemma unit_interval_product l : Forall unit_interval l → unit_interval (product l).
Proof.
  induction 1 as [|p l Hp _ IH]; unfold product; simpl.
  - split; by vm_compute.
  - by apply unit_interval_mult.
Qed.

Lemma getProbability_unit_interval nd evidence :
  valid_table nd → unit_interval (getProbability nd evidence).
Proof.
  intros Hvalid. unfold getProbability.
  destruct (prob nd !! _) as [p|] eqn:Hp; [|apply unit_interval_half].
  by apply (Hvalid _ _ Hp).
Qed.

Lemma flip_factor_unit_interval nd values :
  valid_table nd → unit_interval (flip_factor nd values).
Proof.
  intros Hvalid. unfold flip_factor. case_bool_decide.
  - by apply unit_interval_complement, getProbability_unit_interval.
  - by apply getProbability_unit_interval.
Qed.

(** X7: When the tables of a node and of its children hold probabilities,
    [computeProbability] returns a number between 0 and 1, so the Gibbs
    step can use it as the chance of a toggle. *)
Theorem computeProbability_is_a_probability (nodes : gmap Z BayesNode)
    (n : BayesNode) (values : list Z) (cs : list BayesNode) :
  child_nodes nodes n = Some cs →
  valid_table n → Forall valid_table cs →
  ∃ p, computeProbability nodes n values = Ok p ∧ unit_interval p.
Proof.
  intros Hcs Hn Hchildren. unfold computeProbability.
  rewrite (computeProbability_fold nodes values cs _ _ Hcs).
  eexists. split; [reflexivity|].
  apply unit_interval_mult.
  - by apply (flip_factor_unit_interval n values).
  - apply unit_interval_product. apply Forall_fmap.
    eapply Forall_impl; [exact Hchildren|].
    intros c Hc. by apply flip_factor_unit_interval.
Qed.

Lemma computeProbability_is_a_probability_witness :
  ∃ p, computeProbability flip_store flip_parent [1] = Ok p ∧ unit_interval p.
Proof.
  apply (computeProbability_is_a_probability flip_store flip_parent [1] [flip_child]).
  - reflexivity.
  - apply map_Forall_empty.
  - apply Forall_singleton. apply map_Forall_singleton. split; by vm_compute.
Defined.

(** * Sampler.matches *)

(** X8: [matches] is true exactly when every positive literal is in the sample
    and the magnitude of every other literal is not; the literal 0 counts
    as "0 is absent". *)
Theorem matches_iff_every_literal_holds (sample values : list Z) :
  Sampler.matches sample values = true
  ↔ ∀ v, v ∈ values → (v > 0 → v ∈ sample) ∧ (v ≤ 0 → - v ∉ sample).
Proof.
  induction values as [|v values IH]; simpl.
  - split; [|done]. intros _ v Hv. by apply elem_of_nil in Hv.
  - case_bool_decide as Hpos.
    + case_bool_decide as Hin.
      * split; [done|]. intros Hall.
        destruct (Hall v) as [Hp _]; [left|]. by specialize (Hp Hpos).
      * rewrite IH. split.
        -- intros Hall w [->|Hw]%elem_of_cons; [|by apply Hall].
           split; [done|lia].
        -- intros Hall w Hw. apply Hall. by right.
    + case_bool_decide as Hin.
      * split; [done|]. intros Hall.
        destruct (Hall v) as [_ Hn]; [left|].
        exfalso. apply Hn; [lia|done].
      * rewrite IH. split.
        -- intros Hall w [->|Hw]%elem_of_cons; [|by apply Hall].
           split; [lia|done].
        -- intros Hall w Hw. apply Hall. by right.
Qed.

Lemma matches_literal (sample values : list Z) (v : Z) :
  Sampler.matches sample values = true → v ∈ values →
  (v > 0 → v ∈ sample) ∧ (v ≤ 0 → - v ∉ sample).
Proof.
  induction values as [|w values IH]; simpl; intros Hm Hv.
  - by apply elem_of_nil in Hv.
  - apply elem_of_cons in Hv as [->|Hv].
    + case_bool_decide as Hpos.
      * case_bool_decide as Hin; [done|]. split; [done|lia].
      * case_bool_decide as Hin; [done|]. split; [lia|done].
    + apply IH; [|done].
      case_bool_decide; case_bool_decide; done.
Qed.

(** X9: A set of literals that holds an identifier with both signs matches no
    sample. *)
Theorem matches_never_contradictory (sample values : list Z) (v : Z) :
  v > 0 → v ∈ values → - v ∈ values → Sampler.matches sample values = false.
Proof.
  intros Hpos Hv Hneg.
  destruct (Sampler.matches sample values) eqn:Hm; [|done].
  destruct (matches_literal _ _ _ Hm Hv) as [Hin _].
  destruct (matches_literal _ _ _ Hm Hneg) as [_ Hout].
  exfalso. apply Hout; [lia|]. rewrite Z.opp_involutive. by apply Hin.
Qed.

Lemma matches_never_contradictory_witness :
  Sampler.matches [1; 2; 3] [2; -3; 3] = false.
Proof.
  apply (matches_never_contradictory [1; 2; 3] [2; -3; 3] 3).
  - lia.
  - apply (bool_decide_unpack _). vm_compute. exact I.
  - apply (bool_decide_unpack _). vm_compute. exact I.
Defined.

(** * Sampler.run: the trace *)








(** * Sampler.getReadyNodes *)

Lemma parents_sampled_true sampled ps :
  parents_sampled sampled ps = true ↔ ∀ p, p ∈ ps.*1 → p ∈ sampled.
Proof.
  induction ps as [|pl ps IH]; simpl.
  - split; [|done]. by intros _ p ?%elem_of_nil.
  - destruct (decide (pl.1 ∈ sampled)) as [Hin|Hout].
    + rewrite bool_decide_eq_false_2 by (by intros ?). rewrite IH. split.
      * intros Hall p [->|Hp]%elem_of_cons; [done|by apply Hall].
      * intros Hall p Hp. apply Hall. by right.
    + rewrite bool_decide_eq_true_2 by done. split; [done|].
      intros Hall. exfalso. apply Hout, Hall. left.
Qed.

Lemma getReadyNodes_filter nodes sampled :
  getReadyNodes nodes sampled = filter (λ n, ready_now sampled n = true) nodes.
Proof.
  unfold getReadyNodes.
  assert (Hgen : ∀ acc,
            foldl (λ (readyNodes : list BayesNode) (n : BayesNode),
                     if bool_decide (name n ∉ sampled) then
                       if parents_sampled sampled (parents n)
                       then readyNodes ++ [n] else readyNodes
                     else readyNodes) acc nodes
            = acc ++ filter (λ n, ready_now sampled n = true) nodes).
  { induction nodes as [|n nodes IH]; intros acc; simpl.
    - by rewrite app_nil_r.
    - rewrite IH, filter_cons.
      assert (Hr : ready_now sampled n
                   = bool_decide (name n ∉ sampled)
                     && parents_sampled sampled (parents n)) by done.
      destruct (bool_decide (name n ∉ sampled)),
        (parents_sampled sampled (parents n)); simpl in Hr.
      + rewrite decide_True by done. by rewrite <- app_assoc.
      + rewrite decide_False; [done|]. by rewrite Hr.
      + rewrite decide_False; [done|]. by rewrite Hr.
      + rewrite decide_False; [done|]. by rewrite Hr. }
  by rewrite Hgen.
Qed.

Lemma getReadyNodes_elem_of nodes sampled n :
  n ∈ getReadyNodes nodes sampled
  ↔ n ∈ nodes ∧ (name n ∉ sampled) ∧ ∀ p, p ∈ (parents n).*1 → p ∈ sampled.
Proof.
  rewrite getReadyNodes_filter, list_elem_of_filter. unfold ready_now.
  rewrite andb_true_iff, bool_decide_eq_true, parents_sampled_true. tauto.
Qed.

(** X11: [getReadyNodes] returns, in the order of the node list, exactly the
    nodes that are not sampled yet and whose parents are all sampled. *)
Theorem getReadyNodes_unsampled_with_sampled_parents
    (nodes : list BayesNode) (sampled : gset Z) :
  (∀ n, n ∈ getReadyNodes nodes sampled
        ↔ n ∈ nodes ∧ (name n ∉ sampled)
          ∧ ∀ p, p ∈ (parents n).*1 → p ∈ sampled)
  ∧ getReadyNodes nodes sampled `sublist_of` nodes.
Proof.
  split; [intros n; apply getReadyNodes_elem_of|].
  rewrite getReadyNodes_filter. apply sublist_filter.
Qed.

(** * The forward pass of the rejection and likelihood samplers *)

Section forward_pass.
Variable nodes : list BayesNode.

(** Both loops visit the nodes of [sampling_order], in that order. *)
Lemma forward_loop_order fuel :
  ∀ queue sampled values r,
    RejectionSampler.forward_loop fuel nodes queue sampled values r
    = order ← sampling_order fuel nodes queue sampled;
      Ok (foldl forward_visit (values, r) order).
Proof.
  induction fuel as [|fuel IH]; intros queue sampled values r;
    destruct queue as [|node queue]; simpl; try done.
  case_bool_decide as Hnew; [|apply IH].
  destruct (draw node values r) as [d r'] eqn:Hdraw.
  rewrite IH.
  destruct (sampling_order fuel nodes _ _) as [rest| |]; simpl; try done.
Qed.

Lemma likelihood_loop_order evidence fuel :
  ∀ queue sampled acc,
    LikelihoodSampler.likelihood_loop fuel nodes evidence queue sampled acc
    = order ← sampling_order fuel nodes queue sampled;
      Ok (foldl (λ acc node, LikelihoodSampler.visit evidence node acc) acc order).
Proof.
  induction fuel as [|fuel IH]; intros queue sampled acc;
    destruct queue as [|node queue]; simpl; try done.
  case_bool_decide as Hnew; [|apply IH].
  rewrite IH.
  by destruct (sampling_order fuel nodes _ _) as [rest| |].
Qed.

Lemma getReadyNodes_subset sampled n : n ∈ getReadyNodes nodes sampled → n ∈ nodes.
Proof. by intros (? & _)%getReadyNodes_elem_of. Qed.

Lemma getReadyNodes_length sampled :
  (length (getReadyNodes nodes sampled) ≤ length nodes)%nat.
Proof. rewrite getReadyNodes_filter. apply length_filter. Qed.

(** The nodes still to sample. *)
Lemma unsampled_shrinks (sampled : gset Z) node :
  node ∈ nodes → name node ∉ sampled →
  (size (list_to_set (name <$> nodes) ∖ ({[name node]} ∪ sampled) : gset Z)
   < size (list_to_set (name <$> nodes) ∖ sampled : gset Z))%nat.
Proof.
  intros Hnode Hnew. apply subset_size. apply strict_spec_alt. split.
  - set_solver.
  - intros Heq.
    assert (Hin : name node ∈ (list_to_set (name <$> nodes) ∖ sampled : gset Z)).
    { apply elem_of_difference. split; [|done].
      apply elem_of_list_to_set. by apply list_elem_of_fmap_2. }
    rewrite <- Heq in Hin. set_solver.
Qed.

Lemma sampling_order_returns fuel :
  ∀ queue sampled,
    (∀ n, n ∈ queue → n ∈ nodes) →
    (length queue
     + size (list_to_set (name <$> nodes) ∖ sampled : gset Z) * S (length nodes)
     < fuel)%nat →
    ∃ order, sampling_order fuel nodes queue sampled = Ok order.
Proof.
  induction fuel as [|fuel IH]; intros queue sampled Hq Hfuel; [lia|].
  destruct queue as [|node queue]; simpl; [by eexists|].
  case_bool_decide as Hnew.
  - destruct (IH (queue ++ getReadyNodes nodes ({[name node]} ∪ sampled))
                ({[name node]} ∪ sampled)) as [rest ->].
    + intros n [Hn|Hn]%elem_of_app; [apply Hq; by right|].
      by eapply getReadyNodes_subset.
    + pose proof (unsampled_shrinks sampled node) as Hshrink.
      rewrite length_app. simpl in Hfuel.
      pose proof (getReadyNodes_length ({[name node]} ∪ sampled)).
      specialize (Hshrink ltac:(apply Hq; left) Hnew). nia.
    + by eexists.
  - apply IH.
    + intros n Hn. apply Hq. by right.
    + simpl in Hfuel. lia.
Qed.

Lemma sampling_order_shape fuel :
  ∀ queue sampled order,
    (∀ n, n ∈ queue → n ∈ nodes) →
    sampling_order fuel nodes queue sampled = Ok order →
    (∀ n, n ∈ order → n ∈ nodes ∧ name n ∉ sampled) ∧ NoDup (name <$> order).
Proof.
  induction fuel as [|fuel IH]; intros queue sampled order Hq Hrun;
    destruct queue as [|node queue]; simpl in Hrun; try done.
  - injection Hrun as <-. split; [by intros n ?%elem_of_nil|constructor].
  - injection Hrun as <-. split; [by intros n ?%elem_of_nil|constructor].
  - case_bool_decide as Hnew.
    + destruct (sampling_order fuel nodes _ _) as [rest| |] eqn:Hrest;
        simpl in Hrun; try done.
      injection Hrun as <-.
      apply IH in Hrest as [Hin Hnd].
      2:{ intros n [Hn|Hn]%elem_of_app; [apply Hq; by right|].
          by eapply getReadyNodes_subset. }
      split.
      * intros n [->|Hn]%elem_of_cons.
        -- split; [apply Hq; left|done].
        -- destruct (Hin n Hn) as [? Hout]. split; [done|]. set_solver.
      * rewrite fmap_cons. apply NoDup_cons. split; [|done].
        intros (n & Hname & Hn)%list_elem_of_fmap.
        destruct (Hin n Hn) as [_ Hout]. rewrite <- Hname in Hout. set_solver.
    + apply IH in Hrun; [done|]. intros n Hn. apply Hq. by right.
Qed.

Lemma sampling_order_parents_first fuel :
  ∀ queue sampled order,
    (∀ n p, n ∈ queue → p ∈ (parents n).*1 → p ∈ sampled) →
    sampling_order fuel nodes queue sampled = Ok order →
    ∀ pre node post, order = pre ++ node :: post →
      ∀ p, p ∈ (parents node).*1 → p ∈ sampled ∨ p ∈ name <$> pre.
Proof.
  induction fuel as [|fuel IH]; intros queue sampled order Hq Hrun;
    destruct queue as [|node queue]; simpl in Hrun; try done.
  - injection Hrun as <-. intros [|] ? ? [=].
  - injection Hrun as <-. intros [|] ? ? [=].
  - case_bool_decide as Hnew.
    + destruct (sampling_order fuel nodes _ _) as [rest| |] eqn:Hrest;
        simpl in Hrun; try done.
      injection Hrun as <-.
      assert (Hq' : ∀ n p,
                n ∈ queue ++ getReadyNodes nodes ({[name node]} ∪ sampled) →
                p ∈ (parents n).*1 → p ∈ {[name node]} ∪ sampled).
      { intros n p [Hn|Hn]%elem_of_app Hp.
        - apply elem_of_union_r. eapply Hq; [by right|done].
        - apply getReadyNodes_elem_of in Hn as (_ & _ & Hall). by apply Hall. }
      intros pre n post Heq p Hp.
      destruct pre as [|m pre]; simpl in Heq.
      * injection Heq as <- _. left. eapply Hq; [left|done].
      * injection Heq as <- Heq.
        destruct (IH _ _ _ Hq' Hrest pre n post Heq p Hp) as [Hs|Hpre].
        -- apply elem_of_union in Hs as [->%elem_of_singleton|Hs];
             [right; left|by left].
        -- right. rewrite fmap_cons. by right.
    + eapply IH; [|exact Hrun]. intros n p Hn. apply Hq. by right.
Qed.

Lemma ready_now_getReadyNodes (sampled : gset Z) n :
  n ∈ nodes → ready_now sampled n = true → n ∈ getReadyNodes nodes sampled.
Proof.
  intros Hn Hr. apply getReadyNodes_elem_of. unfold ready_now in Hr.
  apply andb_prop in Hr as [Hout Hall].
  apply bool_decide_eq_true in Hout. by rewrite parents_sampled_true in Hall.
Qed.

Lemma getReadyNodes_parents (sampled : gset Z) n p :
  n ∈ getReadyNodes nodes sampled → p ∈ (parents n).*1 → p ∈ sampled.
Proof. intros (_ & _ & Hall)%getReadyNodes_elem_of Hp. by apply Hall. Qed.

Lemma none_ready_all_sampled (rank : Z → nat) (sampled : gset Z) :
  parents_listed nodes → parents_ranked rank nodes →
  (∀ n, n ∈ nodes → ready_now sampled n = false) →
  ∀ n, n ∈ nodes → name n ∈ sampled.
Proof.
  intros Hlisted Hranked Hnone.
  assert (Hk : ∀ k n, (rank (name n) < k)%nat → n ∈ nodes → name n ∈ sampled).
  { induction k as [|k IH]; intros n Hlt Hn; [lia|].
    destruct (decide (name n ∈ sampled)) as [|Hout]; [done|].
    specialize (Hnone n Hn). unfold ready_now in Hnone.
    rewrite bool_decide_eq_true_2 in Hnone by done. simpl in Hnone.
    assert (Hall : parents_sampled sampled (parents n) = true).
    { apply parents_sampled_true. intros p Hp.
      destruct (Hlisted n p Hn Hp) as (m & Hm & <-).
      apply IH; [|done]. pose proof (Hranked n _ Hn Hp). lia. }
    congruence. }
  intros n Hn. by apply (Hk (S (rank (name n)))); [lia|].
Qed.

Lemma sampling_order_complete (rank : Z → nat) fuel :
  parents_listed nodes → parents_ranked rank nodes →
  ∀ queue sampled order,
    (∀ n, n ∈ nodes → ready_now sampled n = true → n ∈ queue) →
    sampling_order fuel nodes queue sampled = Ok order →
    ∀ n, n ∈ nodes → name n ∈ sampled ∨ name n ∈ name <$> order.
Proof.
  intros Hlisted Hranked.
  assert (Hdone : ∀ sampled,
            (∀ n, n ∈ nodes → ready_now sampled n = true → n ∈ @nil BayesNode) →
            ∀ n, n ∈ nodes → name n ∈ sampled).
  { intros sampled Hq. apply (none_ready_all_sampled rank); [done|done|].
    intros n Hn. destruct (ready_now sampled n) eqn:Hr; [|done].
    exfalso. by apply (elem_of_nil n), Hq. }
  induction fuel as [|fuel IH]; intros queue sampled order Hq Hrun;
    destruct queue as [|node queue]; simpl in Hrun; try done.
  - intros n Hn. left. by apply Hdone.
  - intros n Hn. left. by apply Hdone.
  - case_bool_decide as Hnew.
    + destruct (sampling_order fuel nodes _ _) as [rest| |] eqn:Hrest;
        simpl in Hrun; try done.
      injection Hrun as <-. intros n Hn.
      assert (Hq' : ∀ n, n ∈ nodes →
                ready_now ({[name node]} ∪ sampled) n = true →
                n ∈ queue ++ getReadyNodes nodes ({[name node]} ∪ sampled)).
      { intros m Hm Hr. apply elem_of_app. right.
        by apply ready_now_getReadyNodes. }
      destruct (IH _ _ _ Hq' Hrest n Hn) as [Hs|Hr].
      * apply elem_of_union in Hs as [->%elem_of_singleton|Hs];
          [right; left|by left].
      * right. rewrite fmap_cons. by right.
    + eapply IH; [|exact Hrun]. intros n Hn Hr.
      pose proof (Hq n Hn Hr) as Hin.
      apply elem_of_cons in Hin as [->|Hin]; [|done].
      exfalso. unfold ready_now in Hr. apply andb_prop in Hr as [Hr _].
      apply bool_decide_eq_true in Hr. by apply Hr.
Qed.

Lemma NoDup_fmap_elem_eq {A B : Type} (f : A → B) (l : list A) x y :
  NoDup (f <$> l) → x ∈ l → y ∈ l → f x = f y → x = y.
Proof.
  induction l as [|z l IH]; intros Hnd Hx Hy Hf; [by apply elem_of_nil in Hx|].
  rewrite fmap_cons in Hnd. apply NoDup_cons in Hnd as [Hz Hnd].
  apply elem_of_cons in Hx as [->|Hx]; apply elem_of_cons in Hy as [->|Hy].
  - done.
  - exfalso. apply Hz. rewrite Hf. by apply list_elem_of_fmap_2.
  - exfalso. apply Hz. rewrite <- Hf. by apply list_elem_of_fmap_2.
  - by apply IH.
Qed.

Lemma size_list_to_set_le (l : list Z) :
  (size (list_to_set l : gset Z) ≤ length l)%nat.
Proof.
  induction l as [|x l IH].
  - change (list_to_set [] : gset Z) with (∅ : gset Z). by rewrite size_empty.
  - rewrite list_to_set_cons, size_union_alt, size_singleton. simpl.
    pose proof (subseteq_size (list_to_set l ∖ {[x]}) (list_to_set l : gset Z)
                  (subseteq_difference_l _ _ _ (reflexivity _))). lia.
Qed.

(** The start of a pass: the order exists, lists nodes once each, and on a
    closed acyclic list it is a rearrangement of the whole list with
    parents first. *)
Lemma sampling_order_start fuel :
  (pass_fuel nodes ≤ fuel)%nat →
  ∃ order,
    sampling_order fuel nodes (getReadyNodes nodes ∅) ∅ = Ok order
    ∧ (∀ n, n ∈ order → n ∈ nodes) ∧ NoDup (name <$> order)
    ∧ parents_first order
    ∧ ∀ rank, parents_listed nodes → parents_ranked rank nodes →
        ∀ n, n ∈ nodes → name n ∈ name <$> order.
Proof.
  intros Hfuel.
  destruct (sampling_order_returns fuel (getReadyNodes nodes ∅) ∅) as [order Horder].
  - apply getReadyNodes_subset.
  - unfold pass_fuel in Hfuel.
    pose proof (getReadyNodes_length ∅).
    assert (size (list_to_set (name <$> nodes) ∖ ∅ : gset Z) ≤ length nodes)%nat.
    { etrans; [apply subseteq_size, subseteq_difference_l; reflexivity|].
      etrans; [apply size_list_to_set_le|]. by rewrite length_fmap. }
    nia.
  - exists order. split; [done|].
    destruct (sampling_order_shape fuel _ _ _ (getReadyNodes_subset ∅) Horder)
      as [Hin Hnd].
    split; [intros n Hn; by apply Hin|]. split; [done|]. split.
    + intros pre node post Heq p Hp.
      destruct (sampling_order_parents_first fuel _ _ _
                  (getReadyNodes_parents ∅) Horder
                  pre node post Heq p Hp) as [Hs|?]; [|done].
      by apply not_elem_of_empty in Hs.
    + intros rank Hlisted Hranked n Hn.
      destruct (sampling_order_complete rank fuel Hlisted Hranked _ _ _
                  (ready_now_getReadyNodes ∅) Horder n Hn) as [Hs|?]; [|done].
      by apply not_elem_of_empty in Hs.
Qed.

Lemma sampling_order_permutation order :
  NoDup (name <$> nodes) →
  (∀ n, n ∈ order → n ∈ nodes) → NoDup (name <$> order) →
  (∀ n, n ∈ nodes → name n ∈ name <$> order) →
  order ≡ₚ nodes.
Proof.
  intros Hnodes Hin Hnd Hall. apply NoDup_Permutation.
  - by eapply NoDup_fmap_1.
  - by eapply NoDup_fmap_1.
  - intros n. split; [apply Hin|]. intros Hn.
    destruct (proj1 (list_elem_of_fmap _ _ _) (Hall n Hn)) as (m & Hname & Hm).
    by rewrite (NoDup_fmap_elem_eq name nodes n m Hnodes Hn (Hin m Hm) Hname).
Qed.
End forward_pass.

Lemma forward_visit_fold order :
  ∀ values r,
    ∃ vs r',
      foldl forward_visit (values, r) order = (values ++ vs, r')
      ∧ vs `sublist_of` (name <$> order)
      ∧ used r' = (used r + length order)%nat.
Proof.
  induction order as [|node order IH]; intros values r; simpl.
  - exists [], r. rewrite app_nil_r. split; [done|]. split; [done|lia].
  - unfold draw, random_random. simpl.
    destruct (IH (if bool_decide (uniform r (used r) < getProbability node values)%Qc
                  then values ++ [name node] else values) (advance r))
      as (vs & r' & -> & Hsub & Hused).
    case_bool_decide.
    + exists (name node :: vs), r'. rewrite <- app_assoc. simpl.
      split; [done|]. split; [by apply sublist_skip|]. simpl in Hused. lia.
    + exists vs, r'. split; [done|]. split; [by apply sublist_cons|].
      simpl in Hused. lia.
Qed.

(** X12: [forwardSample] returns on every list of nodes, also on one with a
    cycle: its weight is 1, its sample names nodes of the list and names
    none twice, and it takes at most one random number per node. *)
Theorem forwardSample_returns_distinct_names (nodes : list BayesNode)
    (fuel : nat) (r : random) :
  (pass_fuel nodes ≤ fuel)%nat →
  ∃ values r',
    RejectionSampler.forwardSample fuel nodes r = Ok ((1%Qc, values), r')
    ∧ NoDup values
    ∧ (∀ v, v ∈ values → ∃ n, n ∈ nodes ∧ name n = v)
    ∧ (used r ≤ used r' ≤ used r + length nodes)%nat.
Proof.
  intros Hfuel.
  destruct (sampling_order_start nodes fuel Hfuel)
    as (order & Horder & Hin & Hnd & _ & _).
  destruct (forward_visit_fold order [] r) as (vs & r' & Hfold & Hsub & Hused).
  exists vs, r'. unfold RejectionSampler.forwardSample.
  rewrite forward_loop_order, Horder. simpl. rewrite Hfold. simpl.
  split; [done|]. split; [by eapply sublist_NoDup|]. split.
  - intros v Hv.
    destruct (proj1 (list_elem_of_fmap _ _ _) (elem_of_sublist _ _ _ Hv Hsub))
      as (n & -> & Hn).
    exists n. split; [by apply Hin|done].
  - pose proof (submseteq_length _ _
                  (NoDup_submseteq order nodes (NoDup_fmap_1 name _ Hnd) Hin)).
    lia.
Qed.

Lemma forwardSample_returns_distinct_names_witness :
  ∃ values r',
    RejectionSampler.forwardSample (pass_fuel loop_nodes) loop_nodes zero_random
    = Ok ((1%Qc, values), r')
    ∧ NoDup values
    ∧ (∀ v, v ∈ values → ∃ n, n ∈ loop_nodes ∧ name n = v)
    ∧ (used zero_random ≤ used r' ≤ used zero_random + length loop_nodes)%nat.
Proof. apply forwardSample_returns_distinct_names. lia. Defined.

(** X13: On a list of nodes with distinct names that holds the parents of its
    nodes and has no directed cycle, [forwardSample] draws every node
    exactly once and each node after all its parents, so the table of a
    node is read with the values of its parents already assigned. *)
Theorem forwardSample_draws_parents_first (nodes : list BayesNode)
    (rank : Z → nat) (fuel : nat) (r : random) :
  NoDup (name <$> nodes) → parents_listed nodes → parents_ranked rank nodes →
  (pass_fuel nodes ≤ fuel)%nat →
  ∃ order,
    order ≡ₚ nodes ∧ parents_first order
    ∧ RejectionSampler.forwardSample fuel nodes r
      = Ok ((1%Qc, (foldl forward_visit ([], r) order).1),
            (foldl forward_visit ([], r) order).2)
    ∧ used (foldl forward_visit ([], r) order).2 = (used r + length nodes)%nat.
Proof.
  intros Hnames Hlisted Hranked Hfuel.
  destruct (sampling_order_start nodes fuel Hfuel)
    as (order & Horder & Hin & Hnd & Hfirst & Hall).
  assert (Hperm : order ≡ₚ nodes).
  { apply sampling_order_permutation; try done. by apply (Hall rank). }
  exists order. split; [done|]. split; [done|]. split.
  - unfold RejectionSampler.forwardSample.
    rewrite forward_loop_order, Horder. simpl.
    by destruct (foldl forward_visit ([], r) order).
  - destruct (forward_visit_fold order [] r) as (vs & r' & Hfold & _ & Hused).
    rewrite Hfold. simpl. by rewrite Hused, Hperm.
Qed.

Lemma pair_nodes_closed_acyclic :
  NoDup (name <$> pair_nodes) ∧ parents_listed pair_nodes
  ∧ parents_ranked pair_rank pair_nodes.
Proof.
  split; [apply (bool_decide_unpack _); vm_compute; exact I|].
  split.
  - intros n p Hn Hp.
    apply elem_of_cons in Hn as [->|Hn]; [by apply elem_of_nil in Hp|].
    apply list_elem_of_singleton in Hn as ->.
    apply list_elem_of_singleton in Hp as ->.
    exists flip_parent. split; [left|done].
  - intros n p Hn Hp.
    apply elem_of_cons in Hn as [->|Hn]; [by apply elem_of_nil in Hp|].
    apply list_elem_of_singleton in Hn as ->.
    apply list_elem_of_singleton in Hp as ->.
    vm_compute. lia.
Qed.

Lemma forwardSample_draws_parents_first_witness :
  ∃ order,
    order ≡ₚ pair_nodes ∧ parents_first order
    ∧ RejectionSampler.forwardSample (pass_fuel pair_nodes) pair_nodes zero_random
      = Ok ((1%Qc, (foldl forward_visit ([], zero_random) order).1),
            (foldl forward_visit ([], zero_random) order).2)
    ∧ used (foldl forward_visit ([], zero_random) order).2
      = (used zero_random + length pair_nodes)%nat.
Proof.
  apply (forwardSample_draws_parents_first pair_nodes pair_rank).
  - apply pair_nodes_closed_acyclic.
  - apply pair_nodes_closed_acyclic.
  - apply pair_nodes_closed_acyclic.
  - lia.
Defined.

(** * LikelihoodSampler *)

Lemma likelihood_visit_fold (evidence : list Z) order :
  ∀ values weight r,
    ∃ vs weight' r',
      foldl (λ acc node, LikelihoodSampler.visit evidence node acc)
        (values, weight, r) order
      = (values ++ vs, weight', r')
      ∧ (∀ n, n ∈ order → name n ∈ evidence → name n ∈ vs)
      ∧ (∀ v, v ∈ vs →
           (∃ n, n ∈ order ∧ name n = v) ∧ (v ∈ evidence ∨ - v ∉ evidence))
      ∧ (Forall valid_table order → unit_interval weight → unit_interval weight').
Proof.
  induction order as [|node order IH]; intros values weight r.
  - exists [], weight, r. simpl. rewrite app_nil_r. split; [done|].
    split; [by intros n ?%elem_of_nil|]. split; [by intros v ?%elem_of_nil|done].
  - cbn [foldl]. unfold LikelihoodSampler.visit at 2.
    destruct (decide (name node ∈ evidence)) as [Hpos|Hpos].
    + rewrite bool_decide_eq_true_2 by done.
      destruct (IH (values ++ [name node])
                  (weight * getProbability node values)%Qc r)
        as (vs & w' & r' & -> & Hforced & Hvs & Hw).
      exists (name node :: vs), w', r'. rewrite <- app_assoc. simpl.
      split; [done|]. split; [|split].
      * intros n [->|Hn]%elem_of_cons Hev; [left|right; by apply Hforced].
      * intros v [->|Hv]%elem_of_cons.
        -- split; [exists node; split; [left|done]|by left].
        -- destruct (Hvs v Hv) as [(n & Hn & Hname) Hside].
           split; [exists n; split; [by right|done]|done].
      * intros [Hnode Horder]%Forall_cons Hweight. apply Hw; [done|].
        apply unit_interval_mult; [done|].
        by apply getProbability_unit_interval.
    + rewrite bool_decide_eq_false_2 by done.
      destruct (decide (- name node ∈ evidence)) as [Hneg|Hneg].
      * rewrite bool_decide_eq_true_2 by done.
        destruct (IH values (weight * (1 - getProbability node values))%Qc r)
          as (vs & w' & r' & -> & Hforced & Hvs & Hw).
        exists vs, w', r'. split; [done|]. split; [|split].
        -- intros n [->|Hn]%elem_of_cons Hev; [done|by apply Hforced].
        -- intros v Hv. destruct (Hvs v Hv) as [(n & Hn & Hname) Hside].
           split; [exists n; split; [by right|done]|done].
        -- intros [Hnode Horder]%Forall_cons Hweight. apply Hw; [done|].
           apply unit_interval_mult; [done|].
           by apply unit_interval_complement, getProbability_unit_interval.
      * rewrite bool_decide_eq_false_2 by done.
        destruct (draw node values r) as [d r1].
        destruct (IH (if d then values ++ [name node] else values) weight r1)
          as (vs & w' & r' & -> & Hforced & Hvs & Hw).
        destruct d.
        -- exists (name node :: vs), w', r'. rewrite <- app_assoc. simpl.
           split; [done|]. split; [|split].
           ++ intros n [->|Hn]%elem_of_cons Hev; [left|right; by apply Hforced].
           ++ intros v [->|Hv]%elem_of_cons.
              ** split; [exists node; split; [left|done]|by right].
              ** destruct (Hvs v Hv) as [(n & Hn & Hname) Hside].
                 split; [exists n; split; [by right|done]|done].
           ++ intros [Hnode Horder]%Forall_cons Hweight. by apply Hw.
        -- exists vs, w', r'. split; [done|]. split; [|split].
           ++ intros n [->|Hn]%elem_of_cons Hev; [done|by apply Hforced].
           ++ intros v Hv. destruct (Hvs v Hv) as [(n & Hn & Hname) Hside].
              split; [exists n; split; [by right|done]|done].
           ++ intros [Hnode Horder]%Forall_cons Hweight. by apply Hw.
Qed.

(** X14: [likelihoodSample] returns on every list of nodes, whatever the
    tables hold; and when the tables hold probabilities the weight it
    returns is a number between 0 and 1. *)
Theorem likelihoodSample_weight_is_a_probability (nodes : list BayesNode)
    (evidence : list Z) (fuel : nat) (r : random) :
  (pass_fuel nodes ≤ fuel)%nat →
  ∃ weight values r',
    LikelihoodSampler.likelihoodSample fuel nodes evidence r
    = Ok ((weight, values), r')
    ∧ (Forall valid_table nodes → unit_interval weight).
Proof.
  intros Hfuel.
  destruct (sampling_order_start nodes fuel Hfuel)
    as (order & Horder & Hin & _ & _ & _).
  destruct (likelihood_visit_fold evidence order [] 1%Qc r)
    as (vs & w' & r' & Hfold & _ & _ & Hw).
  exists w', vs, r'. unfold LikelihoodSampler.likelihoodSample.
  rewrite likelihood_loop_order, Horder. simpl. rewrite Hfold. simpl.
  split; [done|]. intros Hvalid. apply Hw.
  - apply list.Forall_forall. intros n Hn.
    rewrite list.Forall_forall in Hvalid. by apply Hvalid, Hin.
  - split; by vm_compute.
Qed.

Lemma pair_nodes_valid : Forall valid_table pair_nodes.
Proof.
  apply Forall_cons. split; [apply map_Forall_empty|].
  apply Forall_singleton, map_Forall_singleton. split; by vm_compute.
Qed.

Lemma likelihoodSample_weight_is_a_probability_witness :
  ∃ weight values r',
    LikelihoodSampler.likelihoodSample (pass_fuel pair_nodes) pair_nodes [1; -2]
      zero_random
    = Ok ((weight, values), r')
    ∧ unit_interval weight.
Proof.
  destruct (likelihoodSample_weight_is_a_probability pair_nodes [1; -2]
              (pass_fuel pair_nodes) zero_random)
    as (weight & values & r' & Hrun & Hweight); [lia|].
  exists weight, values, r'. split; [exact Hrun|].
  apply Hweight, pair_nodes_valid.
Defined.

(** X15: On a closed acyclic list of nodes with distinct positive names, every
    sample of [likelihoodSample] agrees with the evidence: it holds every
    positive evidence identifier and the magnitude of no negative one, so
    [matches] accepts it.  The evidence names nodes of the list and names
    none with both signs. *)
Theorem likelihoodSample_matches_evidence (nodes : list BayesNode)
    (rank : Z → nat) (evidence : list Z) (fuel : nat) (r : random) :
  NoDup (name <$> nodes) → parents_listed nodes → parents_ranked rank nodes →
  (∀ n, n ∈ nodes → 0 < name n) →
  (∀ e, e ∈ evidence → e > 0 → (∃ n, n ∈ nodes ∧ name n = e) ∧ - e ∉ evidence) →
  (pass_fuel nodes ≤ fuel)%nat →
  ∃ weight values r',
    LikelihoodSampler.likelihoodSample fuel nodes evidence r
    = Ok ((weight, values), r')
    ∧ Sampler.matches values evidence = true.
Proof.
  intros Hnames Hlisted Hranked Hpos Hev Hfuel.
  destruct (sampling_order_start nodes fuel Hfuel)
    as (order & Horder & Hin & Hnd & _ & Hall).
  destruct (likelihood_visit_fold evidence order [] 1%Qc r)
    as (vs & w' & r' & Hfold & Hforced & Hvs & _).
  exists w', vs, r'. unfold LikelihoodSampler.likelihoodSample.
  rewrite likelihood_loop_order, Horder. simpl. rewrite Hfold. simpl.
  split; [done|].
  apply matches_iff_every_literal_holds. intros e He. split.
  - intros Hgt. destruct (Hev e He Hgt) as [(n & Hn & <-) _].
    destruct (proj1 (list_elem_of_fmap _ _ _) (Hall rank Hlisted Hranked n Hn))
      as (m & Hname & Hm).
    rewrite Hname. apply Hforced; [done|]. by rewrite <- Hname.
  - intros Hle Hin'.
    destruct (Hvs _ Hin') as [(n & Hn & Hname) Hside].
    pose proof (Hpos n (Hin n Hn)) as Hn0.
    assert (Hneg : - e > 0) by lia.
    destruct Hside as [Hside|Hside].
    + destruct (Hev _ Hside Hneg) as [_ Hno]. apply Hno.
      by rewrite Z.opp_involutive.
    + apply Hside. by rewrite Z.opp_involutive.
Qed.

Lemma likelihoodSample_matches_evidence_witness :
  ∃ weight values r',
    LikelihoodSampler.likelihoodSample (pass_fuel pair_nodes) pair_nodes [1; -2]
      zero_random
    = Ok ((weight, values), r')
    ∧ Sampler.matches values [1; -2] = true.
Proof.
  apply (likelihoodSample_matches_evidence pair_nodes pair_rank).
  - apply pair_nodes_closed_acyclic.
  - apply pair_nodes_closed_acyclic.
  - apply pair_nodes_closed_acyclic.
  - apply list.Forall_forall. apply (bool_decide_unpack _). vm_compute. exact I.
  - intros e He Hgt.
    apply elem_of_cons in He as [->|He];
      [|apply list_elem_of_singleton in He as ->; lia].
    split; [exists flip_parent; split; [left|done]|].
    apply (bool_decide_unpack _). vm_compute. exact I.
  - lia.
Defined.

(** * IndependenceChecker: further properties *)

(** X16: On a well-formed network [getPaths] returns, and every path it returns
    is a simple undirected path from [a] to [b] through live nodes. *)
Theorem getPaths_returns_simple_paths (nodes : gmap Z BayesNode) (a b : Z)
    (fuel : nat) :
  wf_network nodes → is_Some (nodes !! a) → (paths_fuel nodes ≤ fuel)%nat →
  ∃ paths,
    IndependenceChecker.getPaths fuel nodes a b = Ok paths
    ∧ ∀ p, p ∈ paths →
        simple_path nodes a b p ∧ ∀ x, x ∈ p → is_Some (nodes !! x).
Proof.
  intros Hwf Ha Hfuel.
  destruct (getPaths_returns nodes Hwf a b fuel Ha Hfuel) as (ps & Hps & Hok).
  exists ps. split; [done|]. intros p Hp.
  rewrite list.Forall_forall in Hok. by apply Hok.
Qed.

Lemma getPaths_returns_simple_paths_witness :
  ∃ paths,
    IndependenceChecker.getPaths (paths_fuel kite) kite 1 2 = Ok paths
    ∧ ∀ p, p ∈ paths →
        simple_path kite 1 2 p ∧ ∀ x, x ∈ p → is_Some (kite !! x).
Proof.
  apply getPaths_returns_simple_paths.
  - decide_by_computation.
  - by eexists.
  - apply le_n.
Defined.

(** X17: A name that is not live gives [KeyError] as the first node of a check;
    as the second node of a check that starts from a live node it gives
    "independent", since no path reaches it. *)
Theorem checkIndependence_on_missing_node (nodes : gmap Z BayesNode)
    (a b : Z) (evidence : list Z) (fuel : nat) :
  wf_network nodes → nodes !! b = None → (paths_fuel nodes ≤ fuel)%nat →
  IndependenceChecker.checkIndependence fuel nodes b a evidence = Raise KeyError
  ∧ (is_Some (nodes !! a) →
     IndependenceChecker.checkIndependence fuel nodes a b evidence = Ok true).
Proof.
  intros Hwf Hb Hfuel. split.
  - destruct fuel as [|fuel]; [unfold paths_fuel in Hfuel; lia|].
    unfold IndependenceChecker.checkIndependence, IndependenceChecker.getPaths.
    simpl. unfold node_at. by rewrite Hb.
  - intros Ha.
    destruct (getPaths_returns nodes Hwf a b fuel Ha Hfuel) as (ps & Hps & Hok).
    unfold IndependenceChecker.checkIndependence. rewrite Hps. simpl.
    destruct ps as [|p ps]; [done|].
    apply Forall_cons in Hok as [[(_ & Hlast & _) Hlive] _].
    assert (Hin : b ∈ p).
    { destruct p as [|x p] using rev_ind; [done|].
      rewrite last_snoc in Hlast. injection Hlast as ->.
      apply elem_of_app. right. by apply list_elem_of_singleton. }
    destruct (Hlive b Hin) as [nd Hnd]. congruence.
Qed.

Lemma checkIndependence_on_missing_node_witness :
  IndependenceChecker.checkIndependence (paths_fuel kite) kite 9 1 [3] = Raise KeyError
  ∧ (is_Some (kite !! 1) →
     IndependenceChecker.checkIndependence (paths_fuel kite) kite 1 9 [3] = Ok true).
Proof.
  apply checkIndependence_on_missing_node.
  - decide_by_computation.
  - reflexivity.
  - apply le_n.
Defined.

Section adjacent_nodes.
Import IndependenceChecker.
Variable nodes : gmap Z BayesNode.

(** A queued entry for [b] ends up among the returned paths. *)
Lemma getPaths_loop_keeps_entry b fuel :
  ∀ queue visited paths ps p,
    (b, p) ∈ queue ∨ p ∈ paths →
    getPaths_loop fuel nodes b queue visited paths = Ok ps →
    p ∈ ps.
Proof.
  induction fuel as [|fuel IH]; intros queue visited paths ps p Hp Hrun.
  - destruct queue as [|[n q] queue]; simpl in Hrun; [|done].
    injection Hrun as <-. destruct Hp as [Hp|Hp]; [|done].
    by apply elem_of_nil in Hp.
  - destruct queue as [|[n q] queue]; simpl in Hrun.
    { injection Hrun as <-. destruct Hp as [Hp|Hp]; [|done].
      by apply elem_of_nil in Hp. }
    destruct (node_at nodes n) as [nd| |]; simpl in Hrun; try done.
    eapply IH; [|exact Hrun].
    destruct Hp as [Hp|Hp].
    + apply elem_of_cons in Hp as [[= -> ->]|Hp].
      * right. rewrite bool_decide_eq_true_2 by done.
        apply elem_of_app. right. by apply list_elem_of_singleton.
      * left. rewrite enqueue_fold. apply elem_of_app. by left.
    + right. case_bool_decide; [|done]. apply elem_of_app. by left.
Qed.

Lemma getPaths_direct a b fuel ps :
  a ≠ b → adjacent nodes a b →
  getPaths fuel nodes a b = Ok ps → [a; b] ∈ ps.
Proof.
  intros Hne (nd & Ha & Hb) Hrun. unfold getPaths in Hrun.
  destruct fuel as [|fuel]; [done|]. simpl in Hrun.
  unfold node_at in Hrun. rewrite Ha in Hrun. simpl in Hrun.
  eapply getPaths_loop_keeps_entry; [|exact Hrun].
  left. rewrite enqueue_fold. simpl.
  apply (list_elem_of_fmap_2' _ _ b); [|done].
  apply list_elem_of_filter. split; [|done].
  intros [Hin%elem_of_singleton|Hin%not_elem_of_empty]%elem_of_union; [|done].
  congruence.
Qed.
End adjacent_nodes.

(** X18: Two distinct nodes joined by an edge are never reported independent:
    on a well-formed acyclic network [checkIndependence] returns false for
    them, whatever the evidence. *)
Theorem checkIndependence_adjacent_dependent (nodes : gmap Z BayesNode)
    (a b : Z) (evidence : list Z) :
  wf_network nodes → acyclic nodes → a ≠ b → adjacent nodes a b →
  ∃ fuel0, ∀ fuel, (fuel0 ≤ fuel)%nat →
    IndependenceChecker.checkIndependence fuel nodes a b evidence = Ok false.
Proof.
  intros Hwf [rank Hrank] Hne Hadj.
  assert (Ha : is_Some (nodes !! a)) by (destruct Hadj as (nd & -> & _); by eexists).
  exists (paths_fuel nodes + S (max_rank rank nodes))%nat.
  intros fuel Hfuel.
  destruct (getPaths_returns nodes Hwf a b fuel Ha) as (ps & Hps & Hok); [lia|].
  destruct (checkPaths_spec nodes Hwf rank Hrank evidence fuel ps)
    as (res & Hres & Hspec).
  { intros p Hp x Hx. rewrite list.Forall_forall in Hok.
    destruct (Hok p Hp) as [_ Hlive]. split; [by apply Hlive|].
    pose proof (max_rank_bound nodes rank x (Hlive x Hx)). lia. }
  unfold IndependenceChecker.checkIndependence. rewrite Hps. simpl.
  rewrite Hres. f_equal. destruct res; [|done].
  exfalso. apply (blocked_short nodes evidence [a; b]); [simpl; lia|].
  apply Hspec; [done|]. by eapply getPaths_direct.
Qed.

Lemma checkIndependence_adjacent_dependent_witness :
  ∃ fuel0, ∀ fuel, (fuel0 ≤ fuel)%nat →
    IndependenceChecker.checkIndependence fuel kite 4 3 [1; 2] = Ok false.
Proof.
  apply checkIndependence_adjacent_dependent.
  - decide_by_computation.
  - exists kite_rank. decide_by_computation.
  - lia.
  - exists kite4. split; [done|]. decide_by_computation.
Defined.

(** * GibbsSampler: the state holds no name twice *)

Lemma list_remove_NoDup x l :
  NoDup l → NoDup (GibbsSampler.list_remove x l) ∧ x ∉ GibbsSampler.list_remove x l.
Proof.
  induction l as [|y l IH]; intros Hnd; simpl.
  - split; [constructor|by intros ?%elem_of_nil].
  - apply NoDup_cons in Hnd as [Hy Hnd]. case_bool_decide as Heq.
    + subst y. done.
    + destruct (IH Hnd) as [Hnd' Hx]. split.
      * apply NoDup_cons. split; [|done].
        intros Hin. by apply list_remove_elem_of in Hin.
      * intros [->|Hin]%elem_of_cons; [done|by apply Hx].
Qed.

Lemma toggled_NoDup vars s s' : toggled vars s s' → NoDup s → NoDup s'.
Proof.
  intros [->|(node & _ & [[Hout ->]|[Hin ->]])] Hnd; [done| |].
  - apply NoDup_app. split; [done|]. split; [|apply NoDup_singleton].
    by intros x Hx ->%list_elem_of_singleton.
  - by apply list_remove_NoDup.
Qed.

(** X19: When the evidence lists no literal twice (it is a set), no sample that
    Gibbs sampling emits holds a name twice, so the [list.remove] of a
    toggle really makes the variable false. *)
Theorem gibbs_samples_hold_no_name_twice (store : gmap Z BayesNode)
    (evidence : list Z) (nodes : list BayesNode) (r : random)
    (iterations : nat) (samples : list (Qc * list Z)) (g' : GibbsSampler.gibbs) :
  NoDup evidence →
  Sampler.draws (GibbsSampler.gibbsSample store) iterations
    (GibbsSampler.init evidence nodes r) = Ok (samples, g') →
  Forall (λ ws, NoDup ws.2) samples
  ∧ NoDup (GibbsSampler.state g')
  ∧ ∀ x, x ∉ GibbsSampler.list_remove x (GibbsSampler.state g').
Proof.
  intros Hev Hd.
  assert (Hinit : NoDup (GibbsSampler.state (GibbsSampler.init evidence nodes r))).
  { unfold GibbsSampler.init; simpl. by apply NoDup_filter. }
  assert (Hgen : ∀ k g samples g',
            NoDup (GibbsSampler.state g) →
            Sampler.draws (GibbsSampler.gibbsSample store) k g = Ok (samples, g') →
            Forall (λ ws, NoDup ws.2) samples ∧ NoDup (GibbsSampler.state g')).
  { clear. induction k as [|k IH]; intros g samples g' Hg Hd; simpl in Hd.
    - by injection Hd as <- <-.
    - destruct (GibbsSampler.gibbsSample store g) as [[ws g1]| |] eqn:Hstep;
        simpl in Hd; try done.
      destruct (Sampler.draws _ k g1) as [[rest g2]| |] eqn:Hk;
        simpl in Hd; try done.
      injection Hd as <- <-.
      apply gibbsSample_step in Hstep as (-> & _ & Htog).
      pose proof (toggled_NoDup _ _ _ Htog Hg) as Hg1.
      destruct (IH _ _ _ Hg1 Hk) as [Hrest Hg2].
      split; [by constructor|done]. }
  destruct (Hgen _ _ _ _ Hinit Hd) as [Hs Hg'].
  split; [done|]. split; [done|]. intros x. by apply list_remove_NoDup.
Qed.

Lemma gibbs_samples_hold_no_name_twice_witness :
  Forall (λ ws, NoDup ws.2) gibbs_samples
  ∧ NoDup (GibbsSampler.state gibbs_final)
  ∧ ∀ x, x ∉ GibbsSampler.list_remove x (GibbsSampler.state gibbs_final).
Proof.
  apply (gibbs_samples_hold_no_name_twice flip_store [1] pair_nodes zero_random 2).
  - apply NoDup_singleton.
  - vm_compute. reflexivity.
Defined.

(** * Network: names *)

Lemma insert_sorted_elem_of x l y :
  y ∈ Network.insert_sorted x l ↔ y = x ∨ y ∈ l.
Proof.
  induction l as [|z l IH]; simpl.
  - rewrite list_elem_of_singleton. split; [by left|]. intros [?|?%elem_of_nil]; done.
  - case_bool_decide.
    + by rewrite elem_of_cons.
    + rewrite !elem_of_cons, IH. tauto.
Qed.

Lemma insert_sorted_increasing x l :
  increasing l → x ∉ l → increasing (Network.insert_sorted x l).
Proof.
  induction l as [|z l IH]; simpl; intros Hinc Hx.
  - split; [by intros y ?%elem_of_nil|done].
  - destruct Hinc as [Hz Hinc]. apply not_elem_of_cons in Hx as [Hne Hx].
    case_bool_decide as Hle.
    + simpl. split; [|done].
      intros y [->|Hy]%elem_of_cons; [lia|]. specialize (Hz y Hy). lia.
    + simpl. split; [|by apply IH].
      intros y [->|Hy]%insert_sorted_elem_of; [lia|by apply Hz].
Qed.

Lemma list_sort_elem_of l y : y ∈ Network.list_sort l ↔ y ∈ l.
Proof.
  induction l as [|x l IH]; simpl; [done|].
  rewrite insert_sorted_elem_of, elem_of_cons, IH. tauto.
Qed.

Lemma list_sort_increasing l : NoDup l → increasing (Network.list_sort l).
Proof.
  induction 1 as [|x l Hx _ IH]; simpl; [done|].
  apply insert_sorted_increasing; [done|]. by rewrite list_sort_elem_of.
Qed.

Lemma increasing_NoDup l : increasing l → NoDup l.
Proof.
  induction l as [|x l IH]; simpl; [constructor|].
  intros [Hx Hinc]. apply NoDup_cons. split; [|by apply IH].
  intros Hin. specialize (Hx x Hin). lia.
Qed.

Lemma insert_sorted_Permutation x l : Network.insert_sorted x l ≡ₚ x :: l.
Proof.
  induction l as [|z l IH]; simpl; [done|].
  case_bool_decide; [done|]. rewrite IH. apply Permutation_swap.
Qed.

Lemma insert_sorted_nondecreasing x l :
  (∀ i j y z, (i < j)%nat → l !! i = Some y → l !! j = Some z → y ≤ z) →
  ∀ i j y z, (i < j)%nat →
    Network.insert_sorted x l !! i = Some y →
    Network.insert_sorted x l !! j = Some z → y ≤ z.
Proof.
  induction l as [|w l IH]; simpl; intros Hl i j y z Hij Hi Hj.
  - destruct i, j; simpl in *; try lia; by rewrite ?lookup_nil in *.
  - case_bool_decide as Hle.
    + destruct i as [|i], j as [|j]; simpl in *; try lia.
      * injection Hi as <-.
        destruct j as [|j]; simpl in Hj; [injection Hj as <-; lia|].
        assert (w ≤ z); [|lia].
        apply (Hl 0%nat (S j) w z); [lia|done|done].
      * by apply (Hl i j y z); [lia|..].
    + destruct i as [|i], j as [|j]; simpl in *; try lia.
      * injection Hi as <-.
        apply list_elem_of_lookup_2, insert_sorted_elem_of in Hj as [->|Hz]; [lia|].
        apply list_elem_of_lookup_1 in Hz as [k Hk].
        apply (Hl 0%nat (S k) w z); [lia|done|done].
      * apply (IH (λ i j y z Hij, Hl (S i) (S j) y z ltac:(lia)) i j y z);
          [lia|done|done].
Qed.

(** [list.sort]: the model rearranges the list into non-decreasing order,
    which fixes its result. *)
Lemma list_sort_sorted l :
  Network.list_sort l ≡ₚ l
  ∧ ∀ i j y z, (i < j)%nat →
      Network.list_sort l !! i = Some y → Network.list_sort l !! j = Some z →
      y ≤ z.
Proof.
  induction l as [|x l [IHp IHs]]; simpl.
  - split; [done|]. intros i j y z _ Hi. by rewrite lookup_nil in Hi.
  - split; [by rewrite insert_sorted_Permutation, IHp|].
    by apply insert_sorted_nondecreasing.
Qed.

(** * Network: structural edits *)

Lemma wf_network_iff (nodes : gmap Z BayesNode) :
  wf_network nodes
  ↔ (∀ x nd, nodes !! x = Some nd → name nd = x)
    ∧ (∀ x c, edge nodes x c → parent_link nodes c x)
    ∧ (∀ x p, parent_link nodes x p → edge nodes p x).
Proof.
  split.
  - intros Hwf. split; [apply (wf_name nodes Hwf)|]. split.
    + intros x c (nd & Hx & Hc). by apply (wf_child nodes Hwf x nd c).
    + intros x p (nd & Hx & Hp). by apply (wf_parent nodes Hwf x nd p).
  - intros (Hname & Hchild & Hparent) x nd Hx. unfold wf_node.
    apply andb_true_intro. split; [apply andb_true_intro; split|].
    + apply bool_decide_eq_true. by apply Hname.
    + apply forallb_forall. intros c Hc%list_elem_of_In.
      destruct (Hchild x c) as (ndc & Hndc & Hin); [by exists nd|].
      unfold child_linked. rewrite Hndc. by apply bool_decide_eq_true.
    + apply forallb_forall. intros p Hp%list_elem_of_In.
      destruct (Hparent x p) as (ndp & Hndp & Hin); [by exists nd|].
      unfold parent_linked. rewrite Hndp. by apply bool_decide_eq_true.
Qed.

(** Repeating an idempotent update over a list of keys. *)
Lemma alter_fold_lookup (f : BayesNode → BayesNode) (links : list (Z * Z)) :
  (∀ nd, f (f nd) = f nd) →
  ∀ (store : gmap Z BayesNode) (x : Z),
    foldl (λ (st : gmap Z BayesNode) (cl : Z * Z), alter f cl.1 st) store links !! x
    = if decide (x ∈ links.*1) then f <$> store !! x else store !! x.
Proof.
  intros Hf. induction links as [|cl links IH]; intros store x.
  - destruct (decide (x ∈ ([] : list (Z * Z)).*1)) as [Hin|]; [|done].
    by apply elem_of_nil in Hin.
  - cbn [foldl]. rewrite IH. rewrite fmap_cons.
    destruct (decide (cl.1 = x)) as [<-|Hne].
    + rewrite lookup_alter_eq.
      destruct (decide (cl.1 ∈ cl.1 :: links.*1)) as [_|Hout];
        [|destruct Hout; left].
      destruct (decide (cl.1 ∈ links.*1)); [|done].
      destruct (store !! cl.1); simpl; [|done]. by rewrite Hf.
    + rewrite lookup_alter_ne by done.
      destruct (decide (x ∈ links.*1)) as [Hin|Hout];
        destruct (decide (x ∈ cl.1 :: links.*1)) as [Hin'|Hout']; try done.
      * destruct Hout'. by right.
      * apply elem_of_cons in Hin' as [?|?]; [congruence|done].
Qed.

Lemma removeParent_idemp item nd :
  removeParent (removeParent nd item) item = removeParent nd item.
Proof. unfold removeParent, set_parents; simpl. by rewrite filter_fst_ne_idemp. Qed.

Lemma removeChild_idemp item nd :
  removeChild (removeChild nd item) item = removeChild nd item.
Proof. unfold removeChild, set_children; simpl. by rewrite filter_fst_ne_idemp. Qed.

Lemma removeParent_absent item nd :
  item ∉ (parents nd).*1 → removeParent nd item = nd.
Proof.
  intros Hout. unfold removeParent, set_parents.
  rewrite filter_fst_ne_id by done. by destruct nd.
Qed.

Lemma removeChild_absent item nd :
  item ∉ (children nd).*1 → removeChild nd item = nd.
Proof.
  intros Hout. unfold removeChild, set_children.
  rewrite filter_fst_ne_id by done. by destruct nd.
Qed.

Section remove_facts.
Variable nodes : gmap Z BayesNode.
Hypothesis Hwf : wf_network nodes.
Variables (item : Z) (node : BayesNode).
Hypothesis Hitem : nodes !! item = Some node.

(** The store after [remove]: the item is gone and every other node has
    forgotten it. *)
Lemma remove_store_lookup x :
  delete item (Network.unlink_parents node (Network.unlink_children node nodes)) !! x
  = if decide (x = item) then None else unlink item <$> nodes !! x.
Proof.
  pose proof (wf_name nodes Hwf _ _ Hitem) as Hname.
  destruct (decide (x = item)) as [->|Hne]; [by rewrite lookup_delete_eq|].
  rewrite lookup_delete_ne by done.
  unfold Network.unlink_parents, Network.unlink_children.
  rewrite (alter_fold_lookup (λ p, removeChild p (name node)))
    by (intros; apply removeChild_idemp).
  rewrite (alter_fold_lookup (λ c, removeParent c (name node)))
    by (intros; apply removeParent_idemp).
  rewrite Hname. unfold unlink.
  destruct (nodes !! x) as [nd|] eqn:Hx; simpl.
  2:{ by destruct (decide (x ∈ (parents node).*1)), (decide (x ∈ (children node).*1)). }
  assert (Hc : x ∉ (children node).*1 → removeParent nd item = nd).
  { intros Hout. apply removeParent_absent. intros Hin. apply Hout.
    destruct (wf_parent nodes Hwf _ _ _ Hx Hin) as (nd' & Hnd' & ?). congruence. }
  assert (Hp : x ∉ (parents node).*1 → ∀ nd', children nd' = children nd →
                 removeChild nd' item = nd').
  { intros Hout nd' Heq. apply removeChild_absent. rewrite Heq. intros Hin.
    apply Hout.
    destruct (wf_child nodes Hwf _ _ _ Hx Hin) as (nd'' & Hnd'' & ?). congruence. }
  destruct (decide (x ∈ (parents node).*1)), (decide (x ∈ (children node).*1));
    simpl.
  - done.
  - by rewrite Hc.
  - by rewrite Hp.
  - by rewrite Hc, Hp.
Qed.
End remove_facts.

Lemma unlink_children_elem_of item nd c :
  c ∈ (children (unlink item nd)).*1 ↔ c ∈ (children nd).*1 ∧ c ≠ item.
Proof. unfold unlink; simpl. apply filter_fst_ne_elem_of. Qed.

Lemma unlink_parents_elem_of item nd p :
  p ∈ (parents (unlink item nd)).*1 ↔ p ∈ (parents nd).*1 ∧ p ≠ item.
Proof. unfold unlink; simpl. apply filter_fst_ne_elem_of. Qed.

Lemma filter_fst_ne_NoDup item (links : list (Z * Z)) :
  NoDup links.*1 → NoDup (filter (λ cl : Z * Z, cl.1 ≠ item) links).*1.
Proof.
  induction links as [|cl links IH]; [done|].
  rewrite fmap_cons. intros [Hcl Hnd]%NoDup_cons.
  rewrite filter_cons. destruct (decide (cl.1 ≠ item)); [|by apply IH].
  rewrite fmap_cons. apply NoDup_cons. split; [|by apply IH].
  rewrite filter_fst_ne_elem_of. by intros [? _].
Qed.

(** What [remove] does to the store, the names and the invariants. *)
Lemma remove_spec (self : Network.network) (item : Z) :
  network_ok self → is_Some (Network.nodes self !! item) →
  ∃ self',
    Network.remove self item = Ok self' ∧ network_ok self'
    ∧ Network.nodes self' !! item = None
    ∧ (item ∈ Network.freeNames self')
    ∧ Network.nextName self' = Network.nextName self
    ∧ (∀ x, x ≠ item →
         is_Some (Network.nodes self' !! x) ↔ is_Some (Network.nodes self !! x))
    ∧ (∀ x y, edge (Network.nodes self') x y
              ↔ edge (Network.nodes self) x y ∧ x ≠ item ∧ y ≠ item)
    ∧ (∀ x nd, Network.nodes self' !! x = Some nd →
         isChild nd item = false ∧ isParent nd item = false).
Proof.
  intros (Hwf & Hdist & Hinc & Hnext & Hfree & Hsplit) [node Hitem].
  pose proof (wf_name _ Hwf _ _ Hitem) as Hname.
  unfold Network.remove, node_at. rewrite Hitem. simpl.
  eexists. split; [reflexivity|]. simpl.
  set (nodes' := delete item _).
  assert (Hlook : ∀ x, nodes' !! x
            = if decide (x = item) then None
              else unlink item <$> Network.nodes self !! x)
    by (intros x; by apply remove_store_lookup).
  assert (Hsome : ∀ x nd', nodes' !! x = Some nd' →
            x ≠ item ∧ ∃ nd, Network.nodes self !! x = Some nd ∧ nd' = unlink item nd).
  { intros x nd'. rewrite Hlook. destruct (decide (x = item)); [done|].
    destruct (Network.nodes self !! x) as [nd|]; simpl; [|done].
    intros [= <-]. split; [done|]. by exists nd. }
  assert (Hkeep : ∀ x nd, x ≠ item → Network.nodes self !! x = Some nd →
            nodes' !! x = Some (unlink item nd)).
  { intros x nd Hne Hx. rewrite Hlook, decide_False by done. by rewrite Hx. }
  assert (Hedge : ∀ x y, edge nodes' x y
            ↔ edge (Network.nodes self) x y ∧ x ≠ item ∧ y ≠ item).
  { intros x y. split.
    - intros (nd' & Hx & Hy). destruct (Hsome _ _ Hx) as (Hne & nd & Hnd & ->).
      apply unlink_children_elem_of in Hy as [Hy ?]. split; [by exists nd|done].
    - intros [(nd & Hx & Hy) [Hne Hney]]. exists (unlink item nd).
      split; [by apply Hkeep|]. by apply unlink_children_elem_of. }
  assert (Hparent : ∀ x p, parent_link nodes' x p
            ↔ parent_link (Network.nodes self) x p ∧ x ≠ item ∧ p ≠ item).
  { intros x p. split.
    - intros (nd' & Hx & Hp). destruct (Hsome _ _ Hx) as (Hne & nd & Hnd & ->).
      apply unlink_parents_elem_of in Hp as [Hp ?]. split; [by exists nd|done].
    - intros [(nd & Hx & Hp) [Hne Hnep]]. exists (unlink item nd).
      split; [by apply Hkeep|]. by apply unlink_parents_elem_of. }
  apply wf_network_iff in Hwf as (Hnames & Hcp & Hpc).
  assert (Hnone : nodes' !! item = None) by (by rewrite Hlook, decide_True).
  assert (Hnew : ∀ n, n ∈ Network.list_sort (Network.freeNames self ++ [name node])
                      ↔ n ∈ Network.freeNames self ∨ n = item).
  { intros n. rewrite list_sort_elem_of, elem_of_app, list_elem_of_singleton.
    by rewrite Hname. }
  split; [|split; [done|split; [by apply Hnew; right|split; [done|split; [|split]]]]].
  - split; [|split].
    + apply wf_network_iff. split; [|split].
      * intros x nd' Hx. destruct (Hsome _ _ Hx) as (_ & nd & Hnd & ->).
        simpl. by apply Hnames.
      * intros x c [Hxc [? ?]]%Hedge. apply Hparent. split; [by apply Hcp|done].
      * intros x p [Hxp [? ?]]%Hparent. apply Hedge. split; [by apply Hpc|done].
    + intros x nd' Hx. destruct (Hsome _ _ Hx) as (_ & nd & Hnd & ->).
      destruct (Hdist x nd Hnd) as (Hc & Hp & Hxc & Hxp). simpl.
      split; [by apply filter_fst_ne_NoDup|].
      split; [by apply filter_fst_ne_NoDup|].
      split; rewrite filter_fst_ne_elem_of; by intros [? _].
    + split; [|split; [done|split]]; simpl.
      * apply list_sort_increasing. apply NoDup_app.
        split; [by apply increasing_NoDup|]. split; [|apply NoDup_singleton].
        intros n Hn ->%list_elem_of_singleton. rewrite Hname in Hn.
        apply Hfree in Hn. congruence.
      * intros n [Hn| ->]%Hnew; [|done].
        rewrite Hlook. destruct (decide (n = item)); [done|].
        by rewrite (Hfree n Hn).
      * intros n. rewrite Hsplit, Hnew. split.
        -- intros [[nd Hn]|Hn]; [|by right; left].
           destruct (decide (n = item)) as [->|Hne]; [by right; right|].
           left. rewrite (Hkeep _ _ Hne Hn). by eexists.
        -- intros [[nd' Hn]|[Hn| ->]]; [|by right|left; by eexists].
           destruct (Hsome _ _ Hn) as (_ & nd & -> & _). left. by eexists.
  - intros x Hne. rewrite Hlook, decide_False by done.
    by rewrite fmap_is_Some.
  - done.
  - intros x nd' Hx. destruct (Hsome _ _ Hx) as (_ & nd & _ & ->).
    unfold isChild, isParent. split; apply bool_decide_eq_false.
    + rewrite unlink_children_elem_of. by intros [_ ?].
    + rewrite unlink_parents_elem_of. by intros [_ ?].
Qed.


Lemma insert_isolated_ok (nodes : gmap Z BayesNode) (name : Z) :
  nodes !! name = None → wf_network nodes → links_distinct nodes →
  wf_network (<[name := mkNode name [] [] ∅]> nodes)
  ∧ links_distinct (<[name := mkNode name [] [] ∅]> nodes).
Proof.
  intros Hfresh Hwf Hdist.
  apply wf_network_iff in Hwf as (Hnames & Hcp & Hpc).
  assert (Hold : ∀ x nd, <[name := mkNode name [] [] ∅]> nodes !! x = Some nd →
            (x = name ∧ nd = mkNode name [] [] ∅)
            ∨ (x ≠ name ∧ nodes !! x = Some nd)).
  { intros x nd. rewrite lookup_insert. case_decide as Hx.
    - intros [= <-]. left. by subst.
    - intros Hnd. right. split; [congruence|done]. }
  assert (Hstay : ∀ x nd, nodes !! x = Some nd →
            <[name := mkNode name [] [] ∅]> nodes !! x = Some nd).
  { intros x nd Hx. rewrite lookup_insert_ne; [done|]. congruence. }
  split.
  - apply wf_network_iff. split; [|split].
    + intros x nd [[-> ->]|[_ Hx]]%Hold; [done|by apply Hnames].
    + intros x c (nd & [[-> ->]|[_ Hx]]%Hold & Hc); [by apply elem_of_nil in Hc|].
      destruct (Hcp x c) as (ndc & Hndc & Hin); [by exists nd|].
      exists ndc. split; [by apply Hstay|done].
    + intros x p (nd & [[-> ->]|[_ Hx]]%Hold & Hp); [by apply elem_of_nil in Hp|].
      destruct (Hpc x p) as (ndp & Hndp & Hin); [by exists nd|].
      exists ndp. split; [by apply Hstay|done].
  - intros x nd [[-> ->]|[_ Hx]]%Hold; [|by apply Hdist]. simpl.
    split; [constructor|]. split; [constructor|].
    split; by intros ?%elem_of_nil.
Qed.

(** What [createNode] does to the store, the names and the invariants. *)
Lemma createNode_spec (self : Network.network) :
  network_ok self →
  Network.nodes self !! (Network.createNode self).1 = None
  ∧ 1 ≤ (Network.createNode self).1
  ∧ (∀ m, m ∈ Network.freeNames self → (Network.createNode self).1 ≤ m)
  ∧ (Network.freeNames self = [] →
     (Network.createNode self).1 = Network.nextName self)
  ∧ Network.nodes (Network.createNode self).2
    = <[(Network.createNode self).1 := mkNode (Network.createNode self).1 [] [] ∅]>
        (Network.nodes self)
  ∧ network_ok (Network.createNode self).2.
Proof.
  intros (Hwf & Hdist & Hinc & Hnext & Hfree & Hsplit).
  unfold Network.createNode, Network.getName.
  destruct (Network.freeNames self) as [|n rest] eqn:Hlist; simpl.
  - assert (Hfresh : Network.nodes self !! Network.nextName self = None).
    { destruct (Network.nodes self !! Network.nextName self) eqn:Hn; [|done].
      assert (1 ≤ Network.nextName self < Network.nextName self); [|lia].
      apply Hsplit. left. by eexists. }
    split; [done|]. split; [done|]. split; [by intros m ?%elem_of_nil|].
    split; [done|]. split; [done|].
    destruct (insert_isolated_ok _ _ Hfresh Hwf Hdist) as [Hwf' Hdist'].
    split; [done|]. split; [done|].
    unfold names_ok. cbn [Network.freeNames Network.nextName Network.nodes].
    split; [done|]. split; [lia|]. split; [by intros m ?%elem_of_nil|].
    intros m. rewrite lookup_insert. case_decide as Hm.
    + subst m. split; [intros _; left; by eexists|lia].
    + specialize (Hsplit m). split.
      * intros Hr. apply Hsplit. lia.
      * intros Hside. apply Hsplit in Hside. lia.
  - simpl in Hinc. destruct Hinc as [Hmin Hinc].
    assert (Hfresh : Network.nodes self !! n = None) by (apply Hfree; left).
    assert (Hrange : 1 ≤ n < Network.nextName self)
      by (apply Hsplit; right; left).
    split; [done|]. split; [lia|]. split.
    { intros m [->|Hm]%elem_of_cons; [lia|]. specialize (Hmin m Hm). lia. }
    split; [done|]. split; [done|].
    destruct (insert_isolated_ok _ _ Hfresh Hwf Hdist) as [Hwf' Hdist'].
    split; [done|]. split; [done|].
    unfold names_ok. cbn [Network.freeNames Network.nextName Network.nodes].
    split; [done|]. split; [done|]. split.
    + intros m Hm. rewrite lookup_insert_ne.
      * apply Hfree. by right.
      * specialize (Hmin m Hm). lia.
    + intros m. rewrite Hsplit, lookup_insert. case_decide as Hm.
      * subst m. split; [intros _; left; by eexists|intros _; right; left].
      * rewrite elem_of_cons. split.
        -- intros [?|[?|?]]; [by left|congruence|by right].
        -- intros [?|?]; [by left|right; by right].
Qed.

(** X21: [createNode] names the new node with a name no live node has: the
    smallest released name if there is one, the next fresh name otherwise;
    the node starts without links and the network stays well formed. *)
Theorem createNode_gives_fresh_name (self : Network.network) :
  network_ok self →
  Network.nodes self !! (Network.createNode self).1 = None
  ∧ 1 ≤ (Network.createNode self).1
  ∧ (∀ m, m ∈ Network.freeNames self → (Network.createNode self).1 ≤ m)
  ∧ (Network.freeNames self = [] →
     (Network.createNode self).1 = Network.nextName self)
  ∧ Network.nodes (Network.createNode self).2
    = <[(Network.createNode self).1 := mkNode (Network.createNode self).1 [] [] ∅]>
        (Network.nodes self)
  ∧ network_ok (Network.createNode self).2.
Proof. exact (createNode_spec self). Qed.

Lemma network_ok_empty : network_ok Network.empty.
Proof.
  unfold network_ok, names_ok, Network.empty.
  cbn [Network.freeNames Network.nextName Network.nodes].
  split; [|split].
  - intros x nd Hx. by rewrite lookup_empty in Hx.
  - intros x nd Hx. by rewrite lookup_empty in Hx.
  - split; [done|]. split; [done|]. split; [by intros n ?%elem_of_nil|].
    intros n. split; [lia|].
    intros [[nd Hn]|Hn]; [by rewrite lookup_empty in Hn|by apply elem_of_nil in Hn].
Qed.


Section link_facts.
Variable nodes : gmap Z BayesNode.
Variables (s n line : Z) (ns nn : BayesNode).
Hypothesis Hs : nodes !! s = Some ns.
Hypothesis Hn : nodes !! n = Some nn.
Hypothesis Hne : s ≠ n.

Lemma link_store_lookup x :
  <[n := addParent nn s line]>
    (<[s := set_children ns (children ns ++ [(n, line)])]> nodes) !! x
  = relink s n line x <$> nodes !! x.
Proof.
  unfold relink. rewrite lookup_insert. case_decide as Hxn.
  - subst x. rewrite Hn. simpl. by rewrite bool_decide_eq_true_2.
  - rewrite lookup_insert. case_decide as Hxs.
    + subst x. rewrite Hs. simpl.
      rewrite bool_decide_eq_false_2 by done. by rewrite bool_decide_eq_true_2.
    + destruct (nodes !! x); simpl; [|done].
      rewrite bool_decide_eq_false_2 by congruence.
      by rewrite bool_decide_eq_false_2 by congruence.
Qed.

Lemma relink_children x nd c :
  c ∈ (children (relink s n line x nd)).*1
  ↔ c ∈ (children nd).*1 ∨ (x = s ∧ c = n).
Proof.
  unfold relink. case_bool_decide as Hxn; [|case_bool_decide as Hxs]; simpl.
  - split; [by left|]. intros [?|[? _]]; [done|congruence].
  - rewrite fmap_app, elem_of_app. simpl. rewrite list_elem_of_singleton. tauto.
  - split; [by left|]. intros [?|[? _]]; [done|congruence].
Qed.

Lemma relink_parents x nd p :
  p ∈ (parents (relink s n line x nd)).*1
  ↔ p ∈ (parents nd).*1 ∨ (x = n ∧ p = s).
Proof.
  unfold relink. case_bool_decide as Hxn; [|case_bool_decide as Hxs]; simpl.
  - rewrite fmap_app, elem_of_app. simpl. rewrite list_elem_of_singleton. tauto.
  - split; [by left|]. intros [?|[? _]]; [done|congruence].
  - split; [by left|]. intros [?|[? _]]; [done|congruence].
Qed.

Lemma relink_name x nd : name (relink s n line x nd) = name nd.
Proof. unfold relink. by repeat case_bool_decide. Qed.

Lemma relink_ok :
  wf_network nodes → links_distinct nodes → n ∉ (children ns).*1 →
  wf_network (<[n := addParent nn s line]>
                (<[s := set_children ns (children ns ++ [(n, line)])]> nodes))
  ∧ links_distinct (<[n := addParent nn s line]>
                (<[s := set_children ns (children ns ++ [(n, line)])]> nodes))
  ∧ ∀ x y,
      edge (<[n := addParent nn s line]>
              (<[s := set_children ns (children ns ++ [(n, line)])]> nodes)) x y
      ↔ edge nodes x y ∨ (x = s ∧ y = n).
Proof.
  intros Hwf Hdist Hnew.
  set (nodes' := <[n := _]> _).
  assert (Hlook : ∀ x, nodes' !! x = relink s n line x <$> nodes !! x)
    by apply link_store_lookup.
  assert (Hsome : ∀ x nd', nodes' !! x = Some nd' →
            ∃ nd, nodes !! x = Some nd ∧ nd' = relink s n line x nd).
  { intros x nd'. rewrite Hlook. destruct (nodes !! x) as [nd|]; simpl; [|done].
    intros [= <-]. by exists nd. }
  assert (Hkeep : ∀ x nd, nodes !! x = Some nd →
            nodes' !! x = Some (relink s n line x nd)).
  { intros x nd Hx. by rewrite Hlook, Hx. }
  assert (Hedge : ∀ x y, edge nodes' x y ↔ edge nodes x y ∨ (x = s ∧ y = n)).
  { intros x y. split.
    - intros (nd' & Hx & Hy). destruct (Hsome _ _ Hx) as (nd & Hnd & ->).
      apply relink_children in Hy as [Hy|Hy]; [left; by exists nd|by right].
    - intros [(nd & Hx & Hy)|[-> ->]].
      + exists (relink s n line x nd). split; [by apply Hkeep|].
        apply relink_children. by left.
      + exists (relink s n line s ns). split; [by apply Hkeep|].
        apply relink_children. by right. }
  assert (Hparent : ∀ x p, parent_link nodes' x p
            ↔ parent_link nodes x p ∨ (x = n ∧ p = s)).
  { intros x p. split.
    - intros (nd' & Hx & Hp). destruct (Hsome _ _ Hx) as (nd & Hnd & ->).
      apply relink_parents in Hp as [Hp|Hp]; [left; by exists nd|by right].
    - intros [(nd & Hx & Hp)|[-> ->]].
      + exists (relink s n line x nd). split; [by apply Hkeep|].
        apply relink_parents. by left.
      + exists (relink s n line n nn). split; [by apply Hkeep|].
        apply relink_parents. by right. }
  pose proof Hwf as Hwf0.
  apply wf_network_iff in Hwf as (Hnames & Hcp & Hpc).
  split; [|split; [|done]].
  - apply wf_network_iff. split; [|split].
    + intros x nd' Hx. destruct (Hsome _ _ Hx) as (nd & Hnd & ->).
      rewrite relink_name. by apply Hnames.
    + intros x c [Hxc|[-> ->]]%Hedge; apply Hparent; [left; by apply Hcp|by right].
    + intros x p [Hxp|[-> ->]]%Hparent; apply Hedge; [left; by apply Hpc|by right].
  - intros x nd' Hx. destruct (Hsome _ _ Hx) as (nd & Hnd & ->).
    destruct (Hdist x nd Hnd) as (Hc & Hp & Hxc & Hxp).
    unfold relink. case_bool_decide as Hxn; [|case_bool_decide as Hxs]; simpl.
    + subst x. assert (nd = nn) as -> by congruence.
      assert (Hfresh : s ∉ (parents nn).*1).
      { intros Hin. apply Hnew.
        destruct (wf_parent nodes Hwf0 _ _ _ Hn Hin) as (ns' & Hns' & ?).
        congruence. }
      split; [done|]. rewrite fmap_app. simpl. split; [|split; [done|]].
      * apply NoDup_app. split; [done|]. split; [|apply NoDup_singleton].
        by intros y Hy ->%list_elem_of_singleton.
      * intros [?|?%list_elem_of_singleton]%elem_of_app; [done|congruence].
    + subst x. assert (nd = ns) as -> by congruence.
      rewrite fmap_app. simpl. split; [|split; [done|split; [|done]]].
      * apply NoDup_app. split; [done|]. split; [|apply NoDup_singleton].
        by intros y Hy ->%list_elem_of_singleton.
      * intros [?|?%list_elem_of_singleton]%elem_of_app; [done|congruence].
    + done.
Qed.
End link_facts.

(** What the linking step does to the store and the invariants. *)
Lemma link_spec (self : Network.network) (startNode node line : Z) :
  network_ok self →
  is_Some (Network.nodes self !! startNode) →
  is_Some (Network.nodes self !! node) →
  ∃ self',
    Network.link self startNode node line = Ok self' ∧ network_ok self'
    ∧ Network.freeNames self' = Network.freeNames self
    ∧ Network.nextName self' = Network.nextName self
    ∧ (∀ x, is_Some (Network.nodes self' !! x) ↔ is_Some (Network.nodes self !! x))
    ∧ (∀ x y, edge (Network.nodes self') x y
              ↔ edge (Network.nodes self) x y
                ∨ (x = startNode ∧ y = node ∧ startNode ≠ node))
    ∧ (startNode = node ∨ edge (Network.nodes self) startNode node → self' = self).
Proof.
  intros Hok [ns Hs] [nn Hn].
  pose proof Hok as (Hwf & Hdist & Hinc & Hnext & Hfree & Hsplit).
  pose proof (wf_name _ Hwf _ _ Hs) as Hsname.
  pose proof (wf_name _ Hwf _ _ Hn) as Hnname.
  unfold Network.link, node_at. rewrite Hs, Hn. simpl.
  unfold addChild. rewrite Hsname, Hnname.
  case_bool_decide as Hsame.
  { exists self. split; [done|]. split; [done|]. split; [done|]. split; [done|].
    split; [done|]. split; [|done].
    intros x y. split; [by left|]. intros [?|(_ & _ & ?)]; [done|congruence]. }
  destruct (recorded node (children ns)) eqn:Hrec.
  { apply recorded_elem_of in Hrec.
    exists self. split; [done|]. split; [done|]. split; [done|]. split; [done|].
    split; [done|]. split; [|done].
    intros x y. split; [by left|]. intros [?|(-> & -> & _)]; [done|].
    by exists ns. }
  assert (Hnew : node ∉ (children ns).*1).
  { intros Hin%recorded_elem_of. congruence. }
  assert (Hne : startNode ≠ node) by congruence.
  destruct (relink_ok _ _ _ line _ _ Hs Hn Hne Hwf Hdist Hnew)
    as (Hwf' & Hdist' & Hedge).
  eexists. split; [reflexivity|].
  cbn [Network.nodes Network.freeNames Network.nextName].
  assert (Hlive : ∀ x,
            is_Some (<[node := addParent nn startNode line]>
                       (<[startNode := set_children ns (children ns ++ [(node, line)])]>
                          (Network.nodes self)) !! x)
            ↔ is_Some (Network.nodes self !! x)).
  { intros x. rewrite (link_store_lookup _ _ _ line _ _ Hs Hn Hne).
    by rewrite fmap_is_Some. }
  split; [|split; [done|split; [done|split; [done|split]]]].
  - split; [done|]. split; [done|].
    unfold names_ok. cbn [Network.nodes Network.freeNames Network.nextName].
    split; [done|]. split; [done|]. split.
    + intros m Hm. apply eq_None_not_Some. rewrite Hlive.
      apply eq_None_not_Some. by apply Hfree.
    + intros m. by rewrite Hsplit, Hlive.
  - intros x y. rewrite Hedge. split.
    + intros [?|[-> ->]]; [by left|by right].
    + intros [?|(-> & -> & _)]; [by left|by right].
  - intros [?|(ns' & Hns' & Hin)]; [done|].
    assert (ns' = ns) as -> by congruence. done.
Qed.

(** X22: [link], the end of [stopLine]: between two live nodes it records the
    edge on both sides, or changes nothing when the two nodes are the same
    or the edge is already there; no other edge and no name is touched and
    the network stays well formed, without double edges or self-loops. *)
Theorem link_adds_one_edge (self : Network.network) (startNode node line : Z) :
  network_ok self →
  is_Some (Network.nodes self !! startNode) →
  is_Some (Network.nodes self !! node) →
  ∃ self',
    Network.link self startNode node line = Ok self' ∧ network_ok self'
    ∧ Network.freeNames self' = Network.freeNames self
    ∧ Network.nextName self' = Network.nextName self
    ∧ (∀ x, is_Some (Network.nodes self' !! x) ↔ is_Some (Network.nodes self !! x))
    ∧ (∀ x y, edge (Network.nodes self') x y
              ↔ edge (Network.nodes self) x y
                ∨ (x = startNode ∧ y = node ∧ startNode ≠ node))
    ∧ (startNode = node ∨ edge (Network.nodes self) startNode node → self' = self).
Proof. exact (link_spec self startNode node line). Qed.

Lemma apart_net_ok : network_ok apart_net.
Proof.
  split; [decide_by_computation|]. split.
  - change (map_Forall (λ x nd, NoDup (children nd).*1 ∧ NoDup (parents nd).*1
                                ∧ (x ∉ (children nd).*1) ∧ (x ∉ (parents nd).*1)) apart).
    decide_by_computation.
  - split; [done|]. split; [done|]. split; [by intros m ?%elem_of_nil|].
    intros m. unfold apart_net, apart. cbn [Network.nodes Network.freeNames Network.nextName].
    split.
    + intros Hm. left. assert (m = 1 ∨ m = 2) as [->| ->] by lia; by eexists.
    + intros [[nd Hm]|Hm%elem_of_nil]; [|done].
      rewrite lookup_insert in Hm. case_decide; [lia|].
      rewrite lookup_insert in Hm. case_decide; [lia|].
      by rewrite lookup_empty in Hm.
Qed.

Lemma link_adds_one_edge_witness :
  ∃ self',
    Network.link apart_net 1 2 7 = Ok self' ∧ network_ok self'
    ∧ Network.freeNames self' = Network.freeNames apart_net
    ∧ Network.nextName self' = Network.nextName apart_net
    ∧ (∀ x, is_Some (Network.nodes self' !! x)
            ↔ is_Some (Network.nodes apart_net !! x))
    ∧ (∀ x y, edge (Network.nodes self') x y
              ↔ edge (Network.nodes apart_net) x y ∨ (x = 1 ∧ y = 2 ∧ 1 ≠ 2))
    ∧ (1 = 2 ∨ edge (Network.nodes apart_net) 1 2 → self' = apart_net).
Proof.
  apply link_adds_one_edge; [apply apart_net_ok|by eexists|by eexists].
Defined.


(** * ProbabilityDialog *)

Lemma leading_floats_length (values : list (option Qc)) :
  (leading_floats values ≤ length values)%nat.
Proof.
  induction values as [|[v|] values IH]; simpl; lia.
Qed.

Lemma leading_floats_all (values : list (option Qc)) :
  Forall is_Some values ↔ leading_floats values = length values.
Proof.
  induction values as [|[v|] values IH]; simpl.
  - done.
  - rewrite Forall_cons, IH. split; [intros [_ ->]; done|].
    intros [= Heq]. split; [by eexists|done].
  - split; [|done]. intros [[? ?] _]%Forall_cons. done.
Qed.

(** The loop of [ok] writes the rows up to the first field that is no
    float and no other entry, and ends well only if every field it was to
    read is a float. *)
Lemma ok_loop_spec (values : list (option Qc)) :
  ∀ (count i : nat) (prob : gmap Z Qc),
    (i + count ≤ length values)%nat →
    (∀ j v, (j < count `min` leading_floats (drop i values))%nat →
       values !! (i + j)%nat = Some (Some v) →
       (ProbabilityDialog.ok_loop count i values prob).1 !! Z.of_nat (i + j)
       = Some v)
    ∧ (∀ p, ¬ (Z.of_nat i ≤ p
               < Z.of_nat (i + count `min` leading_floats (drop i values))) →
         (ProbabilityDialog.ok_loop count i values prob).1 !! p = prob !! p)
    ∧ (ProbabilityDialog.ok_loop count i values prob).2
      = if decide (count ≤ leading_floats (drop i values))%nat
        then Ok tt else Raise AttributeError.
Proof.
  induction count as [|count IH]; intros i prob Hlen; simpl.
  - split; [intros j v Hj; lia|]. by split.
  - destruct (lookup_lt_is_Some_2 values i) as [x Hx]; [lia|].
    rewrite Hx. rewrite (drop_S _ _ _ Hx).
    destruct x as [v|]; simpl.
    + destruct (IH (S i) (<[Z.of_nat i := v]> prob)) as (Hrows & Hrest & Hend);
        [lia|].
      split; [|split].
      * intros [|j] w Hj Hw.
        -- rewrite Nat.add_0_r in Hw |- *. rewrite Hx in Hw. injection Hw as <-.
           rewrite Hrest by lia. by rewrite lookup_insert_eq.
        -- replace (i + S j)%nat with (S i + j)%nat in Hw |- * by lia.
           apply Hrows; [lia|done].
      * intros p Hp. rewrite Hrest by lia. apply lookup_insert_ne. lia.
      * rewrite Hend. repeat case_decide; done || lia.
    + split; [intros j v Hj; lia|]. by split.
Qed.

(** The index that [getProbability] computes is a row of the dialog. *)
Lemma parentIndex_range (self : BayesNode) (evidence : list Z) :
  0 ≤ (parentIndex self evidence).1 < 2 ^ Z.of_nat (length (parents self)).
Proof.
  destruct (parentIndex_fold evidence (parents self) 0 0) as (Hpow & Hrange & _);
    [simpl; lia|].
  simpl in Hpow, Hrange. unfold parentIndex.
  change (2 ^ 0) with 1 in Hpow, Hrange. rewrite Hpow in Hrange. done.
Qed.

(** [ok] on fields that match the node's rows. *)
Lemma ok_outcome (node : BayesNode) (values : list (option Qc)) :
  length values = Z.to_nat (2 ^ Z.of_nat (length (parents node))) →
  ProbabilityDialog.ok node values
  = if decide (leading_floats values = length values)
    then Ok (set_prob node
               (ProbabilityDialog.ok_loop (length values) 0 values (prob node)).1)
    else Raise AttributeError.
Proof.
  intros Hlen. unfold ProbabilityDialog.ok. rewrite <- Hlen.
  destruct (ok_loop_spec values (length values) 0 (prob node))
    as (_ & _ & Hend); [simpl; lia|].
  rewrite drop_0 in Hend.
  pose proof (leading_floats_length values) as Hle.
  destruct (ProbabilityDialog.ok_loop _ _ _ _) as [table outcome].
  simpl in Hend. subst outcome.
  destruct (decide _), (decide _); done || lia.
Qed.

(** [ok] when every field is a float. *)
Lemma ok_all_floats (node : BayesNode) (values : list (option Qc)) :
  length values = Z.to_nat (2 ^ Z.of_nat (length (parents node))) →
  Forall is_Some values →
  ∃ prob',
    ProbabilityDialog.ok node values = Ok (set_prob node prob')
    ∧ ∀ evidence v,
        values !! Z.to_nat (parentIndex node evidence).1 = Some (Some v) →
        getProbability (set_prob node prob') evidence = v.
Proof.
  intros Hlen Hall. apply leading_floats_all in Hall.
  rewrite (ok_outcome node values Hlen), decide_True by done.
  destruct (ok_loop_spec values (length values) 0 (prob node))
    as (Hrows & _ & _); [simpl; lia|].
  eexists. split; [done|].
  intros evidence v Hv.
  pose proof (parentIndex_range node evidence) as Hrange.
  unfold getProbability.
  change (parentIndex (set_prob node ?t) evidence) with (parentIndex node evidence).
  simpl. rewrite drop_0, Hall, Nat.min_id in Hrows.
  specialize (Hrows (Z.to_nat (parentIndex node evidence).1) v).
  simpl in Hrows. rewrite Z2Nat.id in Hrows by lia.
  rewrite Hrows; [done| |done].
  apply lookup_lt_Some in Hv. done.
Qed.

(** X23: [ProbabilityDialog.ok] on fields that match the node's rows: the
    rows before the first field that is no float are stored in the node's
    table and every other entry keeps its value.  With a float in every
    field the call returns the node with that table; with a field that is
    no float it does not warn but ends in [AttributeError], raised by the
    handler's [tk.messagebox], and leaves the table partly updated. *)
Theorem ok_stores_rows_before_first_bad_field (node : BayesNode)
    (values : list (option Qc)) :
  length values = Z.to_nat (2 ^ Z.of_nat (length (parents node))) →
  ∃ table outcome,
    ProbabilityDialog.ok_loop (length values) 0 values (prob node)
    = (table, outcome)
    ∧ (∀ i v, (i < leading_floats values)%nat →
         values !! i = Some (Some v) → table !! Z.of_nat i = Some v)
    ∧ (∀ p, ¬ (0 ≤ p < Z.of_nat (leading_floats values)) →
         table !! p = prob node !! p)
    ∧ (Forall is_Some values →
       outcome = Ok tt
       ∧ ProbabilityDialog.ok node values = Ok (set_prob node table))
    ∧ (¬ Forall is_Some values →
       outcome = Raise AttributeError
       ∧ ProbabilityDialog.ok node values = Raise AttributeError).
Proof.
  intros Hlen.
  destruct (ok_loop_spec values (length values) 0 (prob node))
    as (Hrows & Hrest & Hend); [simpl; lia|].
  pose proof (ok_outcome node values Hlen) as Hok.
  rewrite drop_0 in Hrows, Hrest, Hend.
  pose proof (leading_floats_length values) as Hle.
  rewrite Nat.min_r in Hrows, Hrest by done.
  destruct (ProbabilityDialog.ok_loop _ _ _ _) as [table outcome].
  simpl in Hrows, Hrest, Hend, Hok.
  exists table, outcome. split; [done|]. split; [|split; [|split]].
  - intros i v Hi Hv. by apply (Hrows i v).
  - intros p Hp. apply Hrest. simpl. lia.
  - intros Hall%leading_floats_all.
    rewrite Hend, Hok. rewrite !decide_True by (done || lia). done.
  - intros Hbad. rewrite leading_floats_all in Hbad.
    rewrite Hend, Hok. rewrite !decide_False by (done || lia). done.
Qed.

Lemma ok_stores_rows_before_first_bad_field_witness :
  ∃ table outcome,
    ProbabilityDialog.ok_loop (length fields_bad) 0 fields_bad (prob flip_child)
    = (table, outcome)
    ∧ (∀ i v, (i < leading_floats fields_bad)%nat →
         fields_bad !! i = Some (Some v) → table !! Z.of_nat i = Some v)
    ∧ (∀ p, ¬ (0 ≤ p < Z.of_nat (leading_floats fields_bad)) →
         table !! p = prob flip_child !! p)
    ∧ (Forall is_Some fields_bad →
       outcome = Ok tt
       ∧ ProbabilityDialog.ok flip_child fields_bad
         = Ok (set_prob flip_child table))
    ∧ (¬ Forall is_Some fields_bad →
       outcome = Raise AttributeError
       ∧ ProbabilityDialog.ok flip_child fields_bad = Raise AttributeError).
Proof.
  apply ok_stores_rows_before_first_bad_field. reflexivity.
Defined.

(** X24: After [ok] with a float in every field, [getProbability] returns for
    every evidence the value entered in the row whose number is the
    bitmask of the parents that are in the evidence; the default 0.5 is
    never used again. *)
Theorem ok_then_getProbability_reads_the_row (node : BayesNode)
    (values : list (option Qc)) :
  length values = Z.to_nat (2 ^ Z.of_nat (length (parents node))) →
  Forall is_Some values →
  ∃ node',
    ProbabilityDialog.ok node values = Ok node'
    ∧ ∀ evidence,
        values !! Z.to_nat (parentIndex node evidence).1
        = Some (Some (getProbability node' evidence)).
Proof.
  intros Hlen Hall.
  destruct (ok_all_floats node values Hlen Hall) as (prob' & Hok & Hread).
  eexists. split; [done|]. intros evidence.
  pose proof (parentIndex_range node evidence) as Hrange.
  destruct (lookup_lt_is_Some_2 values (Z.to_nat (parentIndex node evidence).1))
    as [x Hx]; [rewrite Hlen; lia|].
  rewrite list.Forall_forall in Hall.
  destruct (Hall x) as [v ->]; [by eapply list_elem_of_lookup_2|].
  rewrite Hx. by rewrite (Hread evidence v Hx).
Qed.

Lemma ok_then_getProbability_reads_the_row_witness :
  ∃ node',
    ProbabilityDialog.ok flip_child fields_good = Ok node'
    ∧ ∀ evidence,
        fields_good !! Z.to_nat (parentIndex flip_child evidence).1
        = Some (Some (getProbability node' evidence)).
Proof.
  apply ok_then_getProbability_reads_the_row.
  - reflexivity.
  - repeat constructor; by eexists.
Defined.

(** * The networks the editor can reach *)

(** A new table for a live node changes no link and no name. *)
Lemma retable_ok (nodes : gmap Z BayesNode) (item : Z) (node : BayesNode)
    (table : gmap Z Qc) :
  nodes !! item = Some node → wf_network nodes → links_distinct nodes →
  wf_network (<[item := set_prob node table]> nodes)
  ∧ links_distinct (<[item := set_prob node table]> nodes)
  ∧ ∀ x, is_Some (<[item := set_prob node table]> nodes !! x)
         ↔ is_Some (nodes !! x).
Proof.
  intros Hitem Hwf Hdist.
  set (nodes' := <[item := _]> nodes).
  assert (Hsome : ∀ x nd', nodes' !! x = Some nd' →
            ∃ nd, nodes !! x = Some nd ∧ name nd' = name nd
                  ∧ children nd' = children nd ∧ parents nd' = parents nd).
  { intros x nd'. unfold nodes'. rewrite lookup_insert. case_decide as Hx.
    - subst x. intros [= <-]. by exists node.
    - intros Hnd. by exists nd'. }
  assert (Hkeep : ∀ x nd, nodes !! x = Some nd →
            ∃ nd', nodes' !! x = Some nd' ∧ name nd' = name nd
                   ∧ children nd' = children nd ∧ parents nd' = parents nd).
  { intros x nd Hnd. unfold nodes'. rewrite lookup_insert. case_decide as Hx.
    - subst x. assert (nd = node) as -> by congruence. by eexists.
    - by exists nd. }
  assert (Hedge : ∀ x y, edge nodes' x y ↔ edge nodes x y).
  { intros x y. split.
    - intros (nd' & Hx & Hy). destruct (Hsome _ _ Hx) as (nd & Hnd & _ & Hc & _).
      exists nd. by rewrite <- Hc.
    - intros (nd & Hx & Hy). destruct (Hkeep _ _ Hx) as (nd' & Hnd & _ & Hc & _).
      exists nd'. by rewrite Hc. }
  assert (Hparent : ∀ x p, parent_link nodes' x p ↔ parent_link nodes x p).
  { intros x p. split.
    - intros (nd' & Hx & Hp). destruct (Hsome _ _ Hx) as (nd & Hnd & _ & _ & Hps).
      exists nd. by rewrite <- Hps.
    - intros (nd & Hx & Hp). destruct (Hkeep _ _ Hx) as (nd' & Hnd & _ & _ & Hps).
      exists nd'. by rewrite Hps. }
  apply wf_network_iff in Hwf as (Hnames & Hcp & Hpc).
  split; [|split].
  - apply wf_network_iff. split; [|split].
    + intros x nd' Hx. destruct (Hsome _ _ Hx) as (nd & Hnd & -> & _).
      by apply Hnames.
    + intros x c ?%Hedge. by apply Hparent, Hcp.
    + intros x p ?%Hparent. by apply Hedge, Hpc.
  - intros x nd' Hx. destruct (Hsome _ _ Hx) as (nd & Hnd & _ & -> & ->).
    by apply (Hdist x nd).
  - intros x. split.
    + intros [nd' Hx]. destruct (Hsome _ _ Hx) as (nd & Hnd & _). by eexists.
    + intros [nd Hx]. destruct (Hkeep _ _ Hx) as (nd' & Hnd & _). by eexists.
Qed.

(** Every step of the editor keeps the invariants. *)
Lemma built_ok (self : Network.network) : built self → network_ok self.
Proof.
  induction 1 as [|self _ IH|self s n line self' _ IH Hlink
                  |self item self' _ IH Hremove|self item node table _ IH Hitem].
  - apply network_ok_empty.
  - by apply createNode_spec.
  - destruct (Network.nodes self !! s) as [ns|] eqn:Hs;
      [|unfold Network.link, node_at in Hlink; by rewrite Hs in Hlink].
    destruct (Network.nodes self !! n) as [nn|] eqn:Hn;
      [|unfold Network.link, node_at in Hlink; by rewrite Hs, Hn in Hlink].
    destruct (link_spec self s n line IH) as (self'' & Hrun & Hok & _);
      [by eexists|by eexists|].
    congruence.
  - destruct (Network.nodes self !! item) as [nd|] eqn:Hitem;
      [|unfold Network.remove, node_at in Hremove; by rewrite Hitem in Hremove].
    destruct (remove_spec self item IH) as (self'' & Hrun & Hok & _); [by eexists|].
    congruence.
  - destruct IH as (Hwf & Hdist & Hinc & Hnext & Hfree & Hsplit).
    destruct (retable_ok _ _ _ table Hitem Hwf Hdist) as (Hwf' & Hdist' & Hlive).
    split; [done|]. split; [done|].
    unfold names_ok. cbn [Network.nodes Network.freeNames Network.nextName].
    split; [done|]. split; [done|]. split.
    + intros m Hm. apply eq_None_not_Some. rewrite Hlive.
      apply eq_None_not_Some. by apply Hfree.
    + intros m. by rewrite Hsplit, Hlive.
Qed.

(** The nodes of a well-formed store, as a list in any order: distinct
    names, and every parent is in the list. *)
Lemma store_values_closed (nodes : gmap Z BayesNode) (l : list BayesNode) :
  wf_network nodes → l ≡ₚ (map_to_list nodes).*2 →
  NoDup (name <$> l) ∧ parents_listed l
  ∧ ∀ n, n ∈ l → nodes !! name n = Some n.
Proof.
  intros Hwf Hperm.
  assert (Hin : ∀ n, n ∈ l → nodes !! name n = Some n).
  { intros n Hn. rewrite Hperm in Hn.
    apply list_elem_of_fmap in Hn as ([k nd] & -> & Hk).
    apply elem_of_map_to_list in Hk. simpl.
    by rewrite (wf_name nodes Hwf _ _ Hk). }
  split; [|split; [|done]].
  - rewrite Hperm.
    assert (Heq : name <$> (map_to_list nodes).*2 = (map_to_list nodes).*1).
    { rewrite <- list_fmap_compose. apply list_fmap_ext.
      intros i [k nd] Hk%list_elem_of_lookup_2%elem_of_map_to_list. simpl.
      by apply (wf_name nodes Hwf). }
    rewrite Heq. apply NoDup_fst_map_to_list.
  - intros n p Hn Hp.
    destruct (wf_parent nodes Hwf _ _ _ (Hin n Hn) Hp) as (np & Hnp & _).
    exists np. split; [|by apply (wf_name nodes Hwf)].
    rewrite Hperm. apply list_elem_of_fmap. exists (p, np). split; [done|].
    by apply elem_of_map_to_list.
Qed.

(** X26: Whatever sequence of node creations, links, removals and table edits
    built the network, it has the shape the checker and the samplers rely
    on: links recorded on both sides, no double edge or self-loop, names
    consistent; and the list of its nodes handed to a sampler (in any
    order) has distinct positive names and contains every parent. *)
Theorem editor_networks_fit_the_samplers (self : Network.network)
    (nodes : list BayesNode) :
  built self → nodes ≡ₚ (map_to_list (Network.nodes self)).*2 →
  network_ok self
  ∧ NoDup (name <$> nodes) ∧ parents_listed nodes
  ∧ (∀ n, n ∈ nodes → 0 < name n).
Proof.
  intros Hbuilt Hperm. pose proof (built_ok self Hbuilt) as Hok.
  split; [done|].
  destruct Hok as (Hwf & _ & _ & _ & _ & Hsplit).
  destruct (store_values_closed _ _ Hwf Hperm) as (Hnd & Hlisted & Hin).
  split; [done|]. split; [done|].
  intros n Hn. assert (1 ≤ name n < Network.nextName self); [|lia].
  apply Hsplit. left. rewrite (Hin n Hn). by eexists.
Qed.

Lemma two_nodes_built : built two_nodes.
Proof. do 2 apply built_createNode. apply built_empty. Qed.

Lemma released_two_built : built released_two.
Proof.
  apply (built_remove three_nodes 2); [|vm_compute; reflexivity].
  apply built_createNode, two_nodes_built.
Qed.

Lemma createNode_gives_fresh_name_witness :
  (Network.createNode released_two).1 = 2
  ∧ Network.freeNames released_two = [2]
  ∧ is_Some (Network.nodes released_two !! 1)
  ∧ Network.nodes released_two !! (Network.createNode released_two).1 = None
  ∧ 1 ≤ (Network.createNode released_two).1
  ∧ (∀ m, m ∈ Network.freeNames released_two →
       (Network.createNode released_two).1 ≤ m)
  ∧ (Network.freeNames released_two = [] →
     (Network.createNode released_two).1 = Network.nextName released_two)
  ∧ Network.nodes (Network.createNode released_two).2
    = <[(Network.createNode released_two).1 :=
          mkNode (Network.createNode released_two).1 [] [] ∅]>
        (Network.nodes released_two)
  ∧ network_ok (Network.createNode released_two).2.
Proof.
  split; [reflexivity|]. split; [reflexivity|]. split; [by eexists|].
  apply createNode_gives_fresh_name. apply built_ok, released_two_built.
Defined.

Lemma editor_networks_fit_the_samplers_witness :
  network_ok linked_pair
  ∧ NoDup (name <$> [mkNode 2 [(1, 7)] [] ∅; mkNode 1 [] [(2, 7)] ∅])
  ∧ parents_listed [mkNode 2 [(1, 7)] [] ∅; mkNode 1 [] [(2, 7)] ∅]
  ∧ (∀ n, n ∈ [mkNode 2 [(1, 7)] [] ∅; mkNode 1 [] [(2, 7)] ∅] → 0 < name n).
Proof.
  apply editor_networks_fit_the_samplers.
  - apply (built_link two_nodes 1 2 7); [apply two_nodes_built|].
    vm_compute. reflexivity.
  - vm_compute. apply perm_swap || reflexivity.
Defined.

(** * Lists of node names as text *)

Lemma split_at_nonempty (p : ascii → bool) (s : list ascii) : split_at p s ≠ [].
Proof.
  destruct s as [|c s]; simpl; [done|].
  destruct (p c); [done|]. by destruct (split_at p s).
Qed.

(** Text without a separating character is one piece. *)
Lemma split_at_clean (p : ascii → bool) (s : list ascii) :
  Forall (λ c, p c = false) s → split_at p s = [s].
Proof.
  induction 1 as [|c s Hc _ IH]; simpl; [done|]. by rewrite Hc, IH.
Qed.

Lemma split_at_app (p : ascii → bool) (a b : list ascii) (c : ascii) :
  p c = true → split_at p (a ++ c :: b) = split_at p a ++ split_at p b.
Proof.
  intros Hc. induction a as [|x a IH]; simpl.
  - by rewrite Hc.
  - rewrite IH. destruct (p x); [done|].
    pose proof (split_at_nonempty p a). by destruct (split_at p a).
Qed.

Lemma str_join_Forall (P : ascii → Prop) (sep : list ascii)
    (ws : list (list ascii)) :
  Forall P sep → Forall (Forall P) ws → Forall P (str_join sep ws).
Proof.
  intros Hsep. induction 1 as [|w ws Hw Hws IH]; simpl; [done|].
  destruct ws; [done|]. apply Forall_app. split; [done|].
  apply Forall_app. by split.
Qed.

(** Splitting at the separator undoes [join]. *)
Lemma split_at_join (p : ascii → bool) (sep : ascii) (ws : list (list ascii)) :
  p sep = true → ws ≠ [] → Forall (Forall (λ c, p c = false)) ws →
  split_at p (str_join [sep] ws) = ws.
Proof.
  intros Hsep Hne Hws. induction Hws as [|w ws Hw Hws IH]; [done|]. simpl.
  destruct ws as [|w' ws]; [by apply split_at_clean|].
  change ([sep] ++ ?l) with (sep :: l).
  rewrite split_at_app by done. rewrite IH by done.
  by rewrite split_at_clean.
Qed.

(** Splitting at two kinds of separator at once, or one after the other. *)
Lemma split_at_or (p1 p2 : ascii → bool) (s : list ascii) :
  split_at (λ c, p1 c || p2 c) s = mjoin (split_at p2 <$> split_at p1 s).
Proof.
  induction s as [|c s IH]; simpl; [done|].
  pose proof (split_at_nonempty p1 s) as Hne.
  destruct (p1 c); simpl.
  - by rewrite IH.
  - rewrite IH. destruct (split_at p1 s) as [|w ws]; [done|]. simpl.
    destruct (p2 c); [done|].
    pose proof (split_at_nonempty p2 w). by destruct (split_at p2 w).
Qed.

Section text_facts.
Variable int : list ascii → option Z.

Lemma parse_tokens_elem_of (tokens : list (list ascii)) (result : gset Z) (i : Z) :
  i ∈ foldl (λ (result : gset Z) (s : list ascii),
               match int s with
               | Some i => {[i]} ∪ result
               | None => result
               end) result tokens
  ↔ i ∈ result ∨ ∃ s, s ∈ tokens ∧ int s = Some i.
Proof.
  revert result. induction tokens as [|t tokens IH]; intros result; simpl.
  - split; [by left|]. intros [?|(s & ?%elem_of_nil & _)]; done.
  - rewrite IH. split.
    + intros [Hi|(s & Hs & Hint)].
      * destruct (int t) as [j|] eqn:Ht; [|by left].
        apply elem_of_union in Hi as [->%elem_of_singleton|Hi]; [|by left].
        right. exists t. split; [left|done].
      * right. exists s. split; [by right|done].
    + intros [Hi|(s & [->|Hs]%elem_of_cons & Hint)].
      * left. destruct (int t); [|done]. apply elem_of_union. by right.
      * left. rewrite Hint. apply elem_of_union. left. by apply elem_of_singleton.
      * right. by exists s.
Qed.

(** The integers of [parseNodes], by the two loops. *)
Lemma parseNodes_elem_of (nodes : list ascii) (i : Z) :
  i ∈ parseNodes int nodes
  ↔ ∃ n s, n ∈ str_split nodes ∧ s ∈ str_split_on ","%char n ∧ int s = Some i.
Proof.
  unfold parseNodes.
  assert (Hgen : ∀ (ns : list (list ascii)) (result : gset Z),
            i ∈ foldl (λ (result : gset Z) (n : list ascii),
                         foldl (λ (result : gset Z) (s : list ascii),
                                  match int s with
                                  | Some i => {[i]} ∪ result
                                  | None => result
                                  end) result (str_split_on ","%char n))
                      result ns
            ↔ i ∈ result
              ∨ ∃ n s, n ∈ ns ∧ s ∈ str_split_on ","%char n ∧ int s = Some i).
  { induction ns as [|n ns IH]; intros result; simpl.
    - split; [by left|]. intros [?|(n & s & ?%elem_of_nil & _)]; done.
    - rewrite IH, parse_tokens_elem_of. split.
      + intros [[Hi|(s & Hs & Hint)]|(n' & s & Hn' & Hs & Hint)].
        * by left.
        * right. exists n, s. split; [left|done].
        * right. exists n', s. split; [by right|done].
      + intros [Hi|(n' & s & [->|Hn']%elem_of_cons & Hs & Hint)].
        * left. by left.
        * left. right. by exists s.
        * right. by exists n', s. }
  rewrite Hgen. split; [|by right].
  intros [?%not_elem_of_empty|?]; done.
Qed.
End text_facts.

(** X27: [parseNodes] never fails and treats white space and commas alike: it
    returns the integers that [int] reads from the pieces of the text
    between separators, and nothing else (the empty piece is no integer). *)
Theorem parseNodes_reads_the_separated_integers
    (int : list ascii → option Z) (nodes : list ascii) (i : Z) :
  int [] = None →
  i ∈ parseNodes int nodes
  ↔ ∃ t, t ∈ split_at is_separator nodes ∧ int t = Some i.
Proof.
  intros Hempty. rewrite parseNodes_elem_of.
  unfold is_separator. rewrite split_at_or. unfold str_split, str_split_on. split.
  - intros (n & s & [_ Hn]%list_elem_of_filter & Hs & Hint).
    exists s. split; [|done]. apply list_elem_of_join.
    exists (split_at (λ c, bool_decide (c = ","%char)) n). split; [done|].
    apply list_elem_of_fmap. by exists n.
  - intros (t & (l & Ht & (n & -> & Hn)%list_elem_of_fmap)%list_elem_of_join & Hint).
    exists n, t. split; [|done]. apply list_elem_of_filter. split; [|done].
    intros ->. simpl in Ht. apply list_elem_of_singleton in Ht as ->. congruence.
Qed.

Lemma parseNodes_reads_the_separated_integers_witness :
  2 ∈ parseNodes decimal_int names_text
  ↔ ∃ t, t ∈ split_at is_separator names_text ∧ decimal_int t = Some 2.
Proof.
  apply parseNodes_reads_the_separated_integers. vm_compute. reflexivity.
Defined.

(** X28: [parseNodes] reads back what [getListString] writes: for numbers that
    [str] writes as non-empty text without white space or comma and that
    [int] reads back, the result is the set of the numbers. *)
Theorem parseNodes_reads_back_getListString
    (int : list ascii → option Z) (str : Z → list ascii) (values : list Z) :
  (∀ i, i ∈ values → int (str i) = Some i) →
  (∀ i, i ∈ values →
     str i ≠ [] ∧ Forall (λ c, is_separator c = false) (str i)) →
  parseNodes int (getListString str values) = list_to_set values.
Proof.
  intros Hint Hclean. destruct values as [|v values]; [done|].
  apply set_eq. intros i. rewrite parseNodes_elem_of, elem_of_list_to_set.
  set (ws := str <$> v :: values).
  assert (Hws : Forall (Forall (λ c, is_separator c = false)) ws).
  { apply Forall_fmap, list.Forall_forall. intros j Hj. by apply Hclean. }
  assert (Hspace : Forall (λ c, is_space c = false) (getListString str (v :: values))).
  { apply str_join_Forall; [by repeat constructor|].
    eapply Forall_impl; [exact Hws|]. intros w Hw.
    eapply Forall_impl; [exact Hw|]. intros c Hc.
    unfold is_separator in Hc. by apply orb_false_elim in Hc as [? _]. }
  assert (Hne : getListString str (v :: values) ≠ []).
  { destruct (Hclean v) as [Hv _]; [left|].
    unfold getListString. rewrite fmap_cons. simpl.
    destruct (str v) as [|c w]; [done|]. by destruct (str <$> values). }
  assert (Hsplit : str_split (getListString str (v :: values))
                   = [getListString str (v :: values)]).
  { unfold str_split. rewrite split_at_clean by done.
    rewrite filter_cons. by destruct (decide _). }
  assert (Hcomma : str_split_on ","%char (getListString str (v :: values)) = ws).
  { unfold str_split_on, getListString. apply split_at_join.
    - by apply bool_decide_eq_true_2.
    - done.
    - eapply Forall_impl; [exact Hws|]. intros w Hw.
      eapply Forall_impl; [exact Hw|]. intros c Hc.
      unfold is_separator in Hc. by apply orb_false_elim in Hc as [_ ?]. }
  rewrite Hsplit. split.
  - intros (n & s & ->%list_elem_of_singleton & Hs & His).
    rewrite Hcomma in Hs. apply list_elem_of_fmap in Hs as (j & -> & Hj).
    rewrite (Hint j Hj) in His. by injection His as <-.
  - intros Hi. exists (getListString str (v :: values)), (str i).
    split; [by apply list_elem_of_singleton|]. split; [|by apply Hint].
    rewrite Hcomma. by apply list_elem_of_fmap_2.
Qed.

Lemma parseNodes_reads_back_getListString_witness :
  parseNodes decimal_int (getListString decimal_str [1; -30; 2])
  = list_to_set [1; -30; 2].
Proof.
  apply parseNodes_reads_back_getListString.
  - intros i Hi. repeat (apply elem_of_cons in Hi as [->|Hi]; [vm_compute; reflexivity|]).
    by apply elem_of_nil in Hi.
  - intros i Hi.
    repeat (apply elem_of_cons in Hi as [->|Hi];
            [split; [done|repeat constructor]|]).
    by apply elem_of_nil in Hi.
Defined.
